(** * TAPAS tokenizer: table linearization and numeric alignment

    A shallow embedding of the table-handling core of
    [src/transformers/tokenization_tapas.py]: the table tokenizer and its
    coordinate index, the budget fitter, the serializer, the numeric feature
    builder, the answer alignment (coordinate mode) and the prediction
    decoder, followed by the properties proved about them.

    Conventions.
    - Python [int]s that may be negative (ids minus one, budgets, the word
      begin index) are [Z]; lengths, counts and list positions are [nat].
    - A Python exception is a value [Raise e] of the [result] monad.
    - A Python [float] is a [pyfloat]: NaN, the two infinities, or a finite
      value carried by a canonical rational (every finite double is one, and
      [==] and [<] on finite doubles are those of the rationals).
    - A dictionary whose iteration order the code relies on is an
      association list in insertion order.
    - The subword tokenizer, the vocabulary lookup and the regular-expression
      and calendar based text parser ([parse_text], [normalize_for_match])
      are collaborators of the code below and are taken as parameters. *)

From Stdlib Require Import ZArith QArith Qcanon Lia Lqa Ascii String.
From stdpp Require Import base option strings numbers sorting list.

Local Open Scope Z_scope.

(** ** Exceptions *)

Inductive PyErr :=
| ValueError (msg : string)
| AssertionError
| KeyError
| IndexError
| TypeError
| AttributeError
| RuntimeError.

Inductive result (A : Type) :=
| Ok (a : A)
| Raise (e : PyErr).
Arguments Ok {A} a.
Arguments Raise {A} e.

#[global] Instance result_bind : MBind result := fun A B k m =>
  match m with
  | Ok a => k a
  | Raise e => Raise e
  end.

#[global] Instance result_ret : MRet result := fun A a => Ok a.

(** [l[i]] for a non-negative index: [IndexError] out of range. *)
Definition getitem {A} (l : list A) (i : nat) : result A :=
  match l !! i with
  | Some a => Ok a
  | None => Raise IndexError
  end.

Definition is_ok {A} (m : result A) : bool :=
  match m with Ok _ => true | Raise _ => false end.

(** ** Data model *)

Record TableValue := mkTableValue {
  token : string;
  column_id : Z;
  row_id : Z
}.

Record TokenCoordinates := mkTokenCoordinates {
  column_index : nat;
  row_index : nat;
  token_index : nat
}.

Record TokenizedTable := mkTokenizedTable {
  rows : list (list (list string));
  selected_tokens : list TokenCoordinates
}.

Record SerializedExample := mkSerializedExample {
  tokens : list string;
  column_ids : list Z;
  row_ids : list Z;
  segment_ids : list Z
}.

(** A [pandas.DataFrame] of text cells with the default positional index:
    the column names, the number of data rows and the cell text at a
    (row, column) position. A frame is rectangular: every row has one cell
    per column. *)
Record DataFrame := mkDataFrame {
  columns : list string;
  num_data_rows : nat;
  iloc : nat -> nat -> string
}.

Definition shape (table : DataFrame) : nat * nat :=
  (num_data_rows table, length (columns table)).

(** The cells of a data row, in column order. *)
Definition row_cells (table : DataFrame) (row_index : nat) : list string :=
  iloc table row_index <$> seq 0 (length (columns table)).

(** [pd.DataFrame(data, columns=...)] from rows given as lists. *)
Definition data_frame (cols : list string) (data : list (list string))
  : DataFrame :=
  mkDataFrame cols (length data)
    (fun r c => default "" (data !! r ≫= fun row => row !! c)).

(** The tokenizer object: its configuration and the inherited collaborators
    ([tokenize], [convert_tokens_to_ids]). *)
Record TapasTokenizer := mkTapasTokenizer {
  model_max_length : nat;
  cell_trim_length : Z;
  max_column_id : nat;
  max_row_id : nat;
  strip_column_names : bool;
  update_answer_coordinates : bool;
  drop_rows_to_fit : bool;
  cls_token : string;
  sep_token : string;
  tokenize : string -> list string;
  convert_tokens_to_ids : list string -> list Z
}.

Definition _is_inner_wordpiece (tok : string) : bool :=
  String.prefix "##" tok.

(** ** Table tokenizer and coordinate indexer *)

(** [enumerate(l, start)] *)
Fixpoint enumerate_from {A} (start : nat) (l : list A) : list (nat * A) :=
  match l with
  | [] => []
  | x :: l' => (start, x) :: enumerate_from (S start) l'
  end.

Definition enumerate {A} (l : list A) : list (nat * A) := enumerate_from 0 l.

Definition token_coordinates (tokenized_rows : list (list (list string)))
  : list TokenCoordinates :=
  '(row_index, row) ← enumerate tokenized_rows;
  '(column_index, cell) ← enumerate row;
  '(token_index, _) ← enumerate cell;
  [mkTokenCoordinates column_index row_index token_index].

Definition _tokenize_table (self : TapasTokenizer) (table : DataFrame)
  : TokenizedTable :=
  let header :=
    (fun column : string =>
       if strip_column_names self then tokenize self ""
       else tokenize self column) <$> columns table in
  let body :=
    (fun row_index : nat => tokenize self <$> row_cells table row_index)
      <$> seq 0 (num_data_rows table) in
  let tokenized_rows := header :: body in
  mkTokenizedTable tokenized_rows (token_coordinates tokenized_rows).

(** ** Budget and table values *)

Definition _question_encoding_cost (question_tokens : list string) : Z :=
  Z.of_nat (length question_tokens) + 2.

Definition _get_token_budget (self : TapasTokenizer)
  (question_tokens : list string) : Z :=
  Z.of_nat (model_max_length self) - _question_encoding_cost question_tokens.

(** The [while] loop of [_get_table_values]: walk left from [i] while the
    piece at the index is an inner word piece; [-1] when the walk leaves the
    cell. *)
Fixpoint word_begin_index (cell : list string) (i : nat) : result Z :=
  tok ← getitem cell i;
  if _is_inner_wordpiece tok then
    match i with
    | O => Ok (-1)
    | S j => word_begin_index cell j
    end
  else Ok (Z.of_nat i).

(** One iteration of the generator's loop: [None] where the source
    [continue]s. *)
Definition table_value_at (table : TokenizedTable)
  (num_columns num_rows num_tokens : nat) (tc : TokenCoordinates)
  : result (option TableValue) :=
  if decide (num_rows + 1 <= row_index tc)%nat then Ok None
  else if decide (num_columns <= column_index tc)%nat then Ok None
  else
    row ← getitem (rows table) (row_index tc);
    cell ← getitem row (column_index tc);
    tok ← getitem cell (token_index tc);
    wbi ← word_begin_index cell (token_index tc);
    if decide (Z.of_nat num_tokens <= wbi) then Ok None
    else Ok (Some (mkTableValue tok (Z.of_nat (column_index tc) + 1)
                                (Z.of_nat (row_index tc)))).

Fixpoint table_values_from (table : TokenizedTable)
  (num_columns num_rows num_tokens : nat) (tcs : list TokenCoordinates)
  : result (list TableValue) :=
  match tcs with
  | [] => Ok []
  | tc :: tcs' =>
      v ← table_value_at table num_columns num_rows num_tokens tc;
      vs ← table_values_from table num_columns num_rows num_tokens tcs';
      Ok (match v with Some tv => tv :: vs | None => vs end)
  end.

Definition _get_table_values (table : TokenizedTable)
  (num_columns num_rows num_tokens : nat) : result (list TableValue) :=
  table_values_from table num_columns num_rows num_tokens
    (selected_tokens table).

Definition _get_table_cost (table : TokenizedTable)
  (num_columns num_rows num_tokens : nat) : result Z :=
  vs ← _get_table_values table num_columns num_rows num_tokens;
  Ok (Z.of_nat (length vs)).

(** ** Serializer *)

Definition _serialize_text (self : TapasTokenizer)
  (question_tokens : list string)
  : list string * list Z * list Z * list Z :=
  (cls_token self :: question_tokens,
   0 :: ((fun _ => 0) <$> question_tokens),
   0 :: ((fun _ => 0) <$> question_tokens),
   0 :: ((fun _ => 0) <$> question_tokens)).

Definition _serialize (self : TapasTokenizer) (question_tokens : list string)
  (table : TokenizedTable) (num_columns num_rows num_tokens : nat)
  : result SerializedExample :=
  let '(toks, segs, cols, rws) := _serialize_text self question_tokens in
  vs ← _get_table_values table num_columns num_rows num_tokens;
  Ok (mkSerializedExample
        (toks ++ [sep_token self] ++ (token <$> vs))
        (cols ++ [0] ++ (column_id <$> vs))
        (rws ++ [0] ++ (row_id <$> vs))
        (segs ++ [0] ++ ((fun _ => 1) <$> vs))).

(** ** Budget fitter *)

Definition _get_table_boundaries (self : TapasTokenizer)
  (table : TokenizedTable) : nat * nat * nat :=
  foldl
    (fun '(max_num_rows, max_num_columns, max_num_tokens) tc =>
       let max_num_columns := Nat.max max_num_columns (column_index tc + 1) in
       let max_num_rows := Nat.max max_num_rows (row_index tc + 1) in
       let max_num_tokens := Nat.max max_num_tokens (token_index tc + 1) in
       let max_num_columns := Nat.min (max_column_id self) max_num_columns in
       let max_num_rows := Nat.min (max_row_id self) max_num_rows in
       (max_num_rows, max_num_columns, max_num_tokens))
    (0, 0, 0)%nat (selected_tokens table).

(** The [for num_tokens in range(max_num_tokens + 1)] loop with its
    [break]: [scan_num_tokens cost budget k r] runs the iterations
    [k, k+1, ..., k+r] and returns the value the loop variable is left
    with. *)
Fixpoint scan_num_tokens (cost : nat -> result Z) (token_budget : Z)
  (k r : nat) : result nat :=
  c ← cost (k + 1)%nat;
  if decide (c > token_budget) then Ok k
  else match r with
       | O => Ok k
       | S r' => scan_num_tokens cost token_budget (S k) r'
       end.

(** The cap on the scan: the longest cell, or [cell_trim_length] when it is
    set and smaller. *)
Definition capped_max_num_tokens (self : TapasTokenizer)
  (tokenized_table : TokenizedTable) : nat :=
  let '(_, _, max_num_tokens) := _get_table_boundaries self tokenized_table in
  if decide (cell_trim_length self >= 0
             /\ Z.of_nat max_num_tokens > cell_trim_length self)
  then Z.to_nat (cell_trim_length self)
  else max_num_tokens.

Definition _get_max_num_tokens (self : TapasTokenizer)
  (question_tokens : list string) (tokenized_table : TokenizedTable)
  (num_columns num_rows : nat) : result (option nat) :=
  let token_budget := _get_token_budget self question_tokens in
  let max_num_tokens := capped_max_num_tokens self tokenized_table in
  num_tokens ←
    scan_num_tokens
      (_get_table_cost tokenized_table num_columns num_rows)
      token_budget 0 max_num_tokens;
  if decide (num_tokens < max_num_tokens)%nat then
    if decide (cell_trim_length self >= 0) then Ok None
    else if decide (num_tokens = 0%nat) then Ok None
    else Ok (Some num_tokens)
  else Ok (Some num_tokens).

Definition _get_num_columns (self : TapasTokenizer) (table : DataFrame)
  : result nat :=
  let num_columns := (shape table).2 in
  if decide (max_column_id self <= num_columns)%nat
  then Raise (ValueError "Too many columns")
  else Ok num_columns.

(** Row counts are natural numbers here. The source computes
    [max_row_id - 1] on integers: with [max_row_id = 0] and row dropping it
    returns [-1], a row count under which [_to_trimmed_features] serializes
    no table row, or never leaves its loop when the question alone exceeds
    the budget. That configuration is not covered: the definition below
    answers [0] there, and the statements on the row count assume
    [0 < max_row_id]. *)
Definition _get_num_rows (self : TapasTokenizer) (table : DataFrame)
  (drop_rows_to_fit : bool) : result nat :=
  let num_rows := (shape table).1 in
  if decide (max_row_id self <= num_rows)%nat then
    if drop_rows_to_fit then Ok (max_row_id self - 1)%nat
    else Raise (ValueError "Too many rows")
  else Ok num_rows.

(** The [while True] loop of [_to_trimmed_features]: the rows kept and the
    per-cell token cap, found by dropping one row at a time. *)
Fixpoint trim_search (self : TapasTokenizer) (question_tokens : list string)
  (tokenized_table : TokenizedTable) (num_columns : nat)
  (drop_rows_to_fit : bool) (num_rows : nat) : result (nat * nat) :=
  r ← _get_max_num_tokens self question_tokens tokenized_table
          num_columns num_rows;
  match r with
  | Some num_tokens => Ok (num_rows, num_tokens)
  | None =>
      if negb drop_rows_to_fit then Raise (ValueError "Sequence too long")
      else match num_rows with
           | O => Raise (ValueError "Sequence too long")
           | S n => trim_search self question_tokens tokenized_table
                      num_columns drop_rows_to_fit n
           end
  end.

(** The part of [_to_trimmed_features] up to and including the assertion on
    the serialized length. *)
Definition fit_and_serialize (self : TapasTokenizer)
  (question_tokens : list string) (tokenized_table : TokenizedTable)
  (num_columns num_rows : nat) (drop_rows_to_fit : bool)
  : result SerializedExample :=
  '(num_rows, num_tokens) ←
     trim_search self question_tokens tokenized_table num_columns
       drop_rows_to_fit num_rows;
  serialized_example ←
    _serialize self question_tokens tokenized_table num_columns num_rows
      num_tokens;
  if decide (length (tokens serialized_example) <= model_max_length self)%nat
  then Ok serialized_example
  else Raise AssertionError.

(** ** Numeric values *)

Inductive pyfloat :=
| FNaN
| FNegInf
| FFin (q : Qc)
| FPosInf.

(** [float(n)] for an [int]. *)
Definition float_of_Z (n : Z) : pyfloat := FFin (Q2Qc (inject_Z n)).

(** [a == b] and [a < b] on floats; both are false when NaN is involved. *)
Definition float_eqb (a b : pyfloat) : bool :=
  match a, b with
  | FNegInf, FNegInf => true
  | FFin p, FFin q => bool_decide (p = q)
  | FPosInf, FPosInf => true
  | _, _ => false
  end.

Definition float_ltb (a b : pyfloat) : bool :=
  match a, b with
  | FNaN, _ | _, FNaN => false
  | FNegInf, FNegInf => false
  | FNegInf, _ => true
  | FFin p, FFin q => bool_decide (p < q)%Qc
  | FFin _, FPosInf => true
  | _, _ => false
  end.

Inductive Relation :=
| HEADER_TO_CELL
| CELL_TO_HEADER
| QUERY_TO_HEADER
| QUERY_TO_CELL
| ROW_TO_CELL
| CELL_TO_ROW
| EQ
| LT
| GT.

Definition Relation_value (r : Relation) : Z :=
  match r with
  | HEADER_TO_CELL => 1
  | CELL_TO_HEADER => 2
  | QUERY_TO_HEADER => 3
  | QUERY_TO_CELL => 4
  | ROW_TO_CELL => 5
  | CELL_TO_ROW => 6
  | EQ => 7
  | LT => 8
  | GT => 9
  end.

#[global] Instance Relation_eq_dec : EqDecision Relation.
Proof. solve_decision. Defined.

Record Date := mkDate {
  year : option Z;
  month : option Z;
  day : option Z
}.

Record NumericValue := mkNumericValue {
  float_value : option pyfloat;
  date : option Date
}.

Record NumericValueSpan := mkNumericValueSpan {
  begin_index : nat;
  end_index : nat;
  values : list NumericValue
}.

(** The text-level parser the numeric features are built on. *)
Record TextParser := mkTextParser {
  normalize_for_match : string -> string;
  parse_text : string -> list NumericValueSpan
}.

Definition _get_numeric_value_from_float (value : pyfloat) : NumericValue :=
  mkNumericValue (Some value) None.

(** ** Sort-key unifier *)

Inductive ValueType := NUMBER_TYPE | DATE_TYPE.

#[global] Instance ValueType_eq_dec : EqDecision ValueType.
Proof. solve_decision. Defined.

(** A primitive value: a float, or a tuple of floats whose unset fields are
    [None]. *)
Inductive PrimitiveValue :=
| PFloat (f : pyfloat)
| PTuple (t : list (option pyfloat)).

Definition _DATE_TUPLE_SIZE : nat := 3.

Definition _get_value_type (numeric_value : NumericValue)
  : result ValueType :=
  match float_value numeric_value, date numeric_value with
  | Some _, _ => Ok NUMBER_TYPE
  | None, Some _ => Ok DATE_TYPE
  | None, None => Raise (ValueError "Unknown type")
  end.

Definition _get_value_as_primitive_value (numeric_value : NumericValue)
  : result PrimitiveValue :=
  match float_value numeric_value, date numeric_value with
  | Some f, _ => Ok (PFloat f)
  | None, Some d =>
      Ok (PTuple [float_of_Z <$> year d; float_of_Z <$> month d;
                  float_of_Z <$> day d])
  | None, None => Raise (ValueError "Unknown type")
  end.

(** A loop over [l] threading a state, stopped by the first exception. *)
Fixpoint foldM {A S} (f : S -> A -> result S) (s : S) (l : list A)
  : result S :=
  match l with
  | [] => Ok s
  | a :: l' => s' ← f s a; foldM f s' l'
  end.

(** [s.add(x)] on a set kept as a duplicate-free list. *)
Definition set_add `{EqDecision A} (x : A) (s : list A) : list A :=
  if decide (x ∈ s) then s else s ++ [x].

Definition _get_all_types (numeric_values : list NumericValue)
  : result (list ValueType) :=
  foldM (fun types value => t ← _get_value_type value; Ok (set_add t types))
    [] numeric_values.

(** [inner_value is None] at [tuple_index] of the tuple [t]. *)
Definition is_unset (t : list (option pyfloat)) (tuple_index : nat) : bool :=
  match t !! tuple_index with
  | Some None => true
  | _ => false
  end.

(** The loop of [get_numeric_sort_key_fn] that discards the tuple indexes
    holding [None] in some value. *)
Definition discard_unset (valid_indexes : list nat)
  (numeric_value : NumericValue) : result (list nat) :=
  value ← _get_value_as_primitive_value numeric_value;
  match value with
  | PFloat _ => Raise AssertionError
  | PTuple t =>
      Ok (filter (fun tuple_index => is_unset t tuple_index = false)
            valid_indexes)
  end.

Definition _sort_key_fn (valid_indexes : list nat)
  (numeric_value : NumericValue) : result PrimitiveValue :=
  value ← _get_value_as_primitive_value numeric_value;
  match value with
  | PFloat _ => Raise TypeError
  | PTuple t => items ← mapM (M := result) (getitem t) valid_indexes;
                Ok (PTuple items)
  end.

Definition get_numeric_sort_key_fn (numeric_values : list NumericValue)
  : result (NumericValue -> result PrimitiveValue) :=
  value_types ← _get_all_types numeric_values;
  match value_types with
  | [value_type] =>
      if decide (value_type = NUMBER_TYPE)
      then Ok _get_value_as_primitive_value
      else
        valid_indexes ←
          foldM discard_unset (seq 0 _DATE_TUPLE_SIZE) numeric_values;
        match valid_indexes with
        | [] => Raise (ValueError "No common value")
        | _ => Ok (_sort_key_fn valid_indexes)
        end
  | _ => Raise (ValueError "No common value type")
  end.

(** [==] on primitive values, and the boolean part of [<]. Tuples compare
    lexicographically, as Python tuples do. [==] never raises. [<] raises
    [TypeError] for a float against a tuple and for [None] against a float:
    that is [prim_lt] below, which [get_numeric_relation] uses. The boolean
    [prim_ltb] agrees with it wherever it returns (see [prim_lt_comparable]);
    it is the order under which [sorted] is run on the keys of one column,
    which all have one shape (see [sort_key_fn_shape]). *)
Definition opt_float_eqb (a b : option pyfloat) : bool :=
  match a, b with
  | Some x, Some y => float_eqb x y
  | None, None => true
  | _, _ => false
  end.

Definition opt_float_ltb (a b : option pyfloat) : bool :=
  match a, b with
  | Some x, Some y => float_ltb x y
  | _, _ => false
  end.

Fixpoint tuple_eqb (a b : list (option pyfloat)) : bool :=
  match a, b with
  | [], [] => true
  | x :: a', y :: b' => opt_float_eqb x y && tuple_eqb a' b'
  | _, _ => false
  end.

Fixpoint tuple_ltb (a b : list (option pyfloat)) : bool :=
  match a, b with
  | [], [] => false
  | [], _ :: _ => true
  | _ :: _, [] => false
  | x :: a', y :: b' =>
      if opt_float_eqb x y then tuple_ltb a' b' else opt_float_ltb x y
  end.

Definition prim_eqb (a b : PrimitiveValue) : bool :=
  match a, b with
  | PFloat x, PFloat y => float_eqb x y
  | PTuple x, PTuple y => tuple_eqb x y
  | _, _ => false
  end.

Definition prim_ltb (a b : PrimitiveValue) : bool :=
  match a, b with
  | PFloat x, PFloat y => float_ltb x y
  | PTuple x, PTuple y => tuple_ltb x y
  | _, _ => false
  end.

(** [a < b] as Python evaluates it. In a tuple the first pair of unequal
    elements decides, and comparing [None] with a float raises. *)
Definition opt_float_lt (a b : option pyfloat) : result bool :=
  match a, b with
  | Some x, Some y => Ok (float_ltb x y)
  | _, _ => Raise TypeError
  end.

Fixpoint tuple_lt (a b : list (option pyfloat)) : result bool :=
  match a, b with
  | [], [] => Ok false
  | [], _ :: _ => Ok true
  | _ :: _, [] => Ok false
  | x :: a', y :: b' =>
      if opt_float_eqb x y then tuple_lt a' b' else opt_float_lt x y
  end.

Definition prim_lt (a b : PrimitiveValue) : result bool :=
  match a, b with
  | PFloat x, PFloat y => Ok (float_ltb x y)
  | PTuple x, PTuple y => tuple_lt x y
  | _, _ => Raise TypeError
  end.

(** [value > other_value] is evaluated as [other_value < value]. *)
Definition get_numeric_relation (value other_value : NumericValue)
  (sort_key_fn : NumericValue -> result PrimitiveValue)
  : result (option Relation) :=
  value ← sort_key_fn value;
  other_value ← sort_key_fn other_value;
  if prim_eqb value other_value then Ok (Some EQ)
  else
    lt ← prim_lt value other_value;
    if (lt : bool) then Ok (Some LT)
    else
      gt ← prim_lt other_value value;
      if (gt : bool) then Ok (Some GT) else Ok None.

(** [sorted(l)]: a stable insertion sort by [<]. *)
Fixpoint insert_sorted {A} (ltb : A -> A -> bool) (x : A) (l : list A)
  : list A :=
  match l with
  | [] => [x]
  | y :: l' => if ltb y x then y :: insert_sorted ltb x l' else x :: l
  end.

Definition sorted {A} (ltb : A -> A -> bool) (l : list A) : list A :=
  foldr (insert_sorted ltb) [] l.

(** ** Numeric feature builder *)

Definition _get_numeric_values (P : TextParser) (text : string)
  : list NumericValue :=
  concat (values <$> parse_text P text).

Definition _parse_column_values (P : TextParser) (table : DataFrame)
  (col_index : nat) : list (nat * list NumericValue) :=
  (fun row_index : nat =>
     (row_index,
      _get_numeric_values P
        (normalize_for_match P (iloc table row_index col_index))))
    <$> seq 0 (num_data_rows table).

Definition add_numeric_values_to_question (P : TextParser)
  (question : string) : string * list NumericValueSpan :=
  let question := normalize_for_match P question in
  (question, parse_text P question).

Definition _get_column_values
  (table_numeric_values : list (nat * list NumericValue))
  : list (nat * NumericValue) :=
  omap (fun '(row_index, value) =>
          match value with
          | [] => None
          | v :: _ => Some (row_index, v)
          end) table_numeric_values.

(** The positions of the tokens of cell ([column_id], [row_id]). *)
Definition cell_token_indexes (column_ids row_ids : list Z)
  (column_id row_id : Z) : list nat :=
  filter (fun index =>
            (fun c => c - 1) <$> column_ids !! index = Some column_id
            /\ (fun r => r - 1) <$> row_ids !! index = Some row_id)
    (seq 0 (length column_ids)).

(** The generator [_get_cell_token_indexes], with the indexes collected:
    [row_ids[index]] is read only where the column matches, and raises
    [IndexError] when [row_ids] is too short there.  What a caller does with
    the indexes yielded before such an exception is lost with the call. *)
Definition cell_index_step (column_ids row_ids : list Z)
  (column_id row_id : Z) (indexes : list nat) (index : nat)
  : result (list nat) :=
  c ← getitem column_ids index;
  if decide (c - 1 = column_id) then
    r ← getitem row_ids index;
    if decide (r - 1 = row_id) then Ok (indexes ++ [index]) else Ok indexes
  else Ok indexes.

Definition _get_cell_token_indexes (column_ids row_ids : list Z)
  (column_id row_id : Z) : result (list nat) :=
  foldM (cell_index_step column_ids row_ids column_id row_id)
    [] (seq 0 (length column_ids)).

(** [l[i] = v] *)
Definition setitem {A} (l : list A) (i : nat) (v : A) : result (list A) :=
  if decide (i < length l)%nat then Ok (<[i := v]> l) else Raise IndexError.

(** [d[k]] on a dictionary kept as an association list. *)
Fixpoint dict_get {K V} (eqb : K -> K -> bool) (d : list (K * V)) (k : K)
  : result V :=
  match d with
  | [] => Raise KeyError
  | (k', v) :: d' => if eqb k' k then Ok v else dict_get eqb d' k
  end.

(** [d[k].append(x)] on a [defaultdict(list)]; with [add] for the update,
    [d[k].add(x)] on a [defaultdict(set)]. *)
Fixpoint dict_update {K V} (eqb : K -> K -> bool) (upd : list V -> list V)
  (d : list (K * list V)) (k : K) : list (K * list V) :=
  match d with
  | [] => [(k, upd [])]
  | (k', vs) :: d' =>
      if eqb k' k then (k', upd vs) :: d'
      else (k', vs) :: dict_update eqb upd d' k
  end.

(** The innermost loops of [_add_numeric_column_ranks]: every token of the
    cell ([col_index], [row_index]) receives the rank pair. *)
Definition write_cell {A} (column_ids row_ids : list Z)
  (col_index row_index : nat) (v : A) (l : list A) : result (list A) :=
  indexes ← _get_cell_token_indexes column_ids row_ids
              (Z.of_nat col_index) (Z.of_nat row_index);
  foldM (fun l index => setitem l index v) l indexes.

Definition group_by_value (table_numeric_values : list (nat * PrimitiveValue))
  : list (PrimitiveValue * list nat) :=
  foldl (fun inv '(row_index, value) =>
           dict_update prim_eqb (fun rows => rows ++ [row_index]) inv value)
    [] table_numeric_values.

Definition rank_column (column_ids row_ids : list Z) (col_index : nat)
  (table_numeric_values : list (nat * PrimitiveValue))
  (ranks inv_ranks : list Z) : result (list Z * list Z) :=
  let table_numeric_values_inv := group_by_value table_numeric_values in
  let unique_values := sorted prim_ltb (table_numeric_values_inv.*1) in
  foldM (fun '(ranks, inv_ranks) '(rank, value) =>
           row_indexes ← dict_get prim_eqb table_numeric_values_inv value;
           foldM (fun '(ranks, inv_ranks) row_index =>
                    ranks ← write_cell column_ids row_ids col_index row_index
                              (Z.of_nat rank + 1) ranks;
                    inv_ranks ← write_cell column_ids row_ids col_index
                                  row_index
                                  (Z.of_nat (length unique_values)
                                   - Z.of_nat rank) inv_ranks;
                    Ok (ranks, inv_ranks))
             (ranks, inv_ranks) row_indexes)
    (ranks, inv_ranks) (enumerate unique_values).

Definition rank_state : Type :=
  list Z * list Z * list (nat * list (nat * NumericValue)).

Definition _add_numeric_column_ranks (P : TextParser)
  (column_ids row_ids : list Z) (table : DataFrame) : result rank_state :=
  foldM (fun '(ranks, inv_ranks, columns_to_numeric_values) col_index =>
           let table_numeric_values :=
             _get_column_values (_parse_column_values P table col_index) in
           let columns_to_numeric_values :=
             columns_to_numeric_values ++ [(col_index, table_numeric_values)]
           in
           match table_numeric_values with
           | [] => Ok (ranks, inv_ranks, columns_to_numeric_values)
           | _ =>
               match get_numeric_sort_key_fn (table_numeric_values.*2) with
               | Raise (ValueError _) =>
                   Ok (ranks, inv_ranks, columns_to_numeric_values)
               | Raise e => Raise e
               | Ok key_fn =>
                   keys ← mapM (M := result)
                            (fun '(row_index, value) =>
                               k ← key_fn value; Ok (row_index, k))
                            table_numeric_values;
                   '(ranks, inv_ranks) ←
                     rank_column column_ids row_ids col_index keys
                       ranks inv_ranks;
                   Ok (ranks, inv_ranks, columns_to_numeric_values)
               end
           end)
    (replicate (length column_ids) 0, replicate (length column_ids) 0, [])
    (seq 0 (length (columns table))).

Definition _get_numeric_sort_key_fn
  (table_numeric_values : list (nat * NumericValue)) (value : NumericValue)
  : result (option (NumericValue -> result PrimitiveValue)) :=
  match table_numeric_values with
  | [] => Ok None
  | _ =>
      let all_values := table_numeric_values.*2 ++ [value] in
      match get_numeric_sort_key_fn all_values with
      | Ok fn => Ok (Some fn)
      | Raise (ValueError _) => Ok None
      | Raise e => Raise e
      end
  end.

Definition coords_eqb (a b : nat * nat) : bool :=
  bool_decide (a = b).

(** The first part of [_add_numeric_relations]: the set of relations every
    cell has with the numeric values of the question. *)
Definition collect_relations (P : TextParser) (question : string)
  (table : DataFrame)
  (columns_to_numeric_values : list (nat * list (nat * NumericValue)))
  : result (list (nat * nat * list Relation)) :=
  let '(_, numeric_spans) := add_numeric_values_to_question P question in
  foldM (fun rels numeric_value_span =>
    foldM (fun rels value =>
      foldM (fun rels column_index =>
        table_numeric_values ←
          dict_get Nat.eqb columns_to_numeric_values column_index;
        sort_key_fn ← _get_numeric_sort_key_fn table_numeric_values value;
        match sort_key_fn with
        | None => Ok rels
        | Some sort_key_fn =>
            foldM (fun rels '(row_index, cell_value) =>
                     relation ←
                       get_numeric_relation value cell_value sort_key_fn;
                     match relation with
                     | None => Ok rels
                     | Some relation =>
                         Ok (dict_update coords_eqb (set_add relation) rels
                               (column_index, row_index))
                     end)
              rels table_numeric_values
        end)
        rels (seq 0 (length (columns table))))
      rels (values numeric_value_span))
    [] numeric_spans.

(** The bitmask of a set of relations; the [assert] of the source guards the
    exponent. *)
Definition relation_set_index (relations : list Relation) : result Z :=
  foldM (fun acc relation =>
           if decide (Relation_value relation >= Relation_value EQ)
           then Ok (acc + 2 ^ (Relation_value relation - Relation_value EQ))
           else Raise AssertionError)
    0 relations.

Definition _add_numeric_relations (P : TextParser) (question : string)
  (column_ids row_ids : list Z) (table : DataFrame)
  (columns_to_numeric_values : list (nat * list (nat * NumericValue)))
  : result (list Z) :=
  cell_indices_to_relations ←
    collect_relations P question table columns_to_numeric_values;
  foldM (fun numeric_relations '(column_index, row_index, relations) =>
           index ← relation_set_index relations;
           write_cell column_ids row_ids column_index row_index index
             numeric_relations)
    (replicate (length column_ids) 0) cell_indices_to_relations.

Definition _add_numeric_values (self : TapasTokenizer) (table : DataFrame)
  (column_ids row_ids : list Z)
  (columns_to_numeric_values : list (nat * list (nat * NumericValue)))
  : result (list pyfloat) :=
  let '(num_rows, num_columns) := shape table in
  foldM (fun numeric_values col_index =>
    column_values ← dict_get Nat.eqb columns_to_numeric_values col_index;
    match column_values with
    | [] => Ok numeric_values
    | _ =>
        foldM (fun numeric_values row_index =>
          numeric_value ← dict_get Nat.eqb column_values row_index;
          match float_value numeric_value with
          | None => Ok numeric_values
          | Some float_value =>
              if float_eqb float_value FPosInf then Ok numeric_values
              else write_cell column_ids row_ids col_index row_index
                     float_value numeric_values
          end)
          numeric_values (seq 0 num_rows)
    end)
    (replicate (model_max_length self) FNaN) (seq 0 num_columns).

Definition _add_numeric_values_scale (self : TapasTokenizer)
  (table : DataFrame) (column_ids row_ids : list Z) : result (list pyfloat) :=
  let '(num_rows, num_columns) := shape table in
  foldM (fun numeric_values_scale col_index =>
    foldM (fun numeric_values_scale row_index =>
      indices ← _get_cell_token_indexes column_ids row_ids
                  (Z.of_nat col_index) (Z.of_nat row_index);
      let num_indices := length indices in
      if decide (1 < num_indices)%nat then
        foldM (fun scale index =>
                 setitem scale index (float_of_Z (Z.of_nat num_indices)))
          numeric_values_scale indices
      else Ok numeric_values_scale)
      numeric_values_scale (seq 0 num_rows))
    (replicate (model_max_length self) (float_of_Z 1)) (seq 0 num_columns).

(** Truncation by [pop] and padding by [append(0)], up to the model length. *)
Definition _pad_to_seq_length (self : TapasTokenizer) (inputs : list Z)
  : list Z :=
  take (model_max_length self) inputs
  ++ replicate (model_max_length self - length inputs) 0.

(** The feature dictionary, one field per key. [label_ids] is present for
    supervised examples only. *)
Record Features := mkFeatures {
  f_input_ids : list Z;
  f_attention_mask : list Z;
  f_column_ids : list Z;
  f_row_ids : list Z;
  f_segment_ids : list Z;
  f_column_ranks : list Z;
  f_inv_column_ranks : list Z;
  f_numeric_relations : list Z;
  f_numeric_values : list pyfloat;
  f_numeric_values_scale : list pyfloat;
  f_label_ids : option (list Z);
  f_prev_label_ids : option (list Z)
}.

Definition _to_features (self : TapasTokenizer) (P : TextParser)
  (tokens : list string) (column_ids row_ids segment_ids : list Z)
  (table : DataFrame) (question : string) : result Features :=
  let length_ := length tokens in
  if decide (length column_ids ≠ length_ \/ length row_ids ≠ length_
             \/ length segment_ids ≠ length_)
  then Raise (ValueError "Inconsistent length")
  else
    let input_ids := convert_tokens_to_ids self tokens in
    let attention_mask := replicate (length input_ids) 1 in
    let input_ids := _pad_to_seq_length self input_ids in
    let attention_mask := _pad_to_seq_length self attention_mask in
    let column_ids := _pad_to_seq_length self column_ids in
    let row_ids := _pad_to_seq_length self row_ids in
    let segment_ids := _pad_to_seq_length self segment_ids in
    '(ranks, inv_ranks, columns_to_numeric_values) ←
      _add_numeric_column_ranks P column_ids row_ids table;
    numeric_relations ←
      _add_numeric_relations P question column_ids row_ids table
        columns_to_numeric_values;
    numeric_values ←
      _add_numeric_values self table column_ids row_ids
        columns_to_numeric_values;
    numeric_values_scale ←
      _add_numeric_values_scale self table column_ids row_ids;
    Ok (mkFeatures input_ids attention_mask column_ids row_ids segment_ids
          ranks inv_ranks numeric_relations numeric_values
          numeric_values_scale None None).

Definition _to_trimmed_features (self : TapasTokenizer) (P : TextParser)
  (question : string) (table : DataFrame) (question_tokens : list string)
  (tokenized_table : TokenizedTable) (num_columns num_rows : nat)
  (drop_rows_to_fit : bool) : result (SerializedExample * Features) :=
  serialized_example ←
    fit_and_serialize self question_tokens tokenized_table num_columns
      num_rows drop_rows_to_fit;
  features ←
    _to_features self P (tokens serialized_example)
      (column_ids serialized_example) (row_ids serialized_example)
      (segment_ids serialized_example) table question;
  Ok (serialized_example, features).

(** ** Answer alignment, coordinate mode *)

Definition _get_all_answer_ids_from_coordinates (column_ids row_ids : list Z)
  (answers_list : list (Z * Z)) : result (list Z * nat) :=
  '(answer_ids, found_answers, all_answers) ←
    foldM (fun '(answer_ids, found_answers, all_answers)
             '(column_index, row_index) =>
             let all_answers := set_add (column_index, row_index) all_answers
             in
             indexes ← _get_cell_token_indexes column_ids row_ids
                         column_index row_index;
             foldM (fun '(answer_ids, found_answers, all_answers) index =>
                      answer_ids ← setitem answer_ids index 1;
                      Ok (answer_ids,
                          set_add (column_index, row_index) found_answers,
                          all_answers))
               (answer_ids, found_answers, all_answers) indexes)
      (replicate (length column_ids) 0, [], []) answers_list;
  Ok (answer_ids, (length all_answers - length found_answers)%nat).

(** The coordinates arrive as (row, column) and are swapped to
    (column, row). *)
Definition _get_all_answer_ids (column_ids row_ids : list Z)
  (answer_coordinates : list (Z * Z)) : result (list Z * nat) :=
  _get_all_answer_ids_from_coordinates column_ids row_ids
    ((fun coords : Z * Z => (coords.2, coords.1)) <$> answer_coordinates).

Definition _get_answer_ids (column_ids row_ids : list Z)
  (answer_coordinates : list (Z * Z)) : result (list Z) :=
  '(answer_ids, missing_count) ←
    _get_all_answer_ids column_ids row_ids answer_coordinates;
  if decide (missing_count ≠ 0%nat)
  then Raise (ValueError "Couldn't find all answers")
  else Ok answer_ids.

(** The two answer modes. Text-match mode
    ([_find_answer_ids_from_answer_texts]) is outside this development and
    is passed in as [find_answer_ids_from_answer_texts]. *)
Definition text_mode_fn : Type :=
  list Z -> list Z -> TokenizedTable -> list (list string) -> result (list Z).

Definition get_answer_ids (self : TapasTokenizer)
  (find_answer_ids_from_answer_texts : text_mode_fn)
  (column_ids row_ids : list Z) (tokenized_table : TokenizedTable)
  (answer_texts_question : list string)
  (answer_coordinates_question : list (Z * Z)) : result (list Z) :=
  if update_answer_coordinates self then
    find_answer_ids_from_answer_texts column_ids row_ids tokenized_table
      (tokenize self <$> answer_texts_question)
  else _get_answer_ids column_ids row_ids answer_coordinates_question.

(** ** Batch preparation: the features of every query *)

Definition with_labels (features : Features)
  (label_ids prev_label_ids : option (list Z)) : Features :=
  mkFeatures (f_input_ids features) (f_attention_mask features)
    (f_column_ids features) (f_row_ids features) (f_segment_ids features)
    (f_column_ranks features) (f_inv_column_ranks features)
    (f_numeric_relations features) (f_numeric_values features)
    (f_numeric_values_scale features) label_ids prev_label_ids.

Definition truthy {A} (o : option (list A)) : bool :=
  match o with
  | Some (_ :: _) => true
  | _ => false
  end.

(** The loop over the queries of [_batch_prepare_for_model]; the state is
    [features_examples] and [position_to_label_ids]. *)
Definition features_examples (self : TapasTokenizer) (P : TextParser)
  (find_answer_ids_from_answer_texts : text_mode_fn) (table : DataFrame)
  (queries : list string)
  (answer_coordinates : option (list (list (Z * Z))))
  (answer_texts : option (list (list string))) : result (list Features) :=
  if truthy answer_coordinates && negb (truthy answer_texts)
     || negb (truthy answer_coordinates) && truthy answer_texts
  then Raise (ValueError "In case you provide answers, both answer_coordinates and answer_text should be provided")
  else
    add_loss_variables ←
      match answer_coordinates, answer_texts with
      | Some acs, Some ats =>
          if decide (length acs = length ats /\ length ats = length queries)
          then Ok (Some (acs, ats))
          else Raise AssertionError
      | _, _ => Ok None
      end;
    let tokenized_table := _tokenize_table self table in
    num_rows ← _get_num_rows self table (drop_rows_to_fit self);
    num_columns ← _get_num_columns self table;
    '(examples, _) ←
      foldM (fun '(examples, position_to_label_ids) '(position, query) =>
        let text_tokens := tokenize self query in
        '(serialized_example, features) ←
          _to_trimmed_features self P query table text_tokens
            tokenized_table num_columns num_rows (drop_rows_to_fit self);
        match add_loss_variables with
        | Some (acs, ats) =>
            texts ← getitem ats position;
            coordinates ← getitem acs position;
            label_ids ←
              get_answer_ids self find_answer_ids_from_answer_texts
                (column_ids serialized_example)
                (row_ids serialized_example) tokenized_table texts
                coordinates;
            let label_ids := _pad_to_seq_length self label_ids in
            prev_label_ids ←
              match position with
              | O => Ok (replicate (length (f_input_ids features)) 0)
              | S p => getitem position_to_label_ids p
              end;
            let prev_label_ids := _pad_to_seq_length self prev_label_ids in
            Ok (examples
                  ++ [with_labels features (Some label_ids)
                        (Some prev_label_ids)],
                position_to_label_ids ++ [label_ids])
        | None =>
            let prev_label_ids :=
              _pad_to_seq_length self
                (replicate (length (f_input_ids features)) 0) in
            Ok (examples ++ [with_labels features None (Some prev_label_ids)],
                position_to_label_ids)
        end)
        ([], []) (enumerate queries);
    Ok examples.

(** ** Prediction decoder

    Probabilities are rationals and the tensor mean is the exact mean. The
    tensors [token_type_ids] (batch x sequence x 7), [attention_mask] and
    the token probabilities (batch x sequence) are rectangular; an example
    is the list of its token entries. *)

Record TokenTypeIds := mkTokenTypeIds {
  tt_segment_ids : Z;
  tt_column_ids : Z;
  tt_row_ids : Z;
  tt_prev_label_ids : Z;
  tt_column_ranks : Z;
  tt_inv_column_ranks : Z;
  tt_numeric_relations : Z
}.

Record TokenEntry := mkTokenEntry {
  te_probs : Q;           (* [dist_per_token.probs] *)
  te_attention_mask : Z;
  te_token_type_ids : TokenTypeIds
}.

Definition zcoords_eqb (a b : Z * Z) : bool := bool_decide (a = b).

Definition _get_cell_token_probs (probabilities : list Q)
  (segment_ids row_ids column_ids : list Z) : result (list (nat * Q)) :=
  foldM (fun acc '(i, p) =>
           segment_id ← getitem segment_ids i;
           column ← getitem column_ids i;
           row ← getitem row_ids i;
           let col := column - 1 in
           let row := row - 1 in
           if decide (col >= 0 /\ row >= 0 /\ segment_id = 1)
           then Ok (acc ++ [(i, p)])
           else Ok acc)
    [] (enumerate probabilities).

Definition Qsum (l : list Q) : Q := foldr Qplus 0%Q l.

(** [torch.as_tensor(cell_probs).mean()] *)
Definition Qmean (l : list Q) : Q :=
  (Qsum l / inject_Z (Z.of_nat (length l)))%Q.

Definition mean_probs (coords_to_probs : list (Z * Z * list Q))
  : list (Z * Z * Q) :=
  (fun '(coords, cell_probs) => (coords, Qmean cell_probs))
    <$> coords_to_probs.

Definition _get_mean_cell_probs (probabilities : list Q)
  (segment_ids row_ids column_ids : list Z) : result (list (Z * Z * Q)) :=
  cell_token_probs ←
    _get_cell_token_probs probabilities segment_ids row_ids column_ids;
  coords_to_probs ←
    foldM (fun (coords_to_probs : list (Z * Z * list Q))
               '((i, prob) : nat * Q) =>
             column ← getitem column_ids i;
             row ← getitem row_ids i;
             let col := column - 1 in
             let row := row - 1 in
             Ok (dict_update zcoords_eqb (fun probs => probs ++ [prob])
                   coords_to_probs (col, row)))
      [] cell_token_probs;
  Ok (mean_probs coords_to_probs).

(** [d.get(k, None)] *)
Definition dict_get_opt {K V} (eqb : K -> K -> bool) (d : list (K * V))
  (k : K) : option V :=
  match dict_get eqb d k with
  | Ok v => Some v
  | Raise _ => None
  end.

(** [t.max()] of a one-dimensional tensor. *)
Definition tensor_max (l : list Z) : result Z :=
  match l with
  | [] => Raise RuntimeError
  | x :: l' => Ok (foldl Z.max x l')
  end.

Definition coords_ltb (a b : nat * nat) : bool :=
  bool_decide (a.1 < b.1 \/ a.1 = b.1 /\ a.2 < b.2)%nat.

(** The body of the loop over the batch: [None] where the source
    [continue]s, leaving no entry for the example. *)
Definition decode_example (example : list TokenEntry)
  (cell_classification_threshold : Q) : result (option (list (nat * nat))) :=
  let probabilities_example :=
    (fun e => (te_probs e * inject_Z (te_attention_mask e))%Q) <$> example in
  let segment_ids_example :=
    (fun e => tt_segment_ids (te_token_type_ids e)) <$> example in
  let row_ids_example :=
    (fun e => tt_row_ids (te_token_type_ids e)) <$> example in
  let column_ids_example :=
    (fun e => tt_column_ids (te_token_type_ids e)) <$> example in
  max_width ← tensor_max column_ids_example;
  max_height ← tensor_max row_ids_example;
  if decide (max_width = 0 /\ max_height = 0) then Ok None
  else
    cell_coords_to_prob ←
      _get_mean_cell_probs probabilities_example segment_ids_example
        row_ids_example column_ids_example;
    let answer_coordinates :=
      col ← seq 0 (Z.to_nat max_width);
      row ← seq 0 (Z.to_nat max_height);
      match dict_get_opt zcoords_eqb cell_coords_to_prob
              (Z.of_nat col, Z.of_nat row) with
      | Some cell_prob =>
          if Qlt_le_dec cell_classification_threshold cell_prob
          then [(row, col)] else []
      | None => []
      end in
    Ok (Some (sorted coords_ltb answer_coordinates)).

Definition convert_logits_to_predictions (data : list (list TokenEntry))
  (cell_classification_threshold : Q) : result (list (list (nat * nat))) :=
  foldM (fun answer_coordinates_batch example =>
           r ← decode_example example cell_classification_threshold;
           match r with
           | None => Ok answer_coordinates_batch
           | Some answer_coordinates =>
               Ok (answer_coordinates_batch ++ [answer_coordinates])
           end)
    [] data.

(** ** Concrete collaborators for the examples

    A whitespace tokenizer (a text such as ["al ##ice"] yields the word
    pieces [al] and [##ice]) and a parser that reads a cell made of decimal
    digits as one number. *)

Fixpoint split_words (cur : string) (s : string) : list string :=
  match s with
  | EmptyString => if decide (cur = "") then [] else [cur]
  | String c s' =>
      if decide (c = " "%char) then
        if decide (cur = "") then split_words "" s'
        else cur :: split_words "" s'
      else split_words (cur +:+ String c "") s'
  end.

Definition whitespace_tokenize (text : string) : list string :=
  split_words "" text.

Fixpoint digits_value (acc : Z) (s : string) : option Z :=
  match s with
  | EmptyString => Some acc
  | String c s' =>
      let n := Z.of_nat (Ascii.nat_of_ascii c) in
      if decide (48 <= n <= 57) then digits_value (10 * acc + (n - 48)) s'
      else None
  end.

Definition digits_parser : TextParser :=
  mkTextParser (fun text => text)
    (fun text =>
       match text with
       | EmptyString => []
       | _ =>
           match digits_value 0 text with
           | Some n =>
               [mkNumericValueSpan 0 (String.length text)
                  [_get_numeric_value_from_float (float_of_Z n)]]
           | None => []
           end
       end).

Definition toy_tokenizer (max_length : nat) (trim : Z) (strip drop : bool)
  : TapasTokenizer :=
  mkTapasTokenizer max_length trim max_length max_length strip false drop
    "[CLS]" "[SEP]" whitespace_tokenize
    (fun toks => (fun t => Z.of_nat (String.length t)) <$> toks).

(** [self] with another [model_max_length]. *)
Definition with_model_max_length (self : TapasTokenizer) (n : nat)
  : TapasTokenizer :=
  mkTapasTokenizer n (cell_trim_length self) (max_column_id self)
    (max_row_id self) (strip_column_names self)
    (update_answer_coordinates self) (drop_rows_to_fit self)
    (cls_token self) (sep_token self) (tokenize self)
    (convert_tokens_to_ids self).

(** ** The serialized table content, stated over the rows

    [word_start cell t] is the index of the piece that begins the word the
    piece at [t] belongs to ([-1] when every piece up to [t] is an inner
    piece). [expected_table_values] lists, row by row and cell by cell, the
    pieces of the rows [0..num_rows] (row [0] is the header) and of the
    first [num_columns] columns whose word begins before [num_tokens]. *)
Fixpoint word_start (cell : list string) (t : nat) : Z :=
  match cell !! t with
  | Some tok =>
      if _is_inner_wordpiece tok then
        match t with
        | O => -1
        | S t' => word_start cell t'
        end
      else Z.of_nat t
  | None => Z.of_nat t
  end.

Definition expected_cell_values (num_tokens : nat) (r c : nat)
  (cell : list string) : list TableValue :=
  '(t, tok) ← enumerate cell;
  if decide (word_start cell t < Z.of_nat num_tokens)
  then [mkTableValue tok (Z.of_nat c + 1) (Z.of_nat r)] else [].

Definition expected_row_values (num_columns num_tokens : nat) (r : nat)
  (row : list (list string)) : list TableValue :=
  '(c, cell) ← enumerate row;
  if decide (c < num_columns)%nat
  then expected_cell_values num_tokens r c cell else [].

Definition expected_table_values (tokenized_rows : list (list (list string)))
  (num_columns num_rows num_tokens : nat) : list TableValue :=
  '(r, row) ← enumerate tokenized_rows;
  if decide (r <= num_rows)%nat
  then expected_row_values num_columns num_tokens r row else [].

(** The cost of a tokenized table: the number of expected values. *)
Definition table_cost (tokenized_rows : list (list (list string)))
  (nc nr nt : nat) : Z :=
  Z.of_nat (length (expected_table_values tokenized_rows nc nr nt)).

(** Position [i] holds a token of the cell ([c], [r]). *)
Definition is_cell_token (column_ids row_ids : list Z) (c r : Z) (i : nat)
  : Prop :=
  column_ids !! i = Some (c + 1) /\ row_ids !! i = Some (r + 1).

(** Position [i] holds a token of the cell named by the answer [a], a
    (column, row) pair. *)
Definition cell_token (column_ids row_ids : list Z) (a : Z * Z) (i : nat)
  : Prop :=
  is_cell_token column_ids row_ids a.1 a.2 i.

(** The state of the loop of [_get_all_answer_ids_from_coordinates] after
    the answers [done]. *)
Definition answers_inv (column_ids row_ids : list Z) (done : list (Z * Z))
  (s : list Z * list (Z * Z) * list (Z * Z)) : Prop :=
  let '(answer_ids, found, all_answers) := s in
  length answer_ids = length column_ids
  /\ (forall a j, a ∈ done -> cell_token column_ids row_ids a j ->
                  answer_ids !! j = Some 1)
  /\ (forall j, (j < length column_ids)%nat ->
                (forall a, a ∈ done -> ~ cell_token column_ids row_ids a j) ->
                answer_ids !! j = Some 0)
  /\ NoDup all_answers /\ (forall a, a ∈ all_answers <-> a ∈ done)
  /\ NoDup found
  /\ (forall a, a ∈ found
                <-> a ∈ done /\ exists j, cell_token column_ids row_ids a j).

(** ** The sort key, stated over the date fields *)

(** A value holding the date [d], and one holding the number [f]. *)
Definition date_value (d : Date) : NumericValue := mkNumericValue None (Some d).

Definition date_field (d : Date) (i : nat) : option Z :=
  match i with
  | 0%nat => year d
  | 1%nat => month d
  | 2%nat => day d
  | _ => None
  end.

(** The indexes, in the order (year, month, day), of the fields set in
    every one of [dates]. *)
Definition common_fields (dates : list Date) : list nat :=
  filter (fun i => Forall (fun d => is_Some (date_field d i)) dates)
    [0; 1; 2]%nat.

(** Position [j] holds no token of a data cell. *)
Definition outside_cells (column_ids row_ids : list Z) (j : nat) : Prop :=
  forall c r : nat,
    ~ is_cell_token column_ids row_ids (Z.of_nat c) (Z.of_nat r) j.

(** [l] has the length of [l0] and agrees with it outside the data cells. *)
Definition same_outside_cells {A} (column_ids row_ids : list Z)
  (l0 l : list A) : Prop :=
  length l = length l0
  /\ forall j, outside_cells column_ids row_ids j -> l !! j = l0 !! j.

(** Every sequence of the feature bundle has length [n]. *)
Definition features_have_length (n : nat) (f : Features) : Prop :=
  length (f_input_ids f) = n /\ length (f_attention_mask f) = n
  /\ length (f_segment_ids f) = n /\ length (f_column_ids f) = n
  /\ length (f_row_ids f) = n
  /\ length (f_column_ranks f) = n /\ length (f_inv_column_ranks f) = n
  /\ length (f_numeric_relations f) = n
  /\ length (f_numeric_values f) = n
  /\ length (f_numeric_values_scale f) = n
  /\ (forall l, f_label_ids f = Some l -> length l = n)
  /\ (forall l, f_prev_label_ids f = Some l -> length l = n).

(** Position [j] of the bundle holds the pad values. *)
Definition padded_at (j : nat) (f : Features) : Prop :=
  f_input_ids f !! j = Some 0 /\ f_attention_mask f !! j = Some 0
  /\ f_segment_ids f !! j = Some 0 /\ f_column_ids f !! j = Some 0
  /\ f_row_ids f !! j = Some 0
  /\ f_column_ranks f !! j = Some 0 /\ f_inv_column_ranks f !! j = Some 0
  /\ f_numeric_relations f !! j = Some 0
  /\ f_numeric_values f !! j = Some FNaN
  /\ f_numeric_values_scale f !! j = Some (float_of_Z 1).

(** ** The decoder, stated over the token entries *)

(** The probability the decoder works with: the token probability under
    the attention mask. *)
Definition entry_probability (e : TokenEntry) : Q :=
  (te_probs e * inject_Z (te_attention_mask e))%Q.

(** The cell coordinates (column, row) of an entry: its ids minus one. *)
Definition entry_coords (e : TokenEntry) : Z * Z :=
  (tt_column_ids (te_token_type_ids e) - 1,
   tt_row_ids (te_token_type_ids e) - 1).

(** A token of the table content that lies in a data cell. *)
Definition table_entry (e : TokenEntry) : Prop :=
  (entry_coords e).1 >= 0 /\ (entry_coords e).2 >= 0
  /\ tt_segment_ids (te_token_type_ids e) = 1.

(** The probabilities of the tokens of the cell at the coordinates [k], in
    sequence order. *)
Definition cell_probabilities (example : list TokenEntry) (k : Z * Z)
  : list Q :=
  entry_probability
    <$> filter (fun e => entry_coords e = k) (filter table_entry example).

(** The per-token sequences of an example, as the decoder slices them out
    of the tensors. *)
Definition example_probabilities (example : list TokenEntry) : list Q :=
  entry_probability <$> example.
Definition example_segment_ids (example : list TokenEntry) : list Z :=
  (fun e => tt_segment_ids (te_token_type_ids e)) <$> example.
Definition example_row_ids (example : list TokenEntry) : list Z :=
  (fun e => tt_row_ids (te_token_type_ids e)) <$> example.
Definition example_column_ids (example : list TokenEntry) : list Z :=
  (fun e => tt_column_ids (te_token_type_ids e)) <$> example.

(** The dictionary [coords_to_probs] built from the table entries. *)
Definition group_cell_probs (d : list (Z * Z * list Q))
  (entries : list TokenEntry) : list (Z * Z * list Q) :=
  foldl (fun d e =>
           dict_update zcoords_eqb
             (fun probs => probs ++ [entry_probability e]) d
             (entry_coords e))
    d entries.

(** The premise of the round trip for one example and a set [X] of
    (row, column) cells: the example has a table token, every cell of [X]
    has at least one token of table content, and a token of table content
    has a probability above the threshold exactly when its cell is in
    [X]. *)
Definition decodable (example : list TokenEntry) (X : list (nat * nat))
  (threshold : Q) : Prop :=
  (exists e, e ∈ example
             /\ (0 < tt_column_ids (te_token_type_ids e)
                 \/ 0 < tt_row_ids (te_token_type_ids e)))
  /\ (forall rc, rc ∈ X ->
                 exists e, e ∈ example /\ table_entry e
                           /\ entry_coords e
                              = (Z.of_nat rc.2, Z.of_nat rc.1))
  /\ (forall e r c,
        e ∈ example -> table_entry e ->
        entry_coords e = (Z.of_nat c, Z.of_nat r) ->
        if decide ((r, c) ∈ X)
        then (threshold < entry_probability e)%Q
        else (entry_probability e <= threshold)%Q).

(** The answer of the decoder for the set [X]: strictly ascending by
    (row, column) and with the elements of [X]. *)
Definition sorted_cells_of (l X : list (nat * nat)) : Prop :=
  StronglySorted (fun a b => coords_ltb a b = true) l
  /\ forall rc, rc ∈ l <-> rc ∈ X.

(** The cells the decoder selects from the per-cell probabilities, in the
    order of its two loops (columns outside, rows inside). *)
Definition selected_cells (cell_coords_to_prob : list (Z * Z * Q))
  (max_width max_height : Z) (threshold : Q) : list (nat * nat) :=
  col ← seq 0 (Z.to_nat max_width);
  row ← seq 0 (Z.to_nat max_height);
  match dict_get_opt zcoords_eqb cell_coords_to_prob
          (Z.of_nat col, Z.of_nat row) with
  | Some cell_prob =>
      if Qlt_le_dec threshold cell_prob then [(row, col)] else []
  | None => []
  end.

(** ** The relations of a cell, stated over the parsed values *)

(** The numeric values of a column: for every row with at least one parsed
    value, the first one. *)
Definition column_values (P : TextParser) (table : DataFrame) (c : nat)
  : list (nat * NumericValue) :=
  _get_column_values (_parse_column_values P table c).

(** The dictionary [columns_to_numeric_values] of a table. *)
Definition columns_to_numeric_values_of (P : TextParser) (table : DataFrame)
  : list (nat * list (nat * NumericValue)) :=
  (fun c => (c, column_values P table c)) <$> seq 0 (length (columns table)).

(** The relation [rel] holds between the question value [value] and the
    cell at row [r] of a column with the values [tnv], under the sort key
    built from the value and the column. *)
Definition value_relation (tnv : list (nat * NumericValue))
  (value : NumericValue) (r : nat) (rel : Relation) : Prop :=
  exists sort_key_fn cell_value,
    _get_numeric_sort_key_fn tnv value = Ok (Some sort_key_fn)
    /\ (r, cell_value) ∈ tnv
    /\ get_numeric_relation value cell_value sort_key_fn = Ok (Some rel).

(** The cell ([c], [r]) has the relation [rel] with some numeric value of
    the question. *)
Definition cell_relation (P : TextParser) (question : string)
  (table : DataFrame) (c r : nat) (rel : Relation) : Prop :=
  (c < length (columns table))%nat
  /\ exists span value,
       span ∈ (add_numeric_values_to_question P question).2
       /\ value ∈ values span
       /\ value_relation (column_values P table c) value r rel.

(** The sum of [2 ^ (ordinal - EQ ordinal)] over a set of relations. *)
Definition relation_sum (relations : list Relation) : Z :=
  foldr (fun rel acc => 2 ^ (Relation_value rel - Relation_value EQ) + acc)
    0 relations.

(** The set of relations recorded for the cell [k], empty when there is no
    entry. *)
Definition rels_lookup (rels : list (nat * nat * list Relation))
  (k : nat * nat) : list Relation :=
  default [] (dict_get_opt coords_eqb rels k).

(** A well-formed dictionary of relation sets: no key twice, and every set
    free of duplicates. *)
Definition rels_wf (rels : list (nat * nat * list Relation)) : Prop :=
  NoDup rels.*1 /\ forall k, NoDup (rels_lookup rels k).

#[global] Instance pyfloat_eq_dec : EqDecision pyfloat.
Proof. solve_decision. Defined.

#[global] Instance PrimitiveValue_eq_dec : EqDecision PrimitiveValue.
Proof. solve_decision. Defined.

(** A sort key free of NaN of the shape [sh]: a float ([None]) or a tuple of
    [n] floats, none of them unset ([Some n]). *)
Definition well_keyed (sh : option nat) (k : PrimitiveValue) : Prop :=
  match sh, k with
  | None, PFloat f => f <> FNaN
  | Some n, PTuple t =>
      length t = n /\ Forall (fun x => exists f, x = Some f /\ f <> FNaN) t
  | _, _ => False
  end.

(** Two keys Python can order: two floats, or two tuples with no field
    unset. *)
Definition comparable (a b : PrimitiveValue) : Prop :=
  match a, b with
  | PFloat _, PFloat _ => True
  | PTuple x, PTuple y => Forall is_Some x /\ Forall is_Some y
  | _, _ => False
  end.

(** [unique_values] of [_add_numeric_column_ranks]: the distinct keys of a
    column in increasing order. *)
Definition unique_values_of (keys : list (nat * PrimitiveValue))
  : list PrimitiveValue :=
  sorted prim_ltb (group_by_value keys).*1.

(** The number of entries of [l] strictly below [k]. *)
Definition count_below (l : list PrimitiveValue) (k : PrimitiveValue) : nat :=
  length (filter (fun k' => prim_ltb k' k = true) l).

(** The distinct sort keys of the numeric cells of a column. *)
Definition distinct_keys (key_fn : NumericValue -> result PrimitiveValue)
  (table_numeric_values : list (nat * NumericValue))
  : list PrimitiveValue :=
  remove_dups
    (omap (fun '(_, value) =>
             match key_fn value with
             | Ok k => Some k
             | Raise _ => None
             end) table_numeric_values).

(** The number of distinct sort keys of the column strictly below [k]. *)
Definition smaller_keys (key_fn : NumericValue -> result PrimitiveValue)
  (table_numeric_values : list (nat * NumericValue)) (k : PrimitiveValue)
  : nat :=
  count_below (distinct_keys key_fn table_numeric_values) k.

(** What [_add_numeric_column_ranks] leaves on the tokens of column [c]:
    for a column with a sort key, rank and inverse rank of the key of every
    numeric cell; rank 0 on every token for a column without one. *)
Definition column_ranked (P : TextParser) (column_ids row_ids : list Z)
  (table : DataFrame) (c : nat) (ranks inv_ranks : list Z) : Prop :=
  (forall key_fn,
     get_numeric_sort_key_fn (column_values P table c).*2 = Ok key_fn ->
     (forall r v, (r, v) ∈ column_values P table c ->
                  float_value v <> Some FNaN) ->
     forall r v k j,
       (r, v) ∈ column_values P table c -> key_fn v = Ok k ->
       is_cell_token column_ids row_ids (Z.of_nat c) (Z.of_nat r) j ->
       ranks !! j
       = Some (Z.of_nat (smaller_keys key_fn (column_values P table c) k)
               + 1)
       /\ inv_ranks !! j
          = Some (Z.of_nat (length (distinct_keys key_fn
                                      (column_values P table c)))
                  - Z.of_nat (smaller_keys key_fn
                                (column_values P table c) k)))
  /\ (forall msg,
        get_numeric_sort_key_fn (column_values P table c).*2
        = Raise (ValueError msg) ->
        forall j, column_ids !! j = Some (Z.of_nat c + 1) ->
                  ranks !! j = Some 0 /\ inv_ranks !! j = Some 0).

(** The example carries no table token: its largest column id and its
    largest row id are both 0. *)
Definition without_table_tokens (example : list TokenEntry) : bool :=
  match tensor_max (example_column_ids example),
        tensor_max (example_row_ids example) with
  | Ok max_width, Ok max_height =>
      bool_decide (max_width = 0 /\ max_height = 0)
  | _, _ => false
  end.

(** The state of a loop that writes per-cell values: among the cells of
    [S], every cell with a value [w c r] holds it on all its tokens, and a
    position at which no such cell has a token is as in [l0]. *)
Definition cells_written {A} (column_ids row_ids : list Z)
  (w : nat -> nat -> option A) (l0 : list A) (S : nat -> nat -> Prop)
  (l : list A) : Prop :=
  length l = length column_ids
  /\ forall j,
       (forall c r x,
          S c r -> w c r = Some x ->
          is_cell_token column_ids row_ids (Z.of_nat c) (Z.of_nat r) j ->
          l !! j = Some x)
       /\ ((forall c r x,
              S c r -> w c r = Some x ->
              ~ is_cell_token column_ids row_ids (Z.of_nat c) (Z.of_nat r) j)
           -> l !! j = l0 !! j).

(** The float [_add_numeric_values] writes for the cell ([c], [r]): the
    float of the cell's numeric value unless it is infinite. *)
Definition numeric_cell_value (P : TextParser) (table : DataFrame)
  (c r : nat) : option pyfloat :=
  match dict_get_opt Nat.eqb (column_values P table c) r with
  | Some numeric_value =>
      match float_value numeric_value with
      | Some float_value =>
          if float_eqb float_value FPosInf then None else Some float_value
      | None => None
      end
  | None => None
  end.

(** The scale [_add_numeric_values_scale] writes for the cell ([c], [r]):
    its number of tokens when there is more than one. *)
Definition scale_cell_value (column_ids row_ids : list Z) (c r : nat)
  : option pyfloat :=
  let num_indices :=
    length (cell_token_indexes column_ids row_ids (Z.of_nat c) (Z.of_nat r))
  in
  if decide (1 < num_indices)%nat
  then Some (float_of_Z (Z.of_nat num_indices)) else None.

(** ** Token type ids of the single-example path

    The field [i] of every table value, taken from the transposed list of
    table values with a subscript, which fails when there is no table
    value. *)
Definition zip_field {A} (field : TableValue -> A)
  (table_values : list TableValue) : result (list A) :=
  match table_values with
  | [] => Raise IndexError
  | _ => Ok (field <$> table_values)
  end.

Definition create_attention_mask_from_sequences (query_ids : list Z)
  (table_values : list TableValue) : result (list Z) :=
  table_ids ← zip_field token table_values;
  Ok (replicate (1 + length query_ids + 1) 1
      ++ replicate (length table_ids) 0).

Definition create_segment_token_type_ids_from_sequences (query_ids : list Z)
  (table_values : list TableValue) : result (list Z) :=
  table_ids ← zip_field token table_values;
  Ok (replicate (1 + length query_ids + 1) 0
      ++ replicate (length table_ids) 1).

Definition create_column_token_type_ids_from_sequences (query_ids : list Z)
  (table_values : list TableValue) : result (list Z) :=
  table_column_ids ← zip_field column_id table_values;
  Ok (replicate (1 + length query_ids + 1) 0 ++ table_column_ids).

Definition create_row_token_type_ids_from_sequences (query_ids : list Z)
  (table_values : list TableValue) : result (list Z) :=
  table_row_ids ← zip_field row_id table_values;
  Ok (replicate (1 + length query_ids + 1) 0 ++ table_row_ids).

Definition create_label_ids_from_sequences_and_answers (query_ids : list Z)
  (table_values : list TableValue) : result (list Z) :=
  table_row_ids ← zip_field row_id table_values;
  Ok (replicate (1 + length query_ids + 1) 0 ++ table_row_ids).

(** ** Answer alignment, text mode

    [logging] is bound in this file to the logging utilities of the library
    ([from .utils import logging]), a module without a function [info]:
    the call [logging.info(...)] raises [AttributeError]. *)
Definition logging_info : result unit := Raise AttributeError.

(** The tokens of the cells and of the answer texts are the strings
    [tokenize] returns, and a string has no attribute [piece]: reading it
    raises [AttributeError]. *)
Definition piece (tok : string) : result string := Raise AttributeError.

(** The inner loop of [_find_tokens] with its [break]: [true] when the loop
    ends without [break], so that the [else] branch returns the index. *)
Fixpoint segment_matches (text : list string) (index : nat)
  (segment : list string) (seg_index : nat) : result bool :=
  match segment with
  | [] => Ok true
  | seg_token :: segment' =>
      tok ← getitem text (index + seg_index);
      a ← piece tok;
      b ← piece seg_token;
      if decide (a <> b) then Ok false
      else segment_matches text index segment' (S seg_index)
  end.

Fixpoint find_tokens_from (text segment : list string) (indexes : list nat)
  : result (option nat) :=
  match indexes with
  | [] => Ok None
  | index :: indexes' =>
      m ← segment_matches text index segment 0;
      match m with
      | true => Ok (Some index)
      | false => find_tokens_from text segment indexes'
      end
  end.

Definition _find_tokens (text segment : list string) : result (option nat) :=
  _ ← logging_info;
  find_tokens_from text segment (seq 0 (1 + length text - length segment)).

(** The cells [_find_answer_coordinates_from_answer_text] visits, in order:
    every cell of every row but the header. *)
Definition data_cells (tokenized_table : TokenizedTable)
  : list (nat * nat * list string) :=
  '(row_index, row) ← enumerate (rows tokenized_table);
  if decide (row_index = 0%nat) then []
  else '(col_index, cell) ← enumerate row; [(row_index, col_index, cell)].

(** The loop of [_find_answer_ids_from_answer_texts] over the coordinates
    the generator [_find_answer_coordinates_from_answer_text] yields for one
    answer text, once the generator has started; the generator is advanced
    cell by cell and abandoned at the [break]. *)
Fixpoint mark_first_match (column_ids row_ids : list Z)
  (answer_text : list string) (cells : list (nat * nat * list string))
  (answer_ids : list Z) : result (list Z) :=
  match cells with
  | [] => Ok answer_ids
  | (row_index, col_index, cell) :: cells' =>
      token_index ← _find_tokens cell answer_text;
      match token_index with
      | None =>
          mark_first_match column_ids row_ids answer_text cells' answer_ids
      | Some token_index =>
          indexes ← _get_cell_token_indexes column_ids row_ids
                      (Z.of_nat col_index) (Z.of_nat row_index - 1);
          let indexes := sorted Nat.ltb indexes in
          let coordinate_answer_ids :=
            match indexes with
            | [] => []
            | first :: _ =>
                let begin_index := (token_index + first)%nat in
                let end_index := (begin_index + length answer_text)%nat in
                filter (fun index => (begin_index <= index)%nat
                                     /\ (index < end_index)%nat) indexes
            end in
          if decide (length coordinate_answer_ids = length answer_text)
          then foldM (fun answer_ids index => setitem answer_ids index 1)
                 answer_ids coordinate_answer_ids
          else mark_first_match column_ids row_ids answer_text cells'
                 answer_ids
      end
  end.

Definition _find_answer_ids_from_answer_texts : text_mode_fn :=
  fun column_ids row_ids tokenized_table answer_texts =>
    foldM (fun answer_ids answer_text =>
             (* the generator starts with its call of [logging.info] *)
             _ ← logging_info;
             mark_first_match column_ids row_ids answer_text
               (data_cells tokenized_table) answer_ids)
      (replicate (length column_ids) 0) answer_texts.

(** ** Basic tokenizer: splitting on punctuation

    A text is the list of its characters; [_is_punctuation] comes from the
    tokenization utilities and is passed in. *)

(** [output[-1].append(char)] *)
Fixpoint append_to_last {C} (output : list (list C)) (char : C)
  : result (list (list C)) :=
  match output with
  | [] => Raise IndexError
  | [x] => Ok [x ++ [char]]
  | x :: output' =>
      output' ← append_to_last output' char; Ok (x :: output')
  end.

Definition _run_split_on_punc {C} `{EqDecision C}
  (_is_punctuation : C -> bool) (text : list C)
  (never_split : option (list (list C))) : result (list (list C)) :=
  if match never_split with
     | Some never_split => bool_decide (text ∈ never_split)
     | None => false
     end
  then Ok [text]
  else
    '(output, _) ←
      foldM (fun '(output, start_new_word) char =>
               if _is_punctuation char : bool
               then Ok (output ++ [[char]], true)
               else
                 let output :=
                   if start_new_word : bool then output ++ [[]] else output
                 in
                 output ← append_to_last output char;
                 Ok (output, false))
        ([], true) text;
    Ok output.

(** A piece made of one punctuation character, and a piece that is a
    non-empty run of other characters. *)
Definition punct_piece {C} (_is_punctuation : C -> bool) (p : list C)
  : Prop :=
  exists c, p = [c] /\ _is_punctuation c = true.

Definition word_piece {C} (_is_punctuation : C -> bool) (p : list C)
  : Prop :=
  p <> [] /\ Forall (fun c => _is_punctuation c = false) p.

(** The pieces of a split on punctuation: punctuation characters alone,
    and maximal runs of the other characters. *)
Definition split_on_punc {C} (_is_punctuation : C -> bool)
  (pieces : list (list C)) : Prop :=
  Forall (fun p => punct_piece _is_punctuation p
                   \/ word_piece _is_punctuation p) pieces
  /\ forall i p q,
       pieces !! i = Some p -> pieces !! S i = Some q ->
       ~ (word_piece _is_punctuation p /\ word_piece _is_punctuation q).

(** The bundle of one query: where its padding starts, and what it holds
    from there on. *)
Definition padded_from (self : TapasTokenizer) (n : nat) (f : Features)
  : Prop :=
  (n <= model_max_length self)%nat
  /\ f_attention_mask f
     = replicate n 1 ++ replicate (model_max_length self - n) 0
  /\ forall j,
       (n <= j < model_max_length self)%nat ->
       padded_at j f
       /\ forall l, f_label_ids f = Some l -> l !! j = Some 0.

(** * Properties *)

(** ** The result monad and loops *)

Lemma bind_Ok {A B} (m : result A) (k : A -> result B) b :
  m ≫= k = Ok b <-> exists a, m = Ok a /\ k a = Ok b.
Proof.
  destruct m as [a|e]; cbn; split.
  - eauto.
  - by intros (a' & [= <-] & ?).
  - done.
  - by intros (a' & ? & ?).
Qed.

Lemma foldM_app {A S} (f : S -> A -> result S) s l1 l2 :
  foldM f s (l1 ++ l2) = foldM f s l1 ≫= fun s' => foldM f s' l2.
Proof.
  revert s; induction l1 as [|a l1 IH]; intros s; cbn; [done|].
  destruct (f s a) as [s'|e]; cbn; [apply IH|done].
Qed.

(** A loop whose body cannot fail and keeps an invariant. *)
Lemma foldM_inv {A S} (I : S -> Prop) (f : S -> A -> result S) l s :
  I s ->
  (forall s a, a ∈ l -> I s -> exists s', f s a = Ok s' /\ I s') ->
  exists s', foldM f s l = Ok s' /\ I s'.
Proof.
  revert s; induction l as [|a l IH]; intros s Hs Hf; cbn; [eauto|].
  destruct (Hf s a) as (s' & -> & Hs'); [left|done|]. cbn.
  apply IH; [done|]. intros s0 a0 Ha0. apply Hf. by right.
Qed.

(** A loop that returned kept every invariant its body keeps. *)
Lemma foldM_inv_Ok {A S} (I : S -> Prop) (f : S -> A -> result S) l s s' :
  foldM f s l = Ok s' ->
  I s ->
  (forall s a s', a ∈ l -> I s -> f s a = Ok s' -> I s') ->
  I s'.
Proof.
  revert s; induction l as [|a l IH]; intros s Hrun Hs Hf; cbn in Hrun.
  - by injection Hrun as <-.
  - apply bind_Ok in Hrun as (s1 & H1 & Hrun).
    eapply IH; [exact Hrun| |].
    + eapply Hf; [left|exact Hs|exact H1].
    + intros s0 a0 s0' Ha0. apply Hf. by right.
Qed.

(** ** Enumeration *)

Lemma enumerate_from_app {A} s (l1 l2 : list A) :
  enumerate_from s (l1 ++ l2)
  = enumerate_from s l1 ++ enumerate_from (s + length l1) l2.
Proof.
  revert s; induction l1 as [|x l1 IH]; intros s; cbn.
  - by rewrite Nat.add_0_r.
  - rewrite IH. do 3 f_equal. lia.
Qed.

Lemma elem_of_enumerate_from {A} s (l : list A) i x :
  (i, x) ∈ enumerate_from s l <-> (s <= i)%nat /\ l !! (i - s)%nat = Some x.
Proof.
  revert s; induction l as [|y l IH]; intros s; cbn.
  - rewrite elem_of_nil. split; [done|]. by intros [_ ?].
  - rewrite elem_of_cons, IH. split.
    + intros [[= -> ->]|[Hle Hl]].
      * split; [lia|]. by rewrite Nat.sub_diag.
      * split; [lia|]. by replace (i - s)%nat with (S (i - S s)) by lia.
    + intros [Hle Hl]. destruct (decide (i = s)) as [->|Hne].
      * rewrite Nat.sub_diag in Hl. left. cbn in Hl. congruence.
      * right. split; [lia|].
        by replace (i - s)%nat with (S (i - S s)) in Hl by lia.
Qed.

Lemma elem_of_enumerate {A} (l : list A) i x :
  (i, x) ∈ enumerate l <-> l !! i = Some x.
Proof.
  unfold enumerate. rewrite elem_of_enumerate_from, Nat.sub_0_r.
  split; [tauto|]. split; [lia|done].
Qed.

Lemma enumerate_from_fst {A} s (l : list A) :
  (enumerate_from s l).*1 = seq s (length l).
Proof. revert s; induction l as [|x l IH]; intros s; cbn; by f_equal. Qed.

Lemma enumerate_from_snd {A} s (l : list A) : (enumerate_from s l).*2 = l.
Proof. revert s; induction l as [|x l IH]; intros s; cbn; by f_equal. Qed.

Lemma drop_eq_cons {A} (l : list A) s x suffix :
  drop s l = x :: suffix -> l !! s = Some x /\ drop (S s) l = suffix.
Proof.
  revert l; induction s as [|s IH]; intros [|y l]; cbn; try done.
  - by intros [= -> ->].
  - apply IH.
Qed.

(** ** Table values of a tokenized table *)

Lemma word_begin_index_start cell t :
  (t < length cell)%nat -> word_begin_index cell t = Ok (word_start cell t).
Proof.
  induction t as [|t IH]; intros Ht; cbn; unfold getitem;
    destruct (lookup_lt_is_Some_2 cell _ Ht) as [tok ->]; cbn;
    destruct (_is_inner_wordpiece tok); try done.
  apply IH; lia.
Qed.

Lemma word_start_le cell t : -1 <= word_start cell t <= Z.of_nat t.
Proof.
  induction t as [|t IH]; cbn; destruct (cell !! _) as [tok|];
    try destruct (_is_inner_wordpiece tok); lia.
Qed.

Lemma table_values_from_app table nc nr nt l1 l2 :
  table_values_from table nc nr nt (l1 ++ l2)
  = v1 ← table_values_from table nc nr nt l1;
    v2 ← table_values_from table nc nr nt l2;
    Ok (v1 ++ v2).
Proof.
  induction l1 as [|tc l1 IH]; cbn.
  - by destruct (table_values_from table nc nr nt l2).
  - destruct (table_value_at table nc nr nt tc) as [v|e]; cbn; [|done].
    rewrite IH.
    destruct (table_values_from table nc nr nt l1) as [v1|e]; cbn; [|done].
    destruct (table_values_from table nc nr nt l2) as [v2|e]; cbn; [|done].
    by destruct v.
Qed.

Lemma table_values_from_Ok_app table nc nr nt l1 l2 v1 v2 :
  table_values_from table nc nr nt l1 = Ok v1 ->
  table_values_from table nc nr nt l2 = Ok v2 ->
  table_values_from table nc nr nt (l1 ++ l2) = Ok (v1 ++ v2).
Proof. intros H1 H2. by rewrite table_values_from_app, H1, H2. Qed.

Lemma getitem_Some {A} (l : list A) i x : l !! i = Some x -> getitem l i = Ok x.
Proof. unfold getitem. by intros ->. Qed.

Lemma getitem_Ok {A} (l : list A) i x : getitem l i = Ok x <-> l !! i = Some x.
Proof. unfold getitem. destruct (l !! i); naive_solver. Qed.

Lemma table_value_at_Ok table nc nr nt r c t row cell tok :
  rows table !! r = Some row -> row !! c = Some cell ->
  cell !! t = Some tok ->
  table_value_at table nc nr nt (mkTokenCoordinates c r t)
  = Ok (if decide ((r <= nr)%nat /\ (c < nc)%nat
                   /\ word_start cell t < Z.of_nat nt)
        then Some (mkTableValue tok (Z.of_nat c + 1) (Z.of_nat r))
        else None).
Proof.
  intros Hrow Hcell Htok. unfold table_value_at; cbn.
  destruct (decide (nr + 1 <= r)%nat); [by rewrite decide_False by lia|].
  destruct (decide (nc <= c)%nat); [by rewrite decide_False by lia|].
  rewrite (getitem_Some _ _ _ Hrow); cbn.
  rewrite (getitem_Some _ _ _ Hcell); cbn.
  rewrite (getitem_Some _ _ _ Htok); cbn.
  rewrite word_begin_index_start by (by eapply lookup_lt_Some). cbn.
  destruct (decide (Z.of_nat nt <= word_start cell t)).
  - by rewrite decide_False by lia.
  - by rewrite decide_True by lia.
Qed.

Section tokenized.
Variables (table : TokenizedTable) (nc nr nt : nat).

Lemma table_values_cell r c row cell s suffix :
  rows table !! r = Some row -> row !! c = Some cell ->
  drop s cell = suffix ->
  table_values_from table nc nr nt
    ('(t, _) ← enumerate_from s suffix; [mkTokenCoordinates c r t])
  = Ok (if decide (r <= nr /\ c < nc)%nat then
          '(t, tok) ← enumerate_from s suffix;
          if decide (word_start cell t < Z.of_nat nt)
          then [mkTableValue tok (Z.of_nat c + 1) (Z.of_nat r)] else []
        else []).
Proof.
  intros Hrow Hcell. revert s.
  induction suffix as [|tok suffix IH]; intros s Hs; cbn.
  - by case_decide.
  - apply drop_eq_cons in Hs as [Htok Hs'].
    rewrite (IH _ Hs'), (table_value_at_Ok _ _ _ _ _ _ _ _ _ _ Hrow Hcell Htok).
    cbn. repeat case_decide; try done; lia.
Qed.

Lemma table_values_row r row s suffix :
  rows table !! r = Some row ->
  drop s row = suffix ->
  table_values_from table nc nr nt
    ('(c, cell) ← enumerate_from s suffix;
     '(t, _) ← enumerate cell; [mkTokenCoordinates c r t])
  = Ok (if decide (r <= nr)%nat then
          '(c, cell) ← enumerate_from s suffix;
          if decide (c < nc)%nat
          then expected_cell_values nt r c cell else []
        else []).
Proof.
  intros Hrow. revert s.
  induction suffix as [|cell suffix IH]; intros s Hs; cbn.
  - by case_decide.
  - apply drop_eq_cons in Hs as [Hcell Hs'].
    erewrite table_values_from_Ok_app;
      [|by eapply (table_values_cell r s row cell 0 cell)|by apply IH].
    f_equal. unfold expected_cell_values, enumerate.
    repeat case_decide; try done; try lia; by rewrite ?app_nil_r.
Qed.

Lemma table_values_rows s suffix :
  drop s (rows table) = suffix ->
  table_values_from table nc nr nt
    ('(r, row) ← enumerate_from s suffix;
     '(c, cell) ← enumerate row;
     '(t, _) ← enumerate cell; [mkTokenCoordinates c r t])
  = Ok ('(r, row) ← enumerate_from s suffix;
        if decide (r <= nr)%nat
        then expected_row_values nc nt r row else []).
Proof.
  revert s. induction suffix as [|row suffix IH]; intros s Hs; cbn; [done|].
  apply drop_eq_cons in Hs as [Hrow Hs'].
  erewrite table_values_from_Ok_app;
    [|by eapply (table_values_row s row 0 row)|by apply IH].
  done.
Qed.
End tokenized.

(** On a table built by [_tokenize_table] (or any table whose coordinates
    are those of its rows) the generator never fails, and yields the
    expected values. *)
Lemma _get_table_values_expected tokenized_rows nc nr nt :
  _get_table_values
    (mkTokenizedTable tokenized_rows (token_coordinates tokenized_rows))
    nc nr nt
  = Ok (expected_table_values tokenized_rows nc nr nt).
Proof.
  unfold _get_table_values, token_coordinates, expected_table_values; cbn.
  by apply (table_values_rows _ nc nr nt 0 tokenized_rows).
Qed.

Lemma const_fmap_replicate {A B} (b : B) (l : list A) :
  (fun _ => b) <$> l = replicate (length l) b.
Proof. induction l; cbn; by f_equal. Qed.

Lemma elem_of_expected_table_values tokenized_rows nc nr nt v :
  v ∈ expected_table_values tokenized_rows nc nr nt
  <-> exists r c t row cell,
        tokenized_rows !! r = Some row /\ row !! c = Some cell
        /\ cell !! t = Some (token v)
        /\ (r <= nr)%nat /\ (c < nc)%nat
        /\ word_start cell t < Z.of_nat nt
        /\ column_id v = Z.of_nat c + 1 /\ row_id v = Z.of_nat r.
Proof.
  unfold expected_table_values, expected_row_values, expected_cell_values.
  rewrite list_elem_of_bind. split.
  - intros ([r row] & Hv & Hrow%elem_of_enumerate).
    case_decide; [|by apply elem_of_nil in Hv].
    apply list_elem_of_bind in Hv as ([c cell] & Hv & Hcell%elem_of_enumerate).
    case_decide; [|by apply elem_of_nil in Hv].
    apply list_elem_of_bind in Hv as ([t tok] & Hv & Htok%elem_of_enumerate).
    case_decide; [|by apply elem_of_nil in Hv].
    apply list_elem_of_singleton in Hv as ->; cbn.
    by exists r, c, t, row, cell.
  - intros (r & c & t & row & cell & Hrow & Hcell & Htok & ? & ? & ? & ? & ?).
    exists (r, row). split; [|by apply elem_of_enumerate].
    rewrite decide_True by done. apply list_elem_of_bind.
    exists (c, cell). split; [|by apply elem_of_enumerate].
    rewrite decide_True by done. apply list_elem_of_bind.
    exists (t, token v). split; [|by apply elem_of_enumerate].
    rewrite decide_True by done. apply list_elem_of_singleton.
    destruct v; cbn in *; congruence.
Qed.

(** On a tokenized table the serializer never fails; the table part of its
    output is [expected_table_values]. *)
Lemma _serialize_tokenized self question_tokens table nc nr nt :
  let tt := _tokenize_table self table in
  let vs := expected_table_values (rows tt) nc nr nt in
  _serialize self question_tokens tt nc nr nt
  = Ok (mkSerializedExample
          (cls_token self :: question_tokens
             ++ sep_token self :: (token <$> vs))
          (replicate (length question_tokens + 2) 0 ++ (column_id <$> vs))
          (replicate (length question_tokens + 2) 0 ++ (row_id <$> vs))
          (replicate (length question_tokens + 2) 0
             ++ replicate (length vs) 1)).
Proof.
  intros tt vs. subst vs.
  unfold _serialize, _serialize_text. subst tt. unfold _tokenize_table.
  rewrite _get_table_values_expected.
  generalize (expected_table_values
                (rows (_tokenize_table self table)) nc nr nt).
  unfold _tokenize_table; cbv zeta. intros vs; cbn [mbind result_bind].
  rewrite !const_fmap_replicate.
  replace (length question_tokens + 2)%nat
    with (S (length question_tokens + 1)) by lia.
  rewrite Nat.add_1_r, replicate_S_end. cbn [replicate].
  by rewrite <-!app_assoc.
Qed.

Lemma _serialize_values self question_tokens table nc nr nt :
  let tt := _tokenize_table self table in
  exists vs,
    _serialize self question_tokens tt nc nr nt
    = Ok (mkSerializedExample
            (cls_token self :: question_tokens
               ++ sep_token self :: (token <$> vs))
            (replicate (length question_tokens + 2) 0 ++ (column_id <$> vs))
            (replicate (length question_tokens + 2) 0 ++ (row_id <$> vs))
            (replicate (length question_tokens + 2) 0
               ++ replicate (length vs) 1))
    /\ forall v,
         v ∈ vs
         <-> exists r c t row cell,
               rows tt !! r = Some row /\ row !! c = Some cell
               /\ cell !! t = Some (token v)
               /\ (r <= nr)%nat /\ (c < nc)%nat
               /\ word_start cell t < Z.of_nat nt
               /\ column_id v = Z.of_nat c + 1 /\ row_id v = Z.of_nat r.
Proof.
  intros tt. exists (expected_table_values (rows tt) nc nr nt).
  split; [apply _serialize_tokenized|apply elem_of_expected_table_values].
Qed.

(** C1 (amended). On a tokenized table the serializer never fails and emits
    the CLS token, the question tokens and the SEP token, all tagged
    (segment 0, column 0, row 0), followed by the table tokens tagged with
    segment 1. The table tokens are the list [expected_table_values]: row by
    row from row [0] to row [num_rows], within a row cell by cell over the
    first [num_columns] columns, within a cell piece by piece in the order of
    the cell, every piece whose word begins before [num_tokens] once, and no
    other value. Each carries its column index plus one and its row index as
    ids. Row [0] is the header row: its pieces are emitted too, first and
    with row id [0], and the data rows carry the row ids [1..num_rows]. The
    generator [_get_table_values] yields this same list. *)
Theorem serialize_layout self question_tokens table nc nr nt :
  let tt := _tokenize_table self table in
  let vs := expected_table_values (rows tt) nc nr nt in
  _serialize self question_tokens tt nc nr nt
  = Ok (mkSerializedExample
          (cls_token self :: question_tokens
             ++ sep_token self :: (token <$> vs))
          (replicate (length question_tokens + 2) 0 ++ (column_id <$> vs))
          (replicate (length question_tokens + 2) 0 ++ (row_id <$> vs))
          (replicate (length question_tokens + 2) 0
             ++ replicate (length vs) 1))
  /\ _get_table_values tt nc nr nt = Ok vs
  /\ vs = (enumerate (rows tt) ≫= fun '(r, row) =>
           if decide (r <= nr)%nat then
             enumerate row ≫= fun '(c, cell) =>
               if decide (c < nc)%nat then
                 enumerate cell ≫= fun '(t, tok) =>
                   if decide (word_start cell t < Z.of_nat nt)
                   then [mkTableValue tok (Z.of_nat c + 1) (Z.of_nat r)]
                   else []
               else []
           else [])
  /\ (forall cell t,
        word_begin_index cell t
        = if decide (t < length cell)%nat then Ok (word_start cell t)
          else Raise IndexError)
  /\ forall v,
       v ∈ vs
       <-> exists r c t row cell,
             rows tt !! r = Some row /\ row !! c = Some cell
             /\ cell !! t = Some (token v)
             /\ (r <= nr)%nat /\ (c < nc)%nat
             /\ word_start cell t < Z.of_nat nt
             /\ column_id v = Z.of_nat c + 1 /\ row_id v = Z.of_nat r.
Proof.
  intros tt vs. split; [apply _serialize_tokenized|].
  split; [apply _get_table_values_expected|].
  split; [done|].
  split; [|apply elem_of_expected_table_values].
  intros cell t. case_decide as Ht; [by apply word_begin_index_start|].
  destruct t; cbn [word_begin_index]; unfold getitem;
    by rewrite lookup_ge_None_2 by lia.
Qed.

(** C1 as stated fails: table content is not made of data rows only. With
    the header [Name] and the row [Alice], the token at position 3 is the
    header piece, tagged segment 1 and row id 0. *)
Lemma serialize_emits_header_row :
  ~ (forall self question_tokens table nc nr nt ex i,
       _serialize self question_tokens (_tokenize_table self table) nc nr nt
       = Ok ex ->
       segment_ids ex !! i = Some 1 ->
       exists r, row_ids ex !! i = Some r /\ 1 <= r).
Proof.
  intros H.
  destruct (H (toy_tokenizer 16 (-1) false false) ["who"]
              (data_frame ["Name"] [["Alice"]]) 1%nat 1%nat 1%nat
              (mkSerializedExample
                 ["[CLS]"; "who"; "[SEP]"; "Name"; "Alice"]
                 [0; 0; 0; 1; 1] [0; 0; 0; 0; 1] [0; 0; 0; 1; 1])
              3%nat eq_refl eq_refl) as (r & Hr & Hle).
  cbn in Hr. injection Hr as <-. lia.
Qed.

(** ** The scan over the per-cell token cap *)

Section scan.
Variables (c : nat -> Z).

Lemma scan_num_tokens_spec budget k r :
  exists n,
    scan_num_tokens (fun j => Ok (c j)) budget k r = Ok n
    /\ (k <= n <= k + r)%nat
    /\ (forall j, (k <= j < n)%nat -> c (j + 1)%nat <= budget)
    /\ ((n < k + r)%nat -> c (n + 1)%nat > budget).
Proof.
  revert k; induction r as [|r IH]; intros k; cbn.
  - exists k. case_decide; repeat split; try done; try lia.
  - destruct (decide (c (k + 1)%nat > budget)) as [Hgt|Hle].
    + exists k. repeat split; try done; lia.
    + destruct (IH (S k)) as (n & -> & Hn & Hbelow & Hbreak).
      exists n. split; [done|]. split; [lia|]. split.
      * intros j Hj. destruct (decide (j = k)) as [->|]; [lia|].
        apply Hbelow. lia.
      * intros ?. apply Hbreak. lia.
Qed.

(** A larger budget never stops the scan earlier. *)
Lemma scan_num_tokens_mono budget budget' k r n n' :
  budget <= budget' ->
  scan_num_tokens (fun j => Ok (c j)) budget k r = Ok n ->
  scan_num_tokens (fun j => Ok (c j)) budget' k r = Ok n' ->
  (n <= n')%nat.
Proof.
  intros Hb Hn Hn'.
  destruct (scan_num_tokens_spec budget k r) as (m & Hm & ? & Hbelow & _).
  destruct (scan_num_tokens_spec budget' k r) as (m' & Hm' & ? & _ & Hbrk).
  rewrite Hn in Hm; rewrite Hn' in Hm'. simplify_eq.
  destruct (decide (m <= m')%nat); [done|].
  specialize (Hbelow m'). specialize (Hbrk ltac:(lia)). lia.
Qed.
End scan.

Lemma scan_num_tokens_ext f g budget k r :
  (forall j, f j = g j) ->
  scan_num_tokens f budget k r = scan_num_tokens g budget k r.
Proof.
  intros Hfg. revert k; induction r as [|r IH]; intros k; cbn;
    rewrite Hfg; [done|].
  destruct (g (k + 1)%nat); cbn; [|done]. case_decide; [done|apply IH].
Qed.

(** ** The cost of a tokenized table *)

Lemma _get_table_cost_tokenized tokenized_rows nc nr nt :
  _get_table_cost
    (mkTokenizedTable tokenized_rows (token_coordinates tokenized_rows))
    nc nr nt
  = Ok (table_cost tokenized_rows nc nr nt).
Proof.
  unfold _get_table_cost. by rewrite _get_table_values_expected.
Qed.

Lemma bind_length_mono {A B} (f g : A -> list B) l :
  (forall x, length (f x) <= length (g x))%nat ->
  (length (l ≫= f) <= length (l ≫= g))%nat.
Proof.
  intros Hfg. induction l as [|x l IH]; cbn; [done|].
  rewrite !length_app. specialize (Hfg x). lia.
Qed.

Lemma table_cost_mono tokenized_rows nc nr nt nt' :
  (nt <= nt')%nat ->
  table_cost tokenized_rows nc nr nt <= table_cost tokenized_rows nc nr nt'.
Proof.
  intros Hle. unfold table_cost. apply inj_le.
  apply bind_length_mono. intros [r row]. case_decide; [|done].
  apply bind_length_mono. intros [c cell]. case_decide; [|done].
  apply bind_length_mono. intros [t tok].
  repeat case_decide; cbn; lia.
Qed.

Lemma _serialize_tokens_length self question_tokens table nc nr nt ex :
  _serialize self question_tokens (_tokenize_table self table) nc nr nt
  = Ok ex ->
  Z.of_nat (length (tokens ex))
  = _question_encoding_cost question_tokens
    + table_cost (rows (_tokenize_table self table)) nc nr nt.
Proof.
  unfold _serialize, _serialize_text, _tokenize_table.
  rewrite _get_table_values_expected. cbn [mbind result_bind].
  intros [= <-]. cbn [tokens]. unfold _question_encoding_cost, table_cost.
  cbn [length rows]. rewrite length_app. cbn [length].
  rewrite length_fmap. lia.
Qed.

(** What [_get_max_num_tokens] returns on a tokenized table: the scan stops
    at the first cap [n] whose successor costs more than the budget, or at
    the capped maximum. *)
Lemma _get_max_num_tokens_spec self question_tokens table nc nr :
  let tt := _tokenize_table self table in
  let budget := _get_token_budget self question_tokens in
  let cost := table_cost (rows tt) nc nr in
  let max_num_tokens := capped_max_num_tokens self tt in
  exists n,
    (n <= max_num_tokens)%nat
    /\ (forall j, (j < n)%nat -> cost (j + 1)%nat <= budget)
    /\ ((n < max_num_tokens)%nat -> cost (n + 1)%nat > budget)
    /\ _get_max_num_tokens self question_tokens tt nc nr
       = Ok (if decide (n < max_num_tokens)%nat then
               if decide (cell_trim_length self >= 0) then None
               else if decide (n = 0%nat) then None else Some n
             else Some n).
Proof.
  intros tt budget cost max_num_tokens.
  destruct (scan_num_tokens_spec cost budget 0 max_num_tokens)
    as (n & Hscan & Hn & Hbelow & Hbreak).
  exists n. split; [lia|]. split; [intros j ?; apply Hbelow; lia|].
  split; [intros ?; apply Hbreak; lia|].
  unfold _get_max_num_tokens. fold tt budget max_num_tokens.
  rewrite (scan_num_tokens_ext _ (fun j => Ok (cost j))),
    Hscan; cbn [mbind result_bind].
  - by repeat case_decide.
  - intros j. apply _get_table_cost_tokenized.
Qed.

Lemma _get_max_num_tokens_fits self question_tokens table nc nr k :
  let tt := _tokenize_table self table in
  _get_max_num_tokens self question_tokens tt nc nr = Ok (Some k) ->
  (0 < k)%nat ->
  table_cost (rows tt) nc nr k <= _get_token_budget self question_tokens.
Proof.
  intros tt Hk Hpos.
  destruct (_get_max_num_tokens_spec self question_tokens table nc nr)
    as (n & _ & Hbelow & _ & Hres).
  fold tt in Hres, Hbelow. rewrite Hk in Hres.
  assert (n = k) as -> by (repeat case_decide; congruence).
  specialize (Hbelow (k - 1)%nat ltac:(lia)).
  by replace (k - 1 + 1)%nat with k in Hbelow by lia.
Qed.

Lemma _get_max_num_tokens_zero self question_tokens table nc nr :
  let tt := _tokenize_table self table in
  _get_max_num_tokens self question_tokens tt nc nr = Ok (Some 0%nat) ->
  capped_max_num_tokens self tt = 0%nat.
Proof.
  intros tt Hk.
  destruct (_get_max_num_tokens_spec self question_tokens table nc nr)
    as (n & Hn & _ & _ & Hres).
  fold tt in Hres, Hn. rewrite Hk in Hres.
  repeat case_decide; simplify_eq; lia.
Qed.

Lemma _get_max_num_tokens_no_cells self question_tokens table nc nr :
  let tt := _tokenize_table self table in
  capped_max_num_tokens self tt = 0%nat ->
  _get_max_num_tokens self question_tokens tt nc nr = Ok (Some 0%nat).
Proof.
  intros tt Hmax.
  destruct (_get_max_num_tokens_spec self question_tokens table nc nr)
    as (n & Hn & _ & _ & Hres).
  fold tt in Hres, Hn. rewrite Hres, Hmax in *.
  rewrite decide_False by lia. do 2 f_equal. lia.
Qed.

(** The row-dropping search: it returns the largest row count, at most the
    initial one, at which the cap search succeeds, and fails exactly when
    there is none (without row dropping: when the initial count fails). *)
Lemma trim_search_spec self question_tokens table nc drop nr :
  let tt := _tokenize_table self table in
  let fits r := _get_max_num_tokens self question_tokens tt nc r in
  match trim_search self question_tokens tt nc drop nr with
  | Ok (r, k) =>
      (r <= nr)%nat /\ fits r = Ok (Some k)
      /\ (forall r', (r < r' <= nr)%nat -> fits r' = Ok None)
      /\ (drop = false -> r = nr)
  | Raise e =>
      e = ValueError "Sequence too long"
      /\ fits nr = Ok None
      /\ (drop = true -> forall r', (r' <= nr)%nat -> fits r' = Ok None)
  end.
Proof.
  intros tt fits. induction nr as [|nr IH]; cbn [trim_search].
  - destruct (_get_max_num_tokens_spec self question_tokens table nc 0)
      as (n & _ & _ & _ & Hres).
    fold tt in Hres. rewrite Hres; cbn [mbind result_bind].
    set (o := if decide _ then _ else _) in *. destruct o as [k|].
    + repeat split; try done. intros; lia.
    + destruct drop; cbn; repeat split; try done;
        intros _ r' ?; by replace r' with 0%nat by lia.
  - destruct (_get_max_num_tokens_spec self question_tokens table nc (S nr))
      as (n & _ & _ & _ & Hres).
    fold tt in Hres. rewrite Hres; cbn [mbind result_bind].
    set (o := if decide _ then _ else _) in *. destruct o as [k|].
    + repeat split; try done. intros; lia.
    + destruct drop; cbn [negb]; [|by repeat split].
      destruct (trim_search self question_tokens tt nc true nr)
        as [[r k]|e].
      * destruct IH as (? & ? & Hnone & _). repeat split; try done; [lia|].
        intros r' ?. destruct (decide (r' = S nr)) as [->|]; [done|].
        apply Hnone. lia.
      * destruct IH as (-> & ? & Hnone). repeat split; try done.
        intros _ r' ?. destruct (decide (r' = S nr)) as [->|]; [done|].
        apply Hnone; [done|lia].
Qed.

Lemma _get_max_num_tokens_mono self question_tokens table nc nr n' k :
  let tt := _tokenize_table self table in
  (model_max_length self <= n')%nat ->
  _get_max_num_tokens self question_tokens tt nc nr = Ok (Some k) ->
  exists k',
    _get_max_num_tokens (with_model_max_length self n') question_tokens tt
      nc nr = Ok (Some k')
    /\ (k <= k')%nat.
Proof.
  intros tt Hle Hk.
  destruct (_get_max_num_tokens_spec self question_tokens table nc nr)
    as (n & Hn & Hbelow & _ & Hres).
  destruct (_get_max_num_tokens_spec (with_model_max_length self n')
              question_tokens table nc nr)
    as (m & Hm & _ & Hbreak & Hres').
  change (_tokenize_table (with_model_max_length self n') table)
    with tt in *.
  change (capped_max_num_tokens (with_model_max_length self n') tt)
    with (capped_max_num_tokens self tt) in *.
  change (cell_trim_length (with_model_max_length self n'))
    with (cell_trim_length self) in *.
  fold tt in Hres, Hn, Hbelow.
  assert (_get_token_budget self question_tokens
          <= _get_token_budget (with_model_max_length self n')
               question_tokens) as Hbudget.
  { unfold _get_token_budget; cbn. lia. }
  assert (n <= m)%nat as Hnm.
  { destruct (decide (n <= m)%nat); [done|].
    specialize (Hbelow m ltac:(lia)). specialize (Hbreak ltac:(lia)). lia. }
  rewrite Hk in Hres. rewrite Hres'.
  repeat case_decide; simplify_eq; try lia; eexists; split; try done; lia.
Qed.

Lemma fit_and_serialize_Ok self question_tokens table nc nr drop ex :
  let tt := _tokenize_table self table in
  fit_and_serialize self question_tokens tt nc nr drop = Ok ex
  <-> exists r k,
        trim_search self question_tokens tt nc drop nr = Ok (r, k)
        /\ _serialize self question_tokens tt nc r k = Ok ex
        /\ table_cost (rows tt) nc r k
           <= _get_token_budget self question_tokens.
Proof.
  intros tt. unfold fit_and_serialize.
  destruct (trim_search self question_tokens tt nc drop nr) as [[r k]|e];
    cbn [mbind result_bind]; [|by split; [|intros (? & ? & ? & _)]].
  destruct (_serialize_values self question_tokens table nc r k)
    as (vs & Hser & _).
  fold tt in Hser.
  pose proof (_serialize_tokens_length _ _ _ _ _ _ _ Hser) as Hlen.
  fold tt in Hlen. rewrite Hser; cbn [mbind result_bind].
  unfold _get_token_budget. split.
  - case_decide; [|done]. intros [= <-]. exists r, k.
    repeat split; try done. lia.
  - intros (? & ? & [= <- <-] & [= <-] & ?). rewrite decide_True; [done|lia].
Qed.

(** C7 (amended). At a fixed number of rows and columns, raising
    [model_max_length] never lowers the per-cell token cap returned by
    [_get_max_num_tokens]; and, with or without row dropping, a table and
    question that were fitted and serialized at the smaller length are
    still fitted at the larger one. *)
Theorem budget_fitter_monotone self question_tokens table nc nr n' :
  let tt := _tokenize_table self table in
  let self' := with_model_max_length self n' in
  (model_max_length self <= n')%nat ->
  (forall k,
     _get_max_num_tokens self question_tokens tt nc nr = Ok (Some k) ->
     exists k',
       _get_max_num_tokens self' question_tokens tt nc nr = Ok (Some k')
       /\ (k <= k')%nat)
  /\ (forall drop ex,
        fit_and_serialize self question_tokens tt nc nr drop = Ok ex ->
        exists ex',
          fit_and_serialize self' question_tokens tt nc nr drop = Ok ex').
Proof.
  intros tt self' Hle. split.
  { intros k. by apply _get_max_num_tokens_mono. }
  intros drop ex (r & k & Hsearch & _ & Hcost)%fit_and_serialize_Ok.
  fold tt in Hsearch, Hcost.
  pose proof (trim_search_spec self question_tokens table nc drop nr) as Hs.
  pose proof (trim_search_spec self' question_tokens table nc drop nr) as Hs'.
  change (_tokenize_table self' table) with tt in Hs'.
  fold tt in Hs. cbv zeta in Hs, Hs'. rewrite Hsearch in Hs.
  destruct Hs as (Hr & Hfit & Hnone & Hnodrop).
  destruct (_get_max_num_tokens_mono self question_tokens table nc r n' k
              Hle Hfit) as (k1 & Hfit1 & _).
  fold tt self' in Hfit1.
  assert (_get_token_budget self question_tokens
          <= _get_token_budget self' question_tokens) as Hbudget.
  { unfold _get_token_budget; cbn. lia. }
  destruct (trim_search self' question_tokens tt nc drop nr)
    as [[r' k']|e] eqn:Hsearch'.
  - destruct Hs' as (Hr' & Hfit' & Hnone' & _).
    destruct (_serialize_values self' question_tokens table nc r' k')
      as (vs & Hser & _).
    change (_tokenize_table self' table) with tt in Hser.
    eexists. apply (fit_and_serialize_Ok self' question_tokens table).
    change (_tokenize_table self' table) with tt.
    exists r', k'. split; [done|]. split; [exact Hser|].
    destruct (decide (0 < k')%nat) as [Hpos|Hzero].
    + by apply (_get_max_num_tokens_fits self' question_tokens table).
    + assert (k' = 0%nat) as -> by lia.
      apply (_get_max_num_tokens_zero self' question_tokens table) in Hfit'.
      change (capped_max_num_tokens self' (_tokenize_table self' table))
        with (capped_max_num_tokens self tt) in Hfit'.
      pose proof (_get_max_num_tokens_no_cells self question_tokens table
                    nc nr Hfit') as Hnr.
      pose proof (_get_max_num_tokens_no_cells self' question_tokens table
                    nc nr Hfit') as Hnr'.
      fold tt in Hnr. change (_tokenize_table self' table) with tt in Hnr'.
      assert (r = nr) as ->.
      { destruct (decide (r = nr)); [done|].
        rewrite Hnone in Hnr by lia. done. }
      assert (r' = nr) as ->.
      { destruct (decide (r' = nr)); [done|].
        rewrite Hnone' in Hnr' by lia. done. }
      rewrite Hfit in Hnr. injection Hnr as ->. lia.
  - destruct Hs' as (_ & Hnr' & Hall). destruct drop.
    + rewrite (Hall eq_refl r Hr) in Hfit1. done.
    + rewrite (Hnodrop eq_refl) in Hfit1. rewrite Hnr' in Hfit1. done.
Qed.

(** C7 as stated fails for the fitter with row dropping: with
    [drop_rows_to_fit], the table below is fitted at length 5 by dropping
    its last row and keeping 3 pieces per cell, and at length 6 by keeping
    both rows and 1 piece per cell. *)
Lemma fitted_cap_decreases_with_row_dropping :
  ~ (forall self question_tokens table nc nr n' r k r' k',
       (model_max_length self <= n')%nat ->
       trim_search self question_tokens (_tokenize_table self table) nc
         (drop_rows_to_fit self) nr = Ok (r, k) ->
       trim_search (with_model_max_length self n') question_tokens
         (_tokenize_table self table) nc (drop_rows_to_fit self) nr
       = Ok (r', k') ->
       (k <= k')%nat).
Proof.
  intros H.
  specialize (H (toy_tokenizer 5 (-1) true true) []
                (data_frame ["a"; "b"; "c"]
                   [["x y z"; ""; ""]; ["u"; "v"; "w"]])
                3%nat 2%nat 6%nat 1%nat 3%nat 2%nat 1%nat
                ltac:(cbn; lia) eq_refl eq_refl).
  lia.
Qed.

Lemma budget_fitter_monotone_witness :
  let self := toy_tokenizer 4 (-1) true true in
  let table :=
    data_frame ["a"; "b"; "c"] [["x y z"; ""; ""]; ["u"; "v"; "w"]] in
  (model_max_length self <= 5)%nat
  /\ (exists k',
        _get_max_num_tokens (with_model_max_length self 5) []
          (_tokenize_table self table) 3 1 = Ok (Some k')
        /\ (2 <= k')%nat)
  /\ exists ex',
       fit_and_serialize (with_model_max_length self 5) []
         (_tokenize_table self table) 3 1 true = Ok ex'.
Proof.
  intros self table.
  assert (model_max_length self <= 5)%nat as Hle by (cbn; lia).
  destruct (budget_fitter_monotone self [] table 3 1 5 Hle) as [Hcap Hfit].
  split; [exact Hle|]. split.
  - apply (Hcap 2%nat). reflexivity.
  - eapply (Hfit true). reflexivity.
Defined.

(** Without row dropping the search is one call of [_get_max_num_tokens]. *)
Lemma trim_search_no_drop self question_tokens tt nc nr :
  trim_search self question_tokens tt nc false nr
  = (r ← _get_max_num_tokens self question_tokens tt nc nr;
     match r with
     | Some num_tokens => Ok (nr, num_tokens)
     | None => Raise (ValueError "Sequence too long")
     end).
Proof.
  destruct nr; cbn [trim_search negb];
    destruct (_get_max_num_tokens _ _ _ _ _) as [[k|]|e]; done.
Qed.

(** The answer of [_get_max_num_tokens] on a tokenized table, read off the
    costs: [None] exactly when some cell has a piece and the table under the
    cap [cell_trim_length] (resp. the cap 1 when none is set) costs more than
    the budget. *)
Lemma _get_max_num_tokens_budget self question_tokens table nc r :
  let tt := _tokenize_table self table in
  let budget := _get_token_budget self question_tokens in
  let cap := capped_max_num_tokens self tt in
  let cost := table_cost (rows tt) nc r in
  let rejected :=
    (0 < cap)%nat
    /\ cost (if decide (cell_trim_length self >= 0) then cap else 1%nat)
       > budget in
  (rejected -> _get_max_num_tokens self question_tokens tt nc r = Ok None)
  /\ (~ rejected ->
      exists k,
        _get_max_num_tokens self question_tokens tt nc r = Ok (Some k)
        /\ (k <= cap)%nat
        /\ (cell_trim_length self >= 0 -> k = cap)
        /\ (forall j, (1 <= j <= k)%nat -> cost j <= budget)
        /\ ((k < cap)%nat -> cost (k + 1)%nat > budget)).
Proof.
  intros tt budget cap cost rejected.
  destruct (_get_max_num_tokens_spec self question_tokens table nc r)
    as (n & Hn & Hbelow & Hbreak & Hres).
  fold tt budget cap cost in Hn, Hbelow, Hbreak, Hres.
  assert (forall j, (1 <= j <= n)%nat -> cost j <= budget) as Hfit.
  { intros j Hj. specialize (Hbelow (j - 1)%nat ltac:(lia)).
    by replace (j - 1 + 1)%nat with j in Hbelow by lia. }
  assert (forall j j', (j <= j')%nat -> cost j <= cost j') as Hmono.
  { intros j j' Hj. by apply table_cost_mono. }
  rewrite Hres. subst rejected. split.
  - intros [Hcap Hcost]. case_decide as Htrim.
    + assert (n < cap)%nat.
      { destruct (decide (n < cap)%nat); [done|].
        specialize (Hfit cap ltac:(lia)). lia. }
      by rewrite decide_True by done.
    + assert (n = 0)%nat as ->.
      { destruct n; [done|]. specialize (Hfit 1%nat ltac:(lia)). lia. }
      by rewrite decide_True, decide_True by done.
  - intros Hnot. exists n.
    assert ((if decide (n < cap)%nat then
               if decide (cell_trim_length self >= 0) then None
               else if decide (n = 0%nat) then None else Some n
             else Some n) = Some n /\ (cell_trim_length self >= 0 -> n = cap))
      as [-> Hcap].
    { destruct (decide (n < cap)%nat) as [Hlt|Hge]; [|split; [done|lia]].
      specialize (Hbreak Hlt).
      destruct (decide (cell_trim_length self >= 0)) as [Htrim|Htrim].
      - destruct Hnot. split; [lia|].
        specialize (Hmono (n + 1)%nat cap ltac:(lia)). lia.
      - split; [|done]. destruct (decide (n = 0%nat)) as [->|]; [|done].
        destruct Hnot. split; [lia|]. exact Hbreak. }
    by split_and!.
Qed.

(** The length of what the serializer returns on a tokenized table. *)
Lemma fit_and_serialize_assertion self question_tokens table nc nr k :
  let tt := _tokenize_table self table in
  _get_max_num_tokens self question_tokens tt nc nr = Ok (Some k) ->
  table_cost (rows tt) nc nr k > _get_token_budget self question_tokens ->
  fit_and_serialize self question_tokens tt nc nr false
  = Raise AssertionError.
Proof.
  intros tt Hk Hcost. unfold fit_and_serialize.
  rewrite trim_search_no_drop, Hk. cbn [mbind result_bind].
  pose proof (_serialize_tokenized self question_tokens table nc nr k)
    as Hser.
  cbv zeta in Hser. fold tt in Hser.
  pose proof (_serialize_tokens_length _ _ _ _ _ _ _ Hser) as Hlen.
  fold tt in Hlen. rewrite Hser. cbn [mbind result_bind].
  unfold _get_token_budget in Hcost.
  rewrite decide_False; [done|]. lia.
Qed.

(** C6. The budget policy, on a tokenized table.  [cost r k] is what
    [_get_table_cost] returns for [r] rows and the per-cell cap [k], [cap]
    is the longest cell, or [cell_trim_length] when that is set and smaller.
    A row count [r] is rejected when some cell has a piece and the cost under
    [cell_trim_length] (under the cap 1 when none is set) exceeds the
    budget.
    - [_get_max_num_tokens] returns [None] exactly on the rejected row
      counts. Otherwise it returns a cap [k]: with a fixed
      [cell_trim_length] it is [cap] itself (no dynamic trimming), without
      one it is the widest cap within the budget.
    - Without row dropping, a fixed [cell_trim_length] under which the
      content costs more than the budget makes the call fail: with
      [ValueError "Sequence too long"], or at the assertion on the length
      when no cell has a piece. The same holds without a fixed cap when even
      the cap 0 costs more than the budget.
    - With [drop_rows_to_fit] the search returns the largest number of rows,
      at most the initial one, that is not rejected, every larger number
      being rejected; it fails, with [ValueError "Sequence too long"] and
      for good, exactly when every number of rows down to zero is
      rejected. *)
Theorem budget_fitter_policy self question_tokens table nc nr :
  let tt := _tokenize_table self table in
  let budget := _get_token_budget self question_tokens in
  let cap := capped_max_num_tokens self tt in
  let cost := table_cost (rows tt) nc in
  let fits r := _get_max_num_tokens self question_tokens tt nc r in
  let rejected r :=
    (0 < cap)%nat
    /\ cost r (if decide (cell_trim_length self >= 0) then cap else 1%nat)
       > budget in
  let failure :=
    if decide (0 < cap)%nat then ValueError "Sequence too long"
    else AssertionError in
  (forall r k, _get_table_cost tt nc r k = Ok (cost r k))
  /\ (forall r,
        (rejected r -> fits r = Ok None)
        /\ (~ rejected r ->
            exists k,
              fits r = Ok (Some k) /\ (k <= cap)%nat
              /\ (cell_trim_length self >= 0 -> k = cap)
              /\ (forall j, (1 <= j <= k)%nat -> cost r j <= budget)
              /\ ((k < cap)%nat -> cost r (k + 1)%nat > budget)))
  /\ (cell_trim_length self >= 0 -> cost nr cap > budget ->
      fit_and_serialize self question_tokens tt nc nr false = Raise failure)
  /\ (cell_trim_length self < 0 -> cost nr 0%nat > budget ->
      fit_and_serialize self question_tokens tt nc nr false = Raise failure)
  /\ (rejected nr ->
      trim_search self question_tokens tt nc false nr
      = Raise (ValueError "Sequence too long"))
  /\ match trim_search self question_tokens tt nc true nr with
     | Ok (r, k) =>
         (r <= nr)%nat /\ fits r = Ok (Some k) /\ ~ rejected r
         /\ forall r', (r < r' <= nr)%nat -> rejected r'
     | Raise e =>
         e = ValueError "Sequence too long"
         /\ (forall r', (r' <= nr)%nat -> rejected r')
         /\ fit_and_serialize self question_tokens tt nc nr true
            = Raise (ValueError "Sequence too long")
     end.
Proof.
  intros tt budget cap cost fits rejected failure.
  assert (forall r,
            (rejected r -> fits r = Ok None)
            /\ (~ rejected r ->
                exists k,
                  fits r = Ok (Some k) /\ (k <= cap)%nat
                  /\ (cell_trim_length self >= 0 -> k = cap)
                  /\ (forall j, (1 <= j <= k)%nat -> cost r j <= budget)
                  /\ ((k < cap)%nat -> cost r (k + 1)%nat > budget)))
    as Hfits.
  { intros r. apply (_get_max_num_tokens_budget self question_tokens table). }
  assert (forall r, Decision (rejected r)) as Hdec.
  { intros r. subst rejected. cbv beta. apply _. }
  assert (forall r, fits r = Ok None -> rejected r) as Hnone.
  { intros r Hr. destruct (decide (rejected r)) as [|Hnot]; [done|].
    destruct (proj2 (Hfits r) Hnot) as (k & Hk & _). congruence. }
  assert (forall r k, fits r = Ok (Some k) -> ~ rejected r) as Hsome.
  { intros r k Hk Hrej. rewrite (proj1 (Hfits r) Hrej) in Hk. done. }
  assert (rejected nr ->
          fit_and_serialize self question_tokens tt nc nr false
          = Raise (ValueError "Sequence too long")) as Hvalue.
  { intros Hrej. unfold fit_and_serialize.
    rewrite trim_search_no_drop. fold (fits nr).
    by rewrite (proj1 (Hfits nr) Hrej). }
  assert (forall k0,
            (k0 <= if decide (cell_trim_length self >= 0)%Z then cap
                   else 0)%nat ->
            cost nr k0 > budget ->
            fit_and_serialize self question_tokens tt nc nr false
            = Raise failure) as Hfail.
  { intros k0 Hk0 Hcost. subst failure.
    destruct (decide (rejected nr)) as [Hrej|Hnot].
    - rewrite decide_True by apply Hrej. by apply Hvalue.
    - destruct (proj2 (Hfits nr) Hnot) as (k & Hk & Hle & Hcap & Hbelow & _).
      assert (cap = 0)%nat as Hzero.
      { destruct (decide (0 < cap)%nat) as [Hpos|]; [|lia].
        destruct Hnot. split; [done|]. revert Hk0.
        destruct (decide (cell_trim_length self >= 0)); intros Hk0.
        - pose proof (table_cost_mono (rows tt) nc nr k0 cap Hk0).
          unfold cost in *. lia.
        - pose proof (table_cost_mono (rows tt) nc nr k0 1 ltac:(lia)).
          unfold cost in *. lia. }
      rewrite decide_False by lia.
      apply (fit_and_serialize_assertion self question_tokens table nc nr k);
        [exact Hk|].
      assert (k = 0)%nat as -> by lia. fold tt budget.
      assert (k0 = 0)%nat as -> by (case_decide; lia).
      exact Hcost. }
  split; [intros r k; apply _get_table_cost_tokenized|].
  split; [exact Hfits|]. split; [|split; [|split]].
  - intros Htrim Hcost. apply (Hfail cap); [|done].
    by rewrite decide_True by done.
  - intros Htrim Hcost. apply (Hfail 0%nat); [lia|done].
  - intros Hrej. rewrite trim_search_no_drop. fold (fits nr).
    by rewrite (proj1 (Hfits nr) Hrej).
  - pose proof (trim_search_spec self question_tokens table nc true nr)
      as Hs.
    fold tt in Hs. cbv zeta in Hs. fold fits in Hs.
    unfold fit_and_serialize.
    destruct (trim_search self question_tokens tt nc true nr) as [[r k]|e].
    + destruct Hs as (? & Hk & Hlarger & _). split_and!; try done.
      * by eapply Hsome.
      * intros r' Hr'. by apply Hnone, Hlarger.
    + destruct Hs as (-> & _ & Hall). split_and!; try done.
      intros r' Hr'. by apply Hnone, Hall.
Qed.

Lemma budget_fitter_policy_witness :
  let table :=
    data_frame ["a"; "b"; "c"] [["x y z"; ""; ""]; ["u"; "v"; "w"]] in
  let self := toy_tokenizer 5 (-1) true true in
  let capped := toy_tokenizer 4 1 true false in
  let short := toy_tokenizer 3 (-1) true false in
  let tt := _tokenize_table self table in
  (_get_max_num_tokens self [] tt 3 2 = Ok None
   /\ _get_max_num_tokens self [] tt 3 1 = Ok (Some 3%nat)
   /\ trim_search self [] tt 3 false 2
      = Raise (ValueError "Sequence too long")
   /\ trim_search self [] tt 3 true 2 = Ok (1%nat, 3%nat))
  /\ (cell_trim_length capped >= 0
      /\ fit_and_serialize capped [] (_tokenize_table capped table) 3 2 false
         = Raise (ValueError "Sequence too long"))
  /\ (cell_trim_length short < 0
      /\ fit_and_serialize short ["p"; "q"] (_tokenize_table short table)
           3 2 false
         = Raise (ValueError "Sequence too long")).
Proof.
  intros table self capped short tt. split; [|split].
  - destruct (budget_fitter_policy self [] table 3 2)
      as (_ & Hfits & _ & _ & Hnodrop & Hdrop).
    assert ((0 < capped_max_num_tokens self tt)%nat
            /\ table_cost (rows tt) 3 2
                 (if decide (cell_trim_length self >= 0)
                  then capped_max_num_tokens self tt else 1%nat)
               > _get_token_budget self []) as Hrej
      by (split; vm_compute; [lia|done]).
    split; [exact (proj1 (Hfits 2%nat) Hrej)|].
    split; [|split; [exact (Hnodrop Hrej)|]].
    + destruct (proj2 (Hfits 1%nat)) as (k & Hk & _ & _ & _ & _).
      * intros [_ Hcost]. vm_compute in Hcost. done.
      * etrans; [exact Hk|]. vm_compute in Hk. by injection Hk as <-.
    + fold tt in Hdrop.
      destruct (trim_search self [] tt 3 true 2) as [[r k]|e] eqn:Hsearch;
        [|by vm_compute in Hsearch].
      vm_compute in Hsearch. by injection Hsearch as <- <-.
  - assert (cell_trim_length capped >= 0) as Htrim by (cbn; lia).
    split; [exact Htrim|].
    destruct (budget_fitter_policy capped [] table 3 2)
      as (_ & _ & Hcap & _).
    apply (Hcap Htrim). reflexivity.
  - assert (cell_trim_length short < 0) as Htrim by (cbn; lia).
    split; [exact Htrim|].
    destruct (budget_fitter_policy short ["p"; "q"] table 3 2)
      as (_ & _ & _ & Hzero & _).
    apply (Hzero Htrim). reflexivity.
Defined.

(** ** Loops with an invariant over the processed prefix *)

Lemma foldM_inv_prefix {A S} (I : list A -> S -> Prop)
  (f : S -> A -> result S) l s :
  I [] s ->
  (forall done a s,
     a ∈ l -> I done s -> exists s', f s a = Ok s' /\ I (done ++ [a]) s') ->
  exists s', foldM f s l = Ok s' /\ I l s'.
Proof.
  intros Hs Hf.
  cut (forall done s,
         I done s -> exists s', foldM f s l = Ok s' /\ I (done ++ l) s').
  { intros H. apply (H [] s Hs). }
  clear s Hs. induction l as [|a l IH]; intros done s Hs; cbn.
  - exists s. by rewrite app_nil_r.
  - destruct (Hf done a s) as (s' & -> & Hs'); [left|done|]. cbn.
    destruct (IH (fun d a0 s0 Ha0 => Hf d a0 s0 (list_elem_of_further _ _ _ Ha0))
                (done ++ [a]) s' Hs') as (s'' & Hrun & Hs'').
    exists s''. split; [done|]. by rewrite <-app_assoc in Hs''.
Qed.

(** ** Cell tokens *)

Lemma elem_of_cell_token_indexes column_ids row_ids c r i :
  i ∈ cell_token_indexes column_ids row_ids c r
  <-> is_cell_token column_ids row_ids c r i.
Proof.
  unfold cell_token_indexes, is_cell_token.
  rewrite list_elem_of_filter, elem_of_seq. split.
  - intros [[Hc Hr] _].
    destruct (column_ids !! i) as [x|]; [|done].
    destruct (row_ids !! i) as [y|]; [|done].
    cbn in Hc, Hr. split; f_equal; simplify_eq; lia.
  - intros [Hc Hr]. rewrite Hc, Hr. cbn. split.
    + split; f_equal; lia.
    + apply lookup_lt_Some in Hc. lia.
Qed.

Lemma cell_index_step_cases column_ids row_ids c r acc i :
  (i < length column_ids)%nat ->
  cell_index_step column_ids row_ids c r acc i
  = Ok (acc ++ filter (fun index =>
                         (fun c => c - 1) <$> column_ids !! index = Some c
                         /\ (fun r => r - 1) <$> row_ids !! index = Some r)
                 [i])
  \/ (cell_index_step column_ids row_ids c r acc i = Raise IndexError
      /\ (length row_ids < length column_ids)%nat).
Proof.
  intros Hi. unfold cell_index_step, getitem.
  destruct (column_ids !! i) as [cid|] eqn:Hcid.
  2:{ apply lookup_ge_None in Hcid. lia. }
  cbn [mbind result_bind]. rewrite filter_cons, filter_nil.
  cbn [fmap option_fmap option_map].
  destruct (decide (cid - 1 = c)) as [Hc|Hc].
  - destruct (row_ids !! i) as [rid|] eqn:Hrid.
    + left. cbn [mbind result_bind fmap option_fmap option_map].
      destruct (decide (rid - 1 = r)) as [Hr|Hr].
      * by rewrite decide_True by (rewrite Hcid; cbn; split; f_equal; lia).
      * rewrite decide_False by (rewrite Hcid; cbn; intros [_ [= ?]]; lia).
        by rewrite app_nil_r.
    + right. split; [done|]. apply lookup_ge_None in Hrid. lia.
  - left. rewrite decide_False by (rewrite Hcid; cbn; intros [[= ?] _]; lia).
    by rewrite app_nil_r.
Qed.

Lemma _get_cell_token_indexes_from column_ids row_ids c r l acc :
  (forall i, i ∈ l -> (i < length column_ids)%nat) ->
  match foldM (cell_index_step column_ids row_ids c r) acc l with
  | Ok indexes =>
      indexes
      = acc ++ filter (fun index =>
                         (fun c => c - 1) <$> column_ids !! index = Some c
                         /\ (fun r => r - 1) <$> row_ids !! index = Some r) l
  | Raise e => e = IndexError /\ (length row_ids < length column_ids)%nat
  end.
Proof.
  revert acc. induction l as [|i l IH]; intros acc Hin; cbn [foldM].
  - by rewrite app_nil_r.
  - destruct (cell_index_step_cases column_ids row_ids c r acc i)
      as [-> | [-> ?]]; [apply Hin; by left| |done].
    cbn [mbind result_bind].
    specialize (IH (acc ++ filter
                      (fun index =>
                         (fun c => c - 1) <$> column_ids !! index = Some c
                         /\ (fun r => r - 1) <$> row_ids !! index = Some r)
                      [i])
                  ltac:(intros j Hj; apply Hin; by right)).
    destruct (foldM _ _ l) as [idxs|e]; [|done].
    rewrite IH, <-app_assoc. f_equal.
    change (i :: l) with ([i] ++ l). by rewrite filter_app.
Qed.

Lemma _get_cell_token_indexes_inv column_ids row_ids c r indexes :
  _get_cell_token_indexes column_ids row_ids c r = Ok indexes ->
  indexes = cell_token_indexes column_ids row_ids c r.
Proof.
  unfold _get_cell_token_indexes, cell_token_indexes. intros Hrun.
  pose proof (_get_cell_token_indexes_from column_ids row_ids c r
                (seq 0 (length column_ids)) []) as H.
  rewrite Hrun in H. apply H. intros i ?%elem_of_seq. lia.
Qed.

Lemma _get_cell_token_indexes_Ok column_ids row_ids c r :
  length row_ids = length column_ids ->
  _get_cell_token_indexes column_ids row_ids c r
  = Ok (cell_token_indexes column_ids row_ids c r).
Proof.
  intros Hlen.
  destruct (_get_cell_token_indexes column_ids row_ids c r) as [idxs|e]
    eqn:Hrun.
  - by rewrite (_get_cell_token_indexes_inv _ _ _ _ _ Hrun).
  - unfold _get_cell_token_indexes in Hrun.
    pose proof (_get_cell_token_indexes_from column_ids row_ids c r
                  (seq 0 (length column_ids)) []) as H.
    rewrite Hrun in H. destruct H as [_ H]; [|lia].
    intros i ?%elem_of_seq. lia.
Qed.

Lemma setitem_Ok {A} (l : list A) i v :
  (i < length l)%nat -> setitem l i v = Ok (<[i:=v]> l).
Proof. intros Hi. unfold setitem. by rewrite decide_True. Qed.

Lemma foldM_setitem {A} (v : A) idxs l :
  (forall i, i ∈ idxs -> (i < length l)%nat) ->
  exists l',
    foldM (fun l i => setitem l i v) l idxs = Ok l'
    /\ length l' = length l
    /\ forall j, l' !! j = if decide (j ∈ idxs) then Some v else l !! j.
Proof.
  revert l; induction idxs as [|i idxs IH]; intros l Hin; cbn [foldM].
  - exists l. split; [done|]. split; [done|]. intros j.
    by rewrite decide_False by apply not_elem_of_nil.
  - rewrite setitem_Ok by (apply Hin; left). cbn [mbind result_bind].
    destruct (IH (<[i:=v]> l)) as (l' & -> & Hlen & Hl').
    { intros j Hj. rewrite length_insert. apply Hin. by right. }
    exists l'. rewrite length_insert in Hlen. split; [done|]. split; [done|].
    intros j. rewrite Hl'. destruct (decide (j ∈ idxs)) as [Hj|Hj].
    + rewrite decide_True; [done|by right].
    + destruct (decide (j = i)) as [->|Hne].
      * rewrite decide_True by left.
        apply list_lookup_insert_eq, Hin. left.
      * rewrite decide_False by (rewrite elem_of_cons; tauto).
        by apply list_lookup_insert_ne.
Qed.

(** [write_cell] stores [v] at the tokens of the cell and nowhere else. *)
Lemma write_cell_spec {A} column_ids row_ids (c r : nat) (v : A) l :
  length row_ids = length column_ids ->
  length l = length column_ids ->
  exists l',
    write_cell column_ids row_ids c r v l = Ok l'
    /\ length l' = length l
    /\ forall j,
         l' !! j
         = if decide (is_cell_token column_ids row_ids
                        (Z.of_nat c) (Z.of_nat r) j)
           then Some v else l !! j.
Proof.
  intros Hlen Hl. unfold write_cell.
  rewrite _get_cell_token_indexes_Ok by done. cbn.
  destruct (foldM_setitem v
              (cell_token_indexes column_ids row_ids (Z.of_nat c)
                 (Z.of_nat r)) l) as (l' & -> & ? & Hl').
  { intros i [Hi _]%elem_of_cell_token_indexes.
    rewrite Hl. by eapply lookup_lt_Some. }
  exists l'. split; [done|]. split; [done|]. intros j. rewrite Hl'.
  destruct (decide (j ∈ _)) as [Hj|Hj];
    rewrite elem_of_cell_token_indexes in Hj.
  - by rewrite decide_True.
  - by rewrite decide_False.
Qed.

(** ** Sets kept as lists *)

Section set_add.
Context `{EqDecision A}.
Implicit Types (x y : A) (s : list A).

Lemma elem_of_set_add x y s : x ∈ set_add y s <-> x = y \/ x ∈ s.
Proof.
  unfold set_add. case_decide.
  - split; [tauto|]. by intros [->|].
  - rewrite elem_of_app, list_elem_of_singleton. tauto.
Qed.

Lemma NoDup_set_add y s : NoDup s -> NoDup (set_add y s).
Proof.
  intros Hs. unfold set_add. case_decide; [done|].
  apply list.NoDup_app. split; [done|].
  split; [|apply NoDup_singleton].
  intros x Hx ->%list_elem_of_singleton. done.
Qed.

Lemma set_add_idemp y s : set_add y (set_add y s) = set_add y s.
Proof.
  unfold set_add at 1. rewrite decide_True; [done|].
  apply elem_of_set_add. by left.
Qed.

Lemma NoDup_subset_length s1 s2 :
  NoDup s1 -> (forall x, x ∈ s1 -> x ∈ s2) ->
  (length s1 <= length s2)%nat.
Proof. intros. by apply submseteq_length, NoDup_submseteq. Qed.

Lemma NoDup_subset_missing s1 s2 y :
  NoDup s1 -> NoDup s2 -> (forall x, x ∈ s1 -> x ∈ s2) ->
  y ∈ s2 -> y ∉ s1 -> (length s1 < length s2)%nat.
Proof.
  intros H1 H2 Hsub Hy Hny.
  destruct (decide (length s2 <= length s1)%nat) as [Hle|]; [|lia].
  destruct Hny.
  assert (s1 ≡ₚ s2) as Hp; [|by rewrite Hp].
  apply submseteq_length_Permutation; [|done]. by apply NoDup_submseteq.
Qed.
End set_add.

(** ** Answer alignment in coordinate mode *)

Section answers.
Variables (column_ids row_ids : list Z).
Hypothesis Hlen : length row_ids = length column_ids.

Lemma mark_answer_tokens (a : Z * Z) idxs answer_ids found all_answers :
  (forall i, i ∈ idxs -> (i < length answer_ids)%nat) ->
  exists answer_ids',
    foldM (fun '((answer_ids, found_answers, all_answers)
                   : list Z * list (Z * Z) * list (Z * Z)) index =>
             answer_ids ← setitem answer_ids index 1;
             Ok (answer_ids, set_add a found_answers, all_answers))
      (answer_ids, found, all_answers) idxs
    = Ok (answer_ids',
          match idxs with [] => found | _ => set_add a found end,
          all_answers)
    /\ length answer_ids' = length answer_ids
    /\ forall j,
         answer_ids' !! j
         = if decide (j ∈ idxs) then Some 1 else answer_ids !! j.
Proof.
  revert answer_ids found.
  induction idxs as [|i idxs IH]; intros answer_ids found Hin;
    cbn [foldM].
  - exists answer_ids. split; [done|]. split; [done|]. intros j.
    by rewrite decide_False by apply not_elem_of_nil.
  - rewrite setitem_Ok by (apply Hin; left). cbn [mbind result_bind].
    destruct (IH (<[i:=1]> answer_ids) (set_add a found))
      as (ids' & -> & Hl & Hids).
    { intros j Hj. rewrite length_insert. apply Hin. by right. }
    exists ids'. rewrite length_insert in Hl. split.
    { f_equal. f_equal. f_equal. destruct idxs; [done|apply set_add_idemp]. }
    split; [done|]. intros j. rewrite Hids.
    destruct (decide (j ∈ idxs)) as [Hj|Hj].
    + rewrite decide_True; [done|by right].
    + destruct (decide (j = i)) as [->|Hne].
      * rewrite decide_True by left.
        apply list_lookup_insert_eq, Hin. left.
      * rewrite decide_False by (rewrite elem_of_cons; tauto).
        by apply list_lookup_insert_ne.
Qed.

Lemma _get_all_answer_ids_from_coordinates_spec answers_list :
  exists answer_ids found all_answers,
    _get_all_answer_ids_from_coordinates column_ids row_ids answers_list
    = Ok (answer_ids, (length all_answers - length found)%nat)
    /\ answers_inv column_ids row_ids answers_list (answer_ids, found, all_answers).
Proof.
  unfold _get_all_answer_ids_from_coordinates.
  edestruct (foldM_inv_prefix (answers_inv column_ids row_ids)) as ([[ids found] alls] & -> & Hinv);
    [| |by exists ids, found, alls].
  - cbn. rewrite length_replicate. split_and!.
    + done.
    + intros a j Ha. by apply elem_of_nil in Ha.
    + intros j Hj _. by apply lookup_replicate_2.
    + apply NoDup_nil_2.
    + intros a. rewrite elem_of_nil. tauto.
    + apply NoDup_nil_2.
    + intros a. rewrite elem_of_nil. tauto.
  - intros done [c r] [[ids found] alls] _
      (Hl & Hone & Hzero & Hnd & Hall & Hndf & Hfound).
    rewrite _get_cell_token_indexes_Ok by done. cbn [mbind result_bind].
    destruct (mark_answer_tokens (c, r)
                (cell_token_indexes column_ids row_ids c r)
                ids found (set_add (c, r) alls))
      as (ids' & -> & Hl' & Hids').
    { intros i [Hi _]%elem_of_cell_token_indexes.
      rewrite Hl. by eapply lookup_lt_Some. }
    eexists. split; [done|]. cbn.
    assert (forall j, j ∈ cell_token_indexes column_ids row_ids c r
                      <-> cell_token column_ids row_ids (c, r) j) as Hcell.
    { intros j. apply elem_of_cell_token_indexes. }
    split; [congruence|]. split; [|split; [|split; [|split; [|split]]]].
    + intros a j [Ha| ->%list_elem_of_singleton]%elem_of_app Hj;
        rewrite Hids'.
      * case_decide; [done|]. by eapply Hone.
      * rewrite decide_True; [done|]. by apply Hcell.
    + intros j Hj Hno. rewrite Hids', decide_False.
      * apply Hzero; [done|]. intros a Ha. apply Hno.
        apply elem_of_app. by left.
      * rewrite Hcell. apply Hno. apply elem_of_app. right. by left.
    + by apply NoDup_set_add.
    + intros a. rewrite elem_of_set_add, elem_of_app,
        list_elem_of_singleton, Hall. tauto.
    + destruct (cell_token_indexes column_ids row_ids c r);
        [done|by apply NoDup_set_add].
    + intros a. rewrite elem_of_app, list_elem_of_singleton.
      destruct (cell_token_indexes column_ids row_ids c r) as [|i idxs]
        eqn:Hidx.
      * rewrite Hfound. split; [intros [? ?]; split; [by left|done]|].
        intros [[?| ->] [j Hj]]; [by split; [|exists j]|].
        apply Hcell in Hj. by apply elem_of_nil in Hj.
      * rewrite elem_of_set_add, Hfound. split.
        -- intros [->|[? ?]]; [|by split; [left|]].
           split; [by right|]. exists i. apply Hcell. left.
        -- intros [[?| ->] ?]; [right|left]; done.
Qed.
End answers.

(** C9. Coordinate-mode answer alignment. The answer coordinates are given
    as (row, column) pairs and name the cell (column, row). When every named
    cell has at least one token in the sequence, the call returns label ids
    of the length of the sequence in which every token of every named cell
    is 1 and every other position is 0. When some named cell has no token
    left (dropped by the budget fitter, say), the call fails. *)
Theorem coordinate_answer_alignment column_ids row_ids answer_coordinates :
  length row_ids = length column_ids ->
  ((exists rc, rc ∈ answer_coordinates
               /\ forall i, ~ is_cell_token column_ids row_ids rc.2 rc.1 i) ->
   _get_answer_ids column_ids row_ids answer_coordinates
   = Raise (ValueError "Couldn't find all answers"))
  /\ ((forall rc, rc ∈ answer_coordinates ->
                  exists i, is_cell_token column_ids row_ids rc.2 rc.1 i) ->
      exists answer_ids,
        _get_answer_ids column_ids row_ids answer_coordinates = Ok answer_ids
        /\ length answer_ids = length column_ids
        /\ (forall rc i,
              rc ∈ answer_coordinates ->
              is_cell_token column_ids row_ids rc.2 rc.1 i ->
              answer_ids !! i = Some 1)
        /\ (forall i,
              (i < length column_ids)%nat ->
              (forall rc, rc ∈ answer_coordinates ->
                          ~ is_cell_token column_ids row_ids rc.2 rc.1 i) ->
              answer_ids !! i = Some 0)).
Proof.
  intros Hlen. unfold _get_answer_ids, _get_all_answer_ids.
  destruct (_get_all_answer_ids_from_coordinates_spec column_ids row_ids Hlen
              ((fun coords : Z * Z => (coords.2, coords.1))
                 <$> answer_coordinates))
    as (ids & found & alls & -> & Hl & Hone & Hzero & Hnd & Hall & Hndf
        & Hfound).
  cbn [mbind result_bind].
  assert (forall a, a ∈ found -> a ∈ alls) as Hsub.
  { intros a Ha. apply Hall. by apply Hfound. }
  split.
  - intros ([r c] & Hrc & Hno). rewrite decide_True; [done|].
    assert ((c, r) ∈ alls) as Hin.
    { apply Hall, list_elem_of_fmap. by exists (r, c). }
    assert ((c, r) ∉ found) as Hout.
    { intros [_ [j Hj]]%Hfound. by apply (Hno j). }
    pose proof (NoDup_subset_missing found alls (c, r) Hndf Hnd Hsub Hin Hout).
    lia.
  - intros Hsome. exists ids. rewrite decide_False.
    + split; [done|]. split; [done|]. split.
      * intros [r c] i Hrc Hi. apply (Hone (c, r)); [|done].
        apply list_elem_of_fmap. by exists (r, c).
      * intros i Hi Hno. apply Hzero; [done|].
        intros a ([r c] & -> & Hrc)%list_elem_of_fmap. by apply (Hno (r, c)).
    + assert (length alls <= length found)%nat; [|lia].
      apply NoDup_subset_length; [done|]. intros a Ha. apply Hfound.
      apply Hall in Ha. split; [done|].
      apply list_elem_of_fmap in Ha as ([r c] & -> & Hrc).
      by apply (Hsome (r, c)).
Qed.

Lemma coordinate_answer_alignment_witness :
  let column_ids := [0; 0; 0; 1; 2; 1; 2] in
  let row_ids := [0; 0; 0; 0; 0; 1; 1] in
  length row_ids = length column_ids
  /\ _get_answer_ids column_ids row_ids [(0, 1); (1, 0)]
     = Raise (ValueError "Couldn't find all answers")
  /\ exists answer_ids,
       _get_answer_ids column_ids row_ids [(0, 1)] = Ok answer_ids
       /\ answer_ids !! 6%nat = Some 1.
Proof.
  intros column_ids row_ids.
  assert (length row_ids = length column_ids) as Hlen by reflexivity.
  split; [exact Hlen|]. split.
  - apply (coordinate_answer_alignment column_ids row_ids _ Hlen).
    exists (1, 0). split; [right; left|].
    intros i [Hc Hr].
    do 7 (destruct i as [|i]; [vm_compute in Hr; congruence|]).
    vm_compute in Hr. congruence.
  - destruct (coordinate_answer_alignment column_ids row_ids [(0, 1)] Hlen)
      as [_ Hok].
    destruct Hok as (ids & Hids & _ & Hone & _).
    + intros rc ->%list_elem_of_singleton. by exists 6%nat.
    + exists ids. split; [exact Hids|].
      apply (Hone (0, 1)); [left|]. by split.
Defined.

(** ** Sort-key unifier *)

Lemma _get_all_types_from acc numeric_values :
  NoDup acc ->
  match foldM (fun types value =>
                 t ← _get_value_type value; Ok (set_add t types))
          acc numeric_values with
  | Ok types =>
      NoDup types
      /\ forall t, t ∈ types
                   <-> t ∈ acc
                       \/ exists v, v ∈ numeric_values
                                    /\ _get_value_type v = Ok t
  | Raise e => e = ValueError "Unknown type"
  end.
Proof.
  revert acc. induction numeric_values as [|v vs IH]; intros acc Hacc;
    cbn [foldM].
  - split; [done|]. intros t. split; [by left|].
    intros [?|(v & Hv%elem_of_nil & _)]; done.
  - destruct (_get_value_type v) as [t|e] eqn:Ht; cbn [mbind result_bind].
    + specialize (IH (set_add t acc) (NoDup_set_add _ _ Hacc)).
      destruct (foldM _ (set_add t acc) vs) as [types|e]; [|done].
      destruct IH as [Hnd Htypes]. split; [done|]. intros t'.
      rewrite Htypes, elem_of_set_add. split.
      * intros [[->|?]|(w & Hw & ?)]; [right|by left|right].
        -- exists v. split; [left|done].
        -- exists w. split; [by right|done].
      * intros [?|(w & [->|Hw]%elem_of_cons & Hwt)].
        -- by left; right.
        -- left; left. congruence.
        -- right. by exists w.
    + unfold _get_value_type in Ht. by repeat case_match; simplify_eq.
Qed.

Lemma _get_value_type_date d : _get_value_type (date_value d) = Ok DATE_TYPE.
Proof. done. Qed.

Lemma _get_all_types_dates dates :
  dates ≠ [] -> _get_all_types (date_value <$> dates) = Ok [DATE_TYPE].
Proof.
  intros Hne. unfold _get_all_types.
  pose proof (_get_all_types_from [] (date_value <$> dates) (NoDup_nil_2))
    as H.
  destruct (foldM _ [] (date_value <$> dates)) as [types|e] eqn:Hrun.
  - destruct H as [Hnd Htypes]. f_equal.
    assert (forall t, t ∈ types <-> t = DATE_TYPE) as Hiff.
    { intros t. rewrite Htypes. split.
      - intros [[]%elem_of_nil|(v & (d & -> & _)%list_elem_of_fmap & Hv)].
        rewrite _get_value_type_date in Hv. congruence.
      - intros ->. right. destruct dates as [|d dates]; [done|].
        exists (date_value d). split; [left|done]. }
    destruct types as [|t [|t' types]].
    + pose proof (proj2 (Hiff DATE_TYPE) eq_refl) as Hin.
      by apply elem_of_nil in Hin.
    + f_equal. apply Hiff. left.
    + apply NoDup_cons in Hnd as [Hnin _]. destruct Hnin.
      rewrite (proj1 (Hiff t)) by left.
      rewrite <-(proj1 (Hiff t')) by (right; left). left.
  - exfalso. clear H. revert Hrun. generalize (@nil ValueType).
    induction dates as [|d dates IH]; [done|]. intros acc. cbn.
    destruct dates as [|d' dates]; [done|]. by apply IH.
Qed.

Lemma filter_ext_in {A} (P Q : A -> Prop) `{!forall x, Decision (P x)}
  `{!forall x, Decision (Q x)} (l : list A) :
  (forall x, x ∈ l -> P x <-> Q x) -> filter P l = filter Q l.
Proof.
  induction l as [|x l IH]; intros Hext; [done|].
  rewrite !filter_cons. rewrite IH by (intros y Hy; apply Hext; by right).
  assert (P x <-> Q x) as HPQ by (apply Hext; left).
  destruct (decide (P x)) as [HP|HP], (decide (Q x)) as [HQ|HQ];
    try done; tauto.
Qed.

Lemma is_unset_date_tuple d i :
  (i < 3)%nat ->
  is_unset [float_of_Z <$> year d; float_of_Z <$> month d;
            float_of_Z <$> day d] i = false
  <-> is_Some (date_field d i).
Proof.
  intros Hi. unfold is_unset.
  do 3 (destruct i as [|i];
        [cbn; destruct (_ d); cbn; split; try done; by intros [? ?]|]).
  lia.
Qed.

Lemma discard_unset_step ds d :
  discard_unset (common_fields ds) (date_value d)
  = Ok (common_fields (ds ++ [d])).
Proof.
  unfold discard_unset, common_fields; cbn [mbind result_bind]. cbn -[filter].
  f_equal. rewrite list_filter_filter. apply filter_ext_in. intros i Hi.
  assert (i < 3)%nat as Hlt.
  { apply (elem_of_seq 0 3 i) in Hi. lia. }
  rewrite Forall_app, Forall_singleton, (is_unset_date_tuple d i Hlt). tauto.
Qed.

Lemma discard_unset_from ds dates :
  foldM discard_unset (common_fields ds) (date_value <$> dates)
  = Ok (common_fields (ds ++ dates)).
Proof.
  revert ds. induction dates as [|d dates IH]; intros ds; cbn [foldM fmap list_fmap].
  - by rewrite app_nil_r.
  - rewrite discard_unset_step. cbn [mbind result_bind].
    rewrite IH. by rewrite <-app_assoc.
Qed.

Lemma discard_unset_dates dates :
  foldM discard_unset (seq 0 _DATE_TUPLE_SIZE) (date_value <$> dates)
  = Ok (common_fields dates).
Proof. apply (discard_unset_from [] dates). Qed.

Lemma mapM_getitem {A} (t : list A) idxs :
  (forall i, i ∈ idxs -> is_Some (t !! i)) ->
  exists items,
    mapM (M := result) (getitem t) idxs = Ok items
    /\ (Some <$> items) = (fun i => t !! i) <$> idxs.
Proof.
  induction idxs as [|i idxs IH]; intros Hin; cbn.
  - by exists [].
  - destruct (Hin i) as [x Hx]; [left|].
    rewrite (getitem_Some _ _ _ Hx). cbn.
    destruct IH as (items & -> & Hitems).
    { intros j Hj. apply Hin. by right. }
    cbn. exists (x :: items). split; [done|]. cbn. by rewrite Hx, Hitems.
Qed.

Lemma _sort_key_fn_date valid d :
  (forall i, i ∈ valid -> (i < 3)%nat) ->
  _sort_key_fn valid (date_value d)
  = Ok (PTuple ((fun i => float_of_Z <$> date_field d i) <$> valid)).
Proof.
  intros Hvalid. unfold _sort_key_fn. cbn [mbind result_bind].
  cbn -[mapM].
  edestruct (mapM_getitem
               [float_of_Z <$> year d; float_of_Z <$> month d;
                float_of_Z <$> day d] valid) as (items & -> & Hitems).
  { intros i Hi. apply Hvalid in Hi.
    destruct i as [|[|[|?]]]; [by eexists..|lia]. }
  cbn. do 2 f_equal. apply (inj (fmap Some)). rewrite Hitems.
  rewrite <-list_fmap_compose. apply list_fmap_ext. intros k i Hi. cbn.
  apply list_elem_of_lookup_2, Hvalid in Hi.
  destruct i as [|[|[|?]]]; [done..|lia].
Qed.

Lemma common_fields_lt dates i : i ∈ common_fields dates -> (i < 3)%nat.
Proof.
  unfold common_fields. intros [_ Hi]%list_elem_of_filter.
  apply (elem_of_seq 0 3 i) in Hi. lia.
Qed.

(** C8. Building the sort key fails when the values hold both a number and
    a date, and fails when the values are dates with no field (year, month,
    day) set in all of them. For dates with a common field the key function
    is returned, and it maps a date to the tuple of its fields at the
    indexes set in every value, in the order (year, month, day). *)
Theorem sort_key_unifier :
  (forall values v w,
     v ∈ values -> w ∈ values ->
     is_Some (float_value v) ->
     float_value w = None -> is_Some (date w) ->
     exists msg, get_numeric_sort_key_fn values = Raise (ValueError msg))
  /\ (forall dates,
        dates ≠ [] -> common_fields dates = [] ->
        get_numeric_sort_key_fn (date_value <$> dates)
        = Raise (ValueError "No common value"))
  /\ (forall dates,
        dates ≠ [] -> common_fields dates ≠ [] ->
        exists key_fn,
          get_numeric_sort_key_fn (date_value <$> dates) = Ok key_fn
          /\ forall d,
               key_fn (date_value d)
               = Ok (PTuple ((fun i => float_of_Z <$> date_field d i)
                               <$> common_fields dates))).
Proof.
  split; [|split].
  - intros values v w Hv Hw [f Hf] Hnone [d Hd].
    unfold get_numeric_sort_key_fn, _get_all_types.
    pose proof (_get_all_types_from [] values (NoDup_nil_2)) as H.
    destruct (foldM _ [] values) as [types|e]; cbn [mbind result_bind].
    + destruct H as [Hnd Htypes].
      assert (NUMBER_TYPE ∈ types) as Hnum.
      { apply Htypes. right. exists v. split; [done|].
        unfold _get_value_type. by rewrite Hf. }
      assert (DATE_TYPE ∈ types) as Hdate.
      { apply Htypes. right. exists w. split; [done|].
        unfold _get_value_type. by rewrite Hnone, Hd. }
      destruct types as [|t [|t' types]]; [by eexists| |by eexists].
      apply list_elem_of_singleton in Hnum, Hdate. congruence.
    + subst e. by eexists.
  - intros dates Hne Hnil. unfold get_numeric_sort_key_fn.
    rewrite _get_all_types_dates by done. cbn [mbind result_bind].
    rewrite decide_False by done.
    by rewrite discard_unset_dates, Hnil.
  - intros dates Hne Hcommon. unfold get_numeric_sort_key_fn.
    rewrite _get_all_types_dates by done. cbn [mbind result_bind].
    rewrite decide_False by done.
    rewrite discard_unset_dates. cbn [mbind result_bind].
    exists (_sort_key_fn (common_fields dates)). split.
    + by destruct (common_fields dates).
    + intros d. apply _sort_key_fn_date, common_fields_lt.
Qed.

Lemma sort_key_unifier_witness :
  let august_2007 := mkDate (Some 2007) (Some 8) None in
  let year_2010 := mkDate (Some 2010) None None in
  let august := mkDate None (Some 8) None in
  (exists msg,
     get_numeric_sort_key_fn
       [_get_numeric_value_from_float (float_of_Z 3); date_value year_2010]
     = Raise (ValueError msg))
  /\ get_numeric_sort_key_fn (date_value <$> [year_2010; august])
     = Raise (ValueError "No common value")
  /\ exists key_fn,
       get_numeric_sort_key_fn (date_value <$> [august_2007; year_2010])
       = Ok key_fn
       /\ key_fn (date_value august_2007) = Ok (PTuple [Some (float_of_Z 2007)]).
Proof.
  intros august_2007 year_2010 august.
  destruct sort_key_unifier as (Hmixed & Hnone & Hkey). split; [|split].
  - apply (Hmixed _ (_get_numeric_value_from_float (float_of_Z 3))
             (date_value year_2010)).
    + left.
    + right; left.
    + by eexists.
    + reflexivity.
    + by eexists.
  - apply Hnone; [done|]. reflexivity.
  - destruct (Hkey [august_2007; year_2010]) as (key_fn & Hfn & Hval).
    + done.
    + vm_compute. done.
    + exists key_fn. split; [exact Hfn|]. rewrite Hval. reflexivity.
Defined.

(** ** Writes to the tokens of cells *)

Lemma foldM_setitem_Ok {A} (v : A) idxs l l' :
  foldM (fun l i => setitem l i v) l idxs = Ok l' ->
  length l' = length l /\ forall j, j ∉ idxs -> l' !! j = l !! j.
Proof.
  intros Hrun.
  apply (foldM_inv_Ok
           (fun l' => length l' = length l
                      /\ forall j, j ∉ idxs -> l' !! j = l !! j)
           _ _ _ _ Hrun); [done|].
  intros l1 i l2 Hi [Hlen Hsame]. unfold setitem. case_decide; [|done].
  intros [= <-]. rewrite length_insert. split; [done|].
  intros j Hj. rewrite list_lookup_insert_ne by (by intros ->). by apply Hsame.
Qed.

(** Whatever [write_cell] returns differs from its input at tokens of the
    cell only. *)
Lemma write_cell_Ok {A} column_ids row_ids (c r : nat) (v : A) l l' :
  write_cell column_ids row_ids c r v l = Ok l' ->
  length l' = length l
  /\ forall j,
       ~ is_cell_token column_ids row_ids (Z.of_nat c) (Z.of_nat r) j ->
       l' !! j = l !! j.
Proof.
  unfold write_cell. intros (idxs & Hidxs & Hrun)%bind_Ok.
  apply _get_cell_token_indexes_inv in Hidxs as ->.
  apply foldM_setitem_Ok in Hrun as [Hlen Hsame].
  split; [done|]. intros j Hj. apply Hsame.
  by rewrite elem_of_cell_token_indexes.
Qed.

(** Position [j] is outside every data cell: its column id or its row id is
    below 1 (or missing). *)
Lemma not_cell_token column_ids row_ids j (c r : nat) :
  ~ (exists cid rid,
       column_ids !! j = Some cid /\ row_ids !! j = Some rid
       /\ 1 <= cid /\ 1 <= rid) ->
  ~ is_cell_token column_ids row_ids (Z.of_nat c) (Z.of_nat r) j.
Proof.
  intros Hno [Hc Hr]. apply Hno.
  exists (Z.of_nat c + 1), (Z.of_nat r + 1). repeat split; try done; lia.
Qed.

(** ** The numeric features leave the positions outside the cells alone *)

Section outside.
Variables (column_ids row_ids : list Z).

Lemma same_outside_cells_refl {A} (l : list A) :
  same_outside_cells column_ids row_ids l l.
Proof. by split. Qed.

Lemma same_outside_cells_write {A} (c r : nat) (v : A) l0 l l' :
  same_outside_cells column_ids row_ids l0 l ->
  write_cell column_ids row_ids c r v l = Ok l' ->
  same_outside_cells column_ids row_ids l0 l'.
Proof.
  intros [Hlen Hsame] [Hlen' Hsame']%write_cell_Ok. split; [congruence|].
  intros j Hj. rewrite Hsame' by apply Hj. by apply Hsame.
Qed.

Lemma rank_column_outside col_index keys ranks inv_ranks ranks' inv_ranks' :
  rank_column column_ids row_ids col_index keys ranks inv_ranks
  = Ok (ranks', inv_ranks') ->
  same_outside_cells column_ids row_ids ranks ranks'
  /\ same_outside_cells column_ids row_ids inv_ranks inv_ranks'.
Proof.
  unfold rank_column. intros Hrun.
  apply (foldM_inv_Ok
           (fun s => same_outside_cells column_ids row_ids ranks s.1
                     /\ same_outside_cells column_ids row_ids inv_ranks s.2)
           _ _ _ _ Hrun); [by split|].
  clear Hrun. intros [r0 i0] [rank value] [r1 i1] _ Hinv.
  cbn [fst snd] in *. intros (rows_ & _ & Hrows)%bind_Ok.
  apply (foldM_inv_Ok
           (fun s => same_outside_cells column_ids row_ids ranks s.1
                     /\ same_outside_cells column_ids row_ids inv_ranks s.2)
           _ _ _ _ Hrows); [done|].
  clear. intros [r0 i0] row [r1 i1] _ [Hr Hi]. cbn [fst snd] in *.
  intros (r2 & Hw1 & (i2 & Hw2 & [= <- <-])%bind_Ok)%bind_Ok.
  split; by eapply same_outside_cells_write.
Qed.

Lemma _add_numeric_column_ranks_outside P table ranks inv_ranks c2nv :
  _add_numeric_column_ranks P column_ids row_ids table
  = Ok (ranks, inv_ranks, c2nv) ->
  same_outside_cells column_ids row_ids
    (replicate (length column_ids) 0) ranks
  /\ same_outside_cells column_ids row_ids
       (replicate (length column_ids) 0) inv_ranks.
Proof.
  unfold _add_numeric_column_ranks. intros Hrun.
  apply (foldM_inv_Ok
           (fun s : rank_state =>
              same_outside_cells column_ids row_ids
                (replicate (length column_ids) 0) s.1.1
              /\ same_outside_cells column_ids row_ids
                   (replicate (length column_ids) 0) s.1.2)
           _ _ _ _ Hrun); [by split|].
  clear. intros [[r0 i0] c0] col [[r1 i1] c1] _ [Hr Hi]. cbn [fst snd] in *.
  destruct (_get_column_values _) as [|x tnv]; [by intros [= <- <- <-]|].
  destruct (get_numeric_sort_key_fn _) as [key_fn|[]];
    try done; try by intros [= <- <- <-].
  intros (keys & _ & ([r2 i2] & Hcol & [= <- <- <-])%bind_Ok)%bind_Ok.
  apply rank_column_outside in Hcol as [[? Hr'] [? Hi']].
  destruct Hr as [? Hr], Hi as [? Hi].
  split; (split; [congruence|]); intros j Hj;
    [rewrite Hr'|rewrite Hi']; auto.
Qed.

Lemma _add_numeric_relations_outside P question table c2nv relations :
  _add_numeric_relations P question column_ids row_ids table c2nv
  = Ok relations ->
  same_outside_cells column_ids row_ids
    (replicate (length column_ids) 0) relations.
Proof.
  unfold _add_numeric_relations.
  intros (rels & _ & Hrun)%bind_Ok.
  apply (foldM_inv_Ok
           (same_outside_cells column_ids row_ids
              (replicate (length column_ids) 0))
           _ _ _ _ Hrun); [by split|].
  clear. intros l [[c r] rs] l' _ Hl (idx & _ & Hw)%bind_Ok.
  by eapply same_outside_cells_write.
Qed.

Lemma _add_numeric_values_outside self table c2nv numeric_values :
  _add_numeric_values self table column_ids row_ids c2nv
  = Ok numeric_values ->
  same_outside_cells column_ids row_ids
    (replicate (model_max_length self) FNaN) numeric_values.
Proof.
  unfold _add_numeric_values, shape. intros Hrun.
  apply (foldM_inv_Ok
           (same_outside_cells column_ids row_ids
              (replicate (model_max_length self) FNaN))
           _ _ _ _ Hrun); [by split|].
  clear. intros l col l' _ Hl (cv & _ & Hcol)%bind_Ok.
  destruct cv as [|x cv]; [by injection Hcol as <-|].
  apply (foldM_inv_Ok
           (same_outside_cells column_ids row_ids
              (replicate (model_max_length self) FNaN))
           _ _ _ _ Hcol); [done|].
  clear. intros l row l' _ Hl (nv & _ & Hrow)%bind_Ok.
  destruct (float_value nv) as [f|]; [|by injection Hrow as <-].
  destruct (float_eqb f FPosInf); [by injection Hrow as <-|].
  by eapply same_outside_cells_write.
Qed.

Lemma _add_numeric_values_scale_outside self table scale :
  _add_numeric_values_scale self table column_ids row_ids = Ok scale ->
  same_outside_cells column_ids row_ids
    (replicate (model_max_length self) (float_of_Z 1)) scale.
Proof.
  unfold _add_numeric_values_scale, shape. intros Hrun.
  apply (foldM_inv_Ok
           (same_outside_cells column_ids row_ids
              (replicate (model_max_length self) (float_of_Z 1)))
           _ _ _ _ Hrun); [by split|].
  clear. intros l col l' _ Hl Hcol.
  apply (foldM_inv_Ok
           (same_outside_cells column_ids row_ids
              (replicate (model_max_length self) (float_of_Z 1)))
           _ _ _ _ Hcol); [done|].
  clear. intros l row l' _ [Hlen Hl] (idxs & Hidxs & Hrow)%bind_Ok.
  case_decide; [|by injection Hrow as <-].
  apply foldM_setitem_Ok in Hrow as [Hlen' Hl'].
  apply _get_cell_token_indexes_inv in Hidxs as ->.
  split; [congruence|]. intros j Hj.
  rewrite Hl'; [by apply Hl|].
  rewrite elem_of_cell_token_indexes. apply Hj.
Qed.
End outside.

(** ** Padding and the feature bundle *)

Lemma _pad_to_seq_length_length self inputs :
  length (_pad_to_seq_length self inputs) = model_max_length self.
Proof.
  unfold _pad_to_seq_length.
  rewrite length_app, length_take, length_replicate. lia.
Qed.

Lemma _pad_to_seq_length_lookup self inputs j :
  (j < length inputs)%nat -> (j < model_max_length self)%nat ->
  _pad_to_seq_length self inputs !! j = inputs !! j.
Proof.
  intros Hj Hmax. unfold _pad_to_seq_length.
  rewrite lookup_app_l by (rewrite length_take; lia).
  by apply lookup_take_lt.
Qed.

Lemma _pad_to_seq_length_pad self inputs j :
  (length inputs <= j)%nat -> (j < model_max_length self)%nat ->
  _pad_to_seq_length self inputs !! j = Some 0.
Proof.
  intros Hj Hmax. unfold _pad_to_seq_length.
  rewrite lookup_app_r by (rewrite length_take; lia).
  apply lookup_replicate_2. rewrite length_take. lia.
Qed.

Lemma _to_features_spec self P toks cids rids segs table question f :
  _to_features self P toks cids rids segs table question = Ok f ->
  let column_ids := _pad_to_seq_length self cids in
  let row_ids := _pad_to_seq_length self rids in
  let n := model_max_length self in
  length cids = length toks /\ length rids = length toks
  /\ length segs = length toks
  /\ f_input_ids f
     = _pad_to_seq_length self (convert_tokens_to_ids self toks)
  /\ f_attention_mask f
     = _pad_to_seq_length self
         (replicate (length (convert_tokens_to_ids self toks)) 1)
  /\ f_column_ids f = column_ids /\ f_row_ids f = row_ids
  /\ f_segment_ids f = _pad_to_seq_length self segs
  /\ same_outside_cells column_ids row_ids (replicate n 0)
       (f_column_ranks f)
  /\ same_outside_cells column_ids row_ids (replicate n 0)
       (f_inv_column_ranks f)
  /\ same_outside_cells column_ids row_ids (replicate n 0)
       (f_numeric_relations f)
  /\ same_outside_cells column_ids row_ids (replicate n FNaN)
       (f_numeric_values f)
  /\ same_outside_cells column_ids row_ids (replicate n (float_of_Z 1))
       (f_numeric_values_scale f)
  /\ f_label_ids f = None /\ f_prev_label_ids f = None.
Proof.
  unfold _to_features. case_decide as Hlen; [done|].
  intros ([[ranks inv_ranks] c2nv] & Hranks
          & (rels & Hrels
             & (nvs & Hnvs & (scale & Hscale & [= <-])%bind_Ok)%bind_Ok)
              %bind_Ok)%bind_Ok.
  cbn [f_input_ids f_attention_mask f_column_ids f_row_ids f_segment_ids
       f_column_ranks f_inv_column_ranks f_numeric_relations
       f_numeric_values f_numeric_values_scale f_label_ids
       f_prev_label_ids].
  apply _add_numeric_column_ranks_outside in Hranks as [Hr Hi].
  apply _add_numeric_relations_outside in Hrels.
  apply _add_numeric_values_outside in Hnvs.
  apply _add_numeric_values_scale_outside in Hscale.
  rewrite _pad_to_seq_length_length in Hr, Hi, Hrels.
  split_and!; try done;
    destruct (decide (length cids = length toks)),
      (decide (length rids = length toks)),
      (decide (length segs = length toks)); tauto.
Qed.

Lemma same_outside_cells_default {A} column_ids row_ids n (v : A) l j :
  same_outside_cells column_ids row_ids (replicate n v) l ->
  (j < n)%nat ->
  ~ (exists cid rid,
       column_ids !! j = Some cid /\ row_ids !! j = Some rid
       /\ 1 <= cid /\ 1 <= rid) ->
  l !! j = Some v.
Proof.
  intros [_ Hsame] Hj Hout. rewrite Hsame.
  - by apply lookup_replicate_2.
  - intros c r. by apply not_cell_token.
Qed.

(** C10. In the features built by [_to_features], every position whose
    column id and row id are not both at least 1 -- the CLS, question and
    SEP tokens, the header row (row id 0) and the padding -- keeps the
    defaults: rank 0, inverse rank 0, relation 0, numeric value NaN and
    scale 1.0. The numeric features differ from their defaults only at
    tokens of data cells. *)
Theorem numeric_features_default_outside_cells
  self P toks cids rids segs table question f j :
  _to_features self P toks cids rids segs table question = Ok f ->
  (j < model_max_length self)%nat ->
  ~ (exists cid rid,
       f_column_ids f !! j = Some cid /\ f_row_ids f !! j = Some rid
       /\ 1 <= cid /\ 1 <= rid) ->
  f_column_ranks f !! j = Some 0
  /\ f_inv_column_ranks f !! j = Some 0
  /\ f_numeric_relations f !! j = Some 0
  /\ f_numeric_values f !! j = Some FNaN
  /\ f_numeric_values_scale f !! j = Some (float_of_Z 1).
Proof.
  intros Hf Hj Hout.
  destruct (_to_features_spec _ _ _ _ _ _ _ _ _ Hf)
    as (_ & _ & _ & _ & _ & Hc & Hr & _ & H1 & H2 & H3 & H4 & H5 & _).
  rewrite Hc, Hr in Hout.
  split_and!; by eapply same_outside_cells_default.
Qed.

Lemma numeric_features_default_outside_cells_witness :
  let self := toy_tokenizer 8 (-1) false false in
  let table := data_frame ["Age"] [["30"]; ["25"]] in
  exists f,
    _to_features self digits_parser
      ["[CLS]"; "30"; "[SEP]"; "Age"; "30"; "25"]
      [0; 0; 0; 1; 1; 1] [0; 0; 0; 0; 1; 2] [0; 0; 0; 1; 1; 1] table "30"
    = Ok f
    /\ f_column_ranks f !! 3%nat = Some 0
    /\ f_numeric_values f !! 3%nat = Some FNaN
    /\ f_column_ranks f !! 4%nat = Some 2.
Proof.
  intros self table.
  destruct (_to_features self digits_parser
              ["[CLS]"; "30"; "[SEP]"; "Age"; "30"; "25"]
              [0; 0; 0; 1; 1; 1] [0; 0; 0; 0; 1; 2] [0; 0; 0; 1; 1; 1]
              table "30") as [f|e] eqn:Hf; [|by vm_compute in Hf].
  exists f. split; [done|].
  assert (f_row_ids f !! 3%nat = Some 0
          /\ f_column_ranks f !! 4%nat = Some 2) as [Hrow Hrank].
  { vm_compute in Hf. injection Hf as <-. by split. }
  destruct (numeric_features_default_outside_cells _ _ _ _ _ _ _ _ f 3 Hf)
    as (H1 & _ & _ & H4 & _).
  - cbn. lia.
  - intros (cid & rid & _ & Hr & _ & Hle). rewrite Hrow in Hr.
    injection Hr as <-. lia.
  - by split_and!.
Defined.

Lemma _to_features_length self P toks cids rids segs table question f :
  _to_features self P toks cids rids segs table question = Ok f ->
  features_have_length (model_max_length self) f.
Proof.
  intros Hf.
  destruct (_to_features_spec _ _ _ _ _ _ _ _ _ Hf)
    as (_ & _ & _ & Ha & Hb & Hc & Hd & He & [H1 _] & [H2 _] & [H3 _]
        & [H4 _] & [H5 _] & Hl & Hp).
  rewrite length_replicate in H1; rewrite length_replicate in H2;
    rewrite length_replicate in H3; rewrite length_replicate in H4;
    rewrite length_replicate in H5.
  unfold features_have_length. rewrite Ha, Hb, Hc, Hd, He, Hl, Hp.
  rewrite !_pad_to_seq_length_length. by split_and!.
Qed.

Lemma _to_features_padded self P toks cids rids segs table question f j :
  _to_features self P toks cids rids segs table question = Ok f ->
  length (convert_tokens_to_ids self toks) = length toks ->
  (length toks <= j < model_max_length self)%nat ->
  padded_at j f.
Proof.
  intros Hf Hconv [Hj Hmax].
  destruct (_to_features_spec _ _ _ _ _ _ _ _ _ Hf)
    as (Hc & Hr & Hs & Ha & Hb & Hfc & Hfr & He & H1 & H2 & H3 & H4 & H5
        & _).
  assert (f_column_ids f !! j = Some 0) as Hcol.
  { rewrite Hfc. apply _pad_to_seq_length_pad; lia. }
  assert (~ (exists cid rid,
               _pad_to_seq_length self cids !! j = Some cid
               /\ _pad_to_seq_length self rids !! j = Some rid
               /\ 1 <= cid /\ 1 <= rid)) as Hout.
  { rewrite <-Hfc. intros (cid & rid & Hcid & _ & ? & _).
    rewrite Hcol in Hcid. injection Hcid as <-. lia. }
  unfold padded_at. rewrite Ha, Hb, He, Hfr. split_and!;
    try (apply _pad_to_seq_length_pad; rewrite ?length_replicate; lia);
    try done; by eapply same_outside_cells_default.
Qed.

Lemma with_labels_length n f label_ids prev_label_ids :
  features_have_length n f ->
  (forall l, label_ids = Some l -> length l = n) ->
  (forall l, prev_label_ids = Some l -> length l = n) ->
  features_have_length n (with_labels f label_ids prev_label_ids).
Proof.
  intros (? & ? & ? & ? & ? & ? & ? & ? & ? & ? & _ & _) Hl Hp.
  unfold features_have_length, with_labels; cbn. by split_and!.
Qed.

Lemma filter_none {A} (P : A -> Prop) `{!forall x, Decision (P x)}
  (l : list A) :
  (forall x, x ∈ l -> ~ P x) -> filter P l = [].
Proof.
  induction l as [|x l IH]; intros Hno; [done|].
  rewrite filter_cons, decide_False by (apply Hno; left).
  apply IH. intros y Hy. apply Hno. by right.
Qed.

(** ** Insertion sort under a strict total order on a domain *)

Section insertion_sort.
Context {A : Type} (ltb : A -> A -> bool) (D : A -> Prop).
Hypothesis ltb_irrefl : forall a, D a -> ltb a a = false.
Hypothesis ltb_trans :
  forall a b c, D a -> D b -> D c ->
                ltb a b = true -> ltb b c = true -> ltb a c = true.
Hypothesis ltb_total :
  forall a b, D a -> D b -> a ≠ b -> ltb a b = true \/ ltb b a = true.

Lemma insert_sorted_perm x l : insert_sorted ltb x l ≡ₚ x :: l.
Proof.
  induction l as [|y l IH]; cbn; [done|].
  destruct (ltb y x); [|done]. rewrite IH. apply Permutation_swap.
Qed.

Lemma sorted_perm l : sorted ltb l ≡ₚ l.
Proof.
  induction l as [|x l IH]; [done|].
  change (sorted ltb (x :: l)) with (insert_sorted ltb x (sorted ltb l)).
  by rewrite insert_sorted_perm, IH.
Qed.

Lemma insert_sorted_sorted x l :
  D x -> Forall D l -> x ∉ l ->
  StronglySorted (fun a b => ltb a b = true) l ->
  StronglySorted (fun a b => ltb a b = true) (insert_sorted ltb x l).
Proof.
  intros Hx. induction l as [|y l IH]; intros HD Hnin Hs; cbn.
  - by repeat constructor.
  - apply Forall_cons in HD as [Hy HD].
    apply StronglySorted_cons in Hs as [Hall Hs].
    apply not_elem_of_cons in Hnin as [Hne Hnin].
    destruct (ltb y x) eqn:Hyx.
    + apply StronglySorted_cons. split; [|by apply IH].
      rewrite insert_sorted_perm. by apply Forall_cons.
    + assert (ltb x y = true) as Hxy.
      { destruct (ltb_total x y Hx Hy Hne); [done|congruence]. }
      apply StronglySorted_cons. split.
      * apply Forall_cons. split; [done|].
        apply Forall_forall. intros z Hz.
        apply (ltb_trans x y z); try done.
        -- by apply (proj1 (Forall_forall _ _) HD).
        -- by apply (proj1 (Forall_forall _ _) Hall).
      * by apply StronglySorted_cons.
Qed.

Lemma sorted_sorted l :
  NoDup l -> Forall D l ->
  StronglySorted (fun a b => ltb a b = true) (sorted ltb l).
Proof.
  induction l as [|x l IH]; intros Hnd HD; [constructor|].
  apply NoDup_cons in Hnd as [Hnin Hnd].
  apply Forall_cons in HD as [Hx HD].
  change (sorted ltb (x :: l)) with (insert_sorted ltb x (sorted ltb l)).
  apply insert_sorted_sorted; try done.
  - by rewrite sorted_perm.
  - by rewrite sorted_perm.
  - by apply IH.
Qed.

(** In a strictly sorted list the position of an element is the number of
    elements below it. *)
Lemma sorted_index l i x :
  StronglySorted (fun a b => ltb a b = true) l -> Forall D l ->
  l !! i = Some x ->
  length (filter (fun y => ltb y x = true) l) = i.
Proof.
  revert i. induction l as [|y l IH]; intros i Hs HD Hi; [done|].
  apply StronglySorted_cons in Hs as [Hall Hs].
  apply Forall_cons in HD as [Hy HD].
  rewrite filter_cons. destruct i as [|i]; cbn in Hi.
  - injection Hi as ->. rewrite decide_False by (rewrite ltb_irrefl; done).
    apply length_zero_iff_nil, filter_none. intros z Hz Hzx.
    assert (ltb x z = true) as Hxz
      by (by apply (proj1 (Forall_forall _ _) Hall)).
    assert (D z) as HDz by (by apply (proj1 (Forall_forall _ _) HD)).
    pose proof (ltb_trans x z x Hy HDz Hy Hxz Hzx) as Hxx.
    rewrite ltb_irrefl in Hxx; done.
  - assert (ltb y x = true) as Hyx.
    { apply (proj1 (Forall_forall _ _) Hall). by eapply list_elem_of_lookup_2. }
    rewrite decide_True by done. cbn. f_equal. by apply IH.
Qed.
End insertion_sort.

(** ** Prediction decoder *)

Lemma foldM_pure_in {A S} (f : S -> A -> result S) (g : S -> A -> S) l s :
  (forall s a, a ∈ l -> f s a = Ok (g s a)) ->
  foldM f s l = Ok (foldl g s l).
Proof.
  revert s; induction l as [|a l IH]; intros s Hfg; cbn; [done|].
  rewrite Hfg by left. cbn. apply IH. intros s' a' Ha'. apply Hfg. by right.
Qed.

Lemma _get_cell_token_probs_from example acc s suffix :
  drop s example = suffix ->
  foldM (fun acc '(i, p) =>
           segment_id ← getitem (example_segment_ids example) i;
           column ← getitem (example_column_ids example) i;
           row ← getitem (example_row_ids example) i;
           if decide (column - 1 >= 0 /\ row - 1 >= 0 /\ segment_id = 1)
           then Ok (acc ++ [(i, p)])
           else Ok acc)
    acc (enumerate_from s (entry_probability <$> suffix))
  = Ok (acc
        ++ omap (fun '(i, e) =>
                   if decide (table_entry e)
                   then Some (i, entry_probability e) else None)
             (enumerate_from s suffix)).
Proof.
  revert acc s. induction suffix as [|e suffix IH]; intros acc s Hs;
    cbn [fmap list_fmap enumerate_from foldM omap list_omap].
  - by rewrite app_nil_r.
  - apply drop_eq_cons in Hs as [He Hs].
    rewrite (getitem_Some (example_segment_ids example) s
               (tt_segment_ids (te_token_type_ids e)))
      by (unfold example_segment_ids; by rewrite list_lookup_fmap, He).
    rewrite (getitem_Some (example_column_ids example) s
               (tt_column_ids (te_token_type_ids e)))
      by (unfold example_column_ids; by rewrite list_lookup_fmap, He).
    rewrite (getitem_Some (example_row_ids example) s
               (tt_row_ids (te_token_type_ids e)))
      by (unfold example_row_ids; by rewrite list_lookup_fmap, He).
    cbn [mbind result_bind]. cbv zeta.
    unfold table_entry, entry_coords; cbn [fst snd].
    destruct (decide (_ >= 0 /\ _ >= 0 /\ _ = 1)); cbn [mbind result_bind].
    + rewrite (IH _ _ Hs). by rewrite <-app_assoc.
    + by rewrite (IH _ _ Hs).
Qed.

Lemma group_cell_probs_from example d s suffix :
  drop s example = suffix ->
  foldM (fun (coords_to_probs : list (Z * Z * list Q))
             '((i, prob) : nat * Q) =>
           column ← getitem (example_column_ids example) i;
           row ← getitem (example_row_ids example) i;
           Ok (dict_update zcoords_eqb (fun probs => probs ++ [prob])
                 coords_to_probs (column - 1, row - 1)))
    d (omap (fun '(i, e) =>
               if decide (table_entry e)
               then Some (i, entry_probability e) else None)
         (enumerate_from s suffix))
  = Ok (group_cell_probs d (filter table_entry suffix)).
Proof.
  revert d s. induction suffix as [|e suffix IH]; intros d s Hs;
    cbn [enumerate_from omap list_omap]; [done|].
  apply drop_eq_cons in Hs as [He Hs]. rewrite filter_cons.
  destruct (decide (table_entry e)); [|by apply IH].
  cbn [foldM group_cell_probs foldl].
  rewrite (getitem_Some (example_column_ids example) s
             (tt_column_ids (te_token_type_ids e)))
    by (unfold example_column_ids; by rewrite list_lookup_fmap, He).
  rewrite (getitem_Some (example_row_ids example) s
             (tt_row_ids (te_token_type_ids e)))
    by (unfold example_row_ids; by rewrite list_lookup_fmap, He).
  cbn [mbind result_bind]. cbv zeta. by apply IH.
Qed.

Lemma _get_mean_cell_probs_example example :
  _get_mean_cell_probs (example_probabilities example)
    (example_segment_ids example) (example_row_ids example)
    (example_column_ids example)
  = Ok (mean_probs (group_cell_probs [] (filter table_entry example))).
Proof.
  unfold _get_mean_cell_probs, _get_cell_token_probs, enumerate,
    example_probabilities.
  rewrite (_get_cell_token_probs_from example [] 0 example) by done.
  cbn [mbind result_bind app].
  by rewrite (group_cell_probs_from example [] 0 example).
Qed.

Lemma zcoords_eqb_eq a b : zcoords_eqb a b = true <-> a = b.
Proof. unfold zcoords_eqb. apply bool_decide_eq_true. Qed.

Section dict.
Context {K V : Type} (eqb : K -> K -> bool).
Hypothesis eqb_eq : forall a b, eqb a b = true <-> a = b.

Lemma dict_get_opt_update_eq (upd : list V -> list V) d k :
  dict_get_opt eqb (dict_update eqb upd d k) k
  = Some (upd (default [] (dict_get_opt eqb d k))).
Proof.
  unfold dict_get_opt. induction d as [|[k' vs] d IH]; cbn.
  - by rewrite (proj2 (eqb_eq k k) eq_refl).
  - destruct (eqb k' k) eqn:Hk; cbn; rewrite Hk; [done|]. apply IH.
Qed.

Lemma dict_get_opt_update_ne (upd : list V -> list V) d k k' :
  k ≠ k' ->
  dict_get_opt eqb (dict_update eqb upd d k) k' = dict_get_opt eqb d k'.
Proof.
  intros Hne. unfold dict_get_opt. induction d as [|[k0 vs] d IH]; cbn.
  - destruct (eqb k k') eqn:Hk; [|done]. by apply eqb_eq in Hk.
  - destruct (eqb k0 k) eqn:Hk; cbn.
    + apply eqb_eq in Hk as ->.
      destruct (eqb k k') eqn:Hk'; [by apply eqb_eq in Hk'|done].
    + destruct (eqb k0 k'); [done|]. apply IH.
Qed.
End dict.

Lemma dict_get_opt_mean_probs d k :
  dict_get_opt zcoords_eqb (mean_probs d) k
  = Qmean <$> dict_get_opt zcoords_eqb d k.
Proof.
  unfold dict_get_opt, mean_probs. induction d as [|[k' ps] d IH]; cbn;
    [done|].
  destruct (zcoords_eqb k' k); [done|]. apply IH.
Qed.

Lemma dict_get_opt_group_cell_probs d entries k :
  dict_get_opt zcoords_eqb (group_cell_probs d entries) k
  = match dict_get_opt zcoords_eqb d k,
          entry_probability <$> filter (fun e => entry_coords e = k) entries
    with
    | None, [] => None
    | o, ps => Some (default [] o ++ ps)
    end.
Proof.
  revert d. induction entries as [|e entries IH]; intros d;
    cbn [group_cell_probs foldl].
  - cbn. destruct (dict_get_opt zcoords_eqb d k); cbn; [|done].
    by rewrite app_nil_r.
  - fold (group_cell_probs
            (dict_update zcoords_eqb
               (fun probs => probs ++ [entry_probability e]) d
               (entry_coords e)) entries).
    rewrite IH, filter_cons.
    destruct (decide (entry_coords e = k)) as [<-|Hne].
    + rewrite (dict_get_opt_update_eq _ zcoords_eqb_eq). cbn.
      destruct (dict_get_opt zcoords_eqb d (entry_coords e)); cbn;
        by rewrite <-?app_assoc.
    + by rewrite (dict_get_opt_update_ne _ zcoords_eqb_eq).
Qed.

(** The decoder's per-cell probability: the mean over the tokens of the
    cell, and nothing for a cell without tokens. *)
Lemma cell_coords_to_prob_lookup example k :
  dict_get_opt zcoords_eqb
    (mean_probs (group_cell_probs [] (filter table_entry example))) k
  = match cell_probabilities example k with
    | [] => None
    | ps => Some (Qmean ps)
    end.
Proof.
  rewrite dict_get_opt_mean_probs, dict_get_opt_group_cell_probs.
  unfold cell_probabilities. cbn.
  by destruct (entry_probability <$> _).
Qed.

Lemma Qsum_bounds (t : Q) l :
  (Forall (fun p => t < p)%Q l ->
   l ≠ [] -> (inject_Z (Z.of_nat (length l)) * t < Qsum l)%Q)
  /\ (Forall (fun p => p <= t)%Q l ->
      (Qsum l <= inject_Z (Z.of_nat (length l)) * t)%Q).
Proof.
  induction l as [|p l [IHlt IHle]].
  - split; [done|]. intros _. change (Qsum []) with 0%Q.
    change (inject_Z (Z.of_nat (@length Q []))) with 0%Q. lra.
  - cbn [length Qsum foldr]. rewrite Nat2Z.inj_succ.
    unfold Z.succ. rewrite inject_Z_plus. change (inject_Z 1) with 1%Q.
    fold (Qsum l). split.
    + intros [Hp Hl]%Forall_cons _. destruct l as [|q l'].
      * change (Qsum []) with 0%Q.
        change (inject_Z (Z.of_nat (@length Q []))) with 0%Q. lra.
      * specialize (IHlt Hl ltac:(done)). lra.
    + intros [Hp Hl]%Forall_cons. specialize (IHle Hl). lra.
Qed.

Lemma Qmean_above (t : Q) l :
  Forall (fun p => t < p)%Q l -> l ≠ [] -> (t < Qmean l)%Q.
Proof.
  intros Hl Hne. unfold Qmean.
  assert (0 < inject_Z (Z.of_nat (length l)))%Q as Hpos.
  { destruct l; [done|]. rewrite <-(Zlt_Qlt 0). cbn. lia. }
  apply Qlt_shift_div_l; [done|].
  pose proof (proj1 (Qsum_bounds t l) Hl Hne). lra.
Qed.

Lemma Qmean_below (t : Q) l :
  Forall (fun p => p <= t)%Q l -> l ≠ [] -> (Qmean l <= t)%Q.
Proof.
  intros Hl Hne. unfold Qmean.
  assert (0 < inject_Z (Z.of_nat (length l)))%Q as Hpos.
  { destruct l; [done|]. rewrite <-(Zlt_Qlt 0). cbn. lia. }
  apply Qle_shift_div_r; [done|].
  pose proof (proj2 (Qsum_bounds t l) Hl). lra.
Qed.

Lemma tensor_max_spec l :
  l ≠ [] ->
  exists m, tensor_max l = Ok m /\ m ∈ l /\ forall x, x ∈ l -> x <= m.
Proof.
  destruct l as [|x l]; [done|]. intros _. cbn. eexists. split; [done|].
  revert x. induction l as [|y l IH]; intros x; cbn.
  - split; [left|]. intros z ->%list_elem_of_singleton. lia.
  - destruct (IH (Z.max x y)) as [Hin Hmax]. split.
    + apply elem_of_cons in Hin as [Heq|Hin]; [|by right; right].
      rewrite Heq. destruct (Z.max_spec x y) as [[_ ->]|[_ ->]];
        [right|]; left.
    + intros z [->|[->|Hz]%elem_of_cons]%elem_of_cons.
      * specialize (Hmax (Z.max x y) ltac:(left)). lia.
      * specialize (Hmax (Z.max x y) ltac:(left)). lia.
      * apply Hmax. by right.
Qed.

Lemma coords_ltb_lt a b :
  coords_ltb a b = true
  <-> (a.1 < b.1 \/ a.1 = b.1 /\ a.2 < b.2)%nat.
Proof. unfold coords_ltb. apply bool_decide_eq_true. Qed.

Lemma sorted_coords l :
  NoDup l -> StronglySorted (fun a b => coords_ltb a b = true)
               (sorted coords_ltb l).
Proof.
  intros Hnd. apply (sorted_sorted coords_ltb (fun _ => True)).
  - intros a b c _ _ _. rewrite !coords_ltb_lt. lia.
  - intros [a1 a2] [b1 b2] _ _ Hne. rewrite !coords_ltb_lt. cbn.
    destruct (decide (a1 = b1)) as [->|]; [|lia].
    destruct (decide (a2 = b2)) as [->|]; [done|lia].
  - done.
  - by apply Forall_forall.
Qed.

Lemma cell_probabilities_cons example k :
  cell_probabilities example k ≠ []
  <-> exists e, e ∈ example /\ table_entry e /\ entry_coords e = k.
Proof.
  unfold cell_probabilities. split.
  - destruct (filter _ (filter _ _)) as [|e l] eqn:Hf; [done|]. intros _.
    assert (e ∈ filter (fun e => entry_coords e = k)
                  (filter table_entry example)) as Hin
      by (rewrite Hf; left).
    apply list_elem_of_filter in Hin as [? [? ?]%list_elem_of_filter].
    by exists e.
  - intros (e & He & Ht & Hk) Hnil. apply fmap_nil_inv in Hnil.
    eapply (filter_nil_not_elem_of _ _ e Hnil); [done|].
    by apply list_elem_of_filter.
Qed.

Lemma cell_probabilities_Forall (R : Q -> Prop) example k :
  (forall e, e ∈ example -> table_entry e -> entry_coords e = k ->
             R (entry_probability e)) ->
  Forall R (cell_probabilities example k).
Proof.
  intros HR. unfold cell_probabilities. apply Forall_fmap, Forall_forall.
  intros e [? [? ?]%list_elem_of_filter]%list_elem_of_filter. by apply HR.
Qed.

Lemma decode_example_unfold example threshold :
  decode_example example threshold
  = (max_width ← tensor_max (example_column_ids example);
     max_height ← tensor_max (example_row_ids example);
     if decide (max_width = 0 /\ max_height = 0) then Ok None
     else
       cell_coords_to_prob ←
         _get_mean_cell_probs (example_probabilities example)
           (example_segment_ids example) (example_row_ids example)
           (example_column_ids example);
       Ok (Some (sorted coords_ltb
                   (selected_cells cell_coords_to_prob max_width max_height
                      threshold)))).
Proof. reflexivity. Qed.

Lemma elem_of_selected_cells d w h threshold r c :
  (r, c) ∈ selected_cells d w h threshold
  <-> (Z.of_nat c < w /\ Z.of_nat r < h)
      /\ exists p, dict_get_opt zcoords_eqb d (Z.of_nat c, Z.of_nat r)
                   = Some p
                   /\ (threshold < p)%Q.
Proof.
  unfold selected_cells. rewrite list_elem_of_bind. split.
  - intros (col & (row & Hin & Hrow%elem_of_seq)%list_elem_of_bind
            & Hcol%elem_of_seq).
    destruct (dict_get_opt _ _ _) as [p|] eqn:Hp;
      [|by apply elem_of_nil in Hin].
    destruct (Qlt_le_dec threshold p); [|by apply elem_of_nil in Hin].
    apply list_elem_of_singleton in Hin as [= -> ->].
    split; [lia|]. by exists p.
  - intros ([Hc Hr] & p & Hp & Hlt). exists c. split; [|apply elem_of_seq; lia].
    apply list_elem_of_bind. exists r. split; [|apply elem_of_seq; lia].
    rewrite Hp. destruct (Qlt_le_dec threshold p) as [|Hle]; [left|].
    exfalso. by apply (Qlt_not_le _ _ Hlt).
Qed.

Lemma NoDup_selected_cells d w h threshold :
  NoDup (selected_cells d w h threshold).
Proof.
  unfold selected_cells. apply NoDup_bind; [| |apply NoDup_seq].
  - intros c1 c2 [r c] _ _ (r1 & H1 & _)%list_elem_of_bind
      (r2 & H2 & _)%list_elem_of_bind.
    repeat case_match; try (by apply elem_of_nil in H1);
      try (by apply elem_of_nil in H2).
    apply list_elem_of_singleton in H1, H2. congruence.
  - intros c _. apply NoDup_bind; [| |apply NoDup_seq].
    + intros r1 r2 [r c'] _ _ H1 H2.
      repeat case_match; try (by apply elem_of_nil in H1);
        try (by apply elem_of_nil in H2).
      apply list_elem_of_singleton in H1, H2. congruence.
    + intros r _. repeat case_match; try apply NoDup_nil_2.
      apply NoDup_singleton.
Qed.

(** The decoder on one example that has a table token. *)
Lemma decode_example_spec example X threshold :
  decodable example X threshold ->
  exists l,
    decode_example example threshold = Ok (Some l) /\ sorted_cells_of l X.
Proof.
  intros ((e0 & He0 & Hpos) & Hcover & Hprob).
  rewrite decode_example_unfold.
  assert (example ≠ []) as Hne by (by intros ->; apply elem_of_nil in He0).
  destruct (tensor_max_spec (example_column_ids example))
    as (w & -> & _ & Hw).
  { unfold example_column_ids. by intros ?%fmap_nil_inv. }
  destruct (tensor_max_spec (example_row_ids example)) as (h & -> & _ & Hh).
  { unfold example_row_ids. by intros ?%fmap_nil_inv. }
  cbn [mbind result_bind].
  assert (forall e, e ∈ example -> tt_column_ids (te_token_type_ids e) <= w)
    as Hw'.
  { intros e He. apply Hw. unfold example_column_ids.
    apply list_elem_of_fmap. by exists e. }
  assert (forall e, e ∈ example -> tt_row_ids (te_token_type_ids e) <= h)
    as Hh'.
  { intros e He. apply Hh. unfold example_row_ids.
    apply list_elem_of_fmap. by exists e. }
  rewrite decide_False.
  2:{ intros [-> ->]. specialize (Hw' e0 He0). specialize (Hh' e0 He0). lia. }
  rewrite _get_mean_cell_probs_example. cbn [mbind result_bind].
  eexists. split; [done|]. split.
  { apply sorted_coords, NoDup_selected_cells. }
  intros [r c]. rewrite sorted_perm, elem_of_selected_cells.
  setoid_rewrite cell_coords_to_prob_lookup. split.
  - intros (_ & p & Hp & Hlt).
    destruct (cell_probabilities example (Z.of_nat c, Z.of_nat r))
      as [|q ps] eqn:Hps; [done|]. injection Hp as <-.
    destruct (decide ((r, c) ∈ X)) as [|Hout]; [done|]. exfalso.
    apply (Qlt_not_le _ _ Hlt). rewrite <-Hps. apply Qmean_below.
    + apply cell_probabilities_Forall. intros e He Ht Hk.
      specialize (Hprob e r c He Ht Hk). by rewrite decide_False in Hprob.
    + by rewrite Hps.
  - intros Hin. destruct (Hcover _ Hin) as (e & He & Ht & Hk). cbn in Hk.
    split.
    + specialize (Hw' e He). specialize (Hh' e He).
      unfold entry_coords in Hk. injection Hk as Hc Hr. lia.
    + assert (cell_probabilities example (Z.of_nat c, Z.of_nat r) ≠ [])
        as Hps by (apply cell_probabilities_cons; by exists e).
      destruct (cell_probabilities example (Z.of_nat c, Z.of_nat r))
        as [|q ps] eqn:Heq; [done|].
      eexists. split; [done|]. rewrite <-Heq. apply Qmean_above.
      * apply cell_probabilities_Forall. intros e' He' Ht' Hk'.
        specialize (Hprob e' r c He' Ht' Hk').
        by rewrite decide_True in Hprob.
      * by rewrite Heq.
Qed.

Lemma convert_logits_to_predictions_from acc data Xs threshold :
  Forall2 (fun example X => decodable example X threshold) data Xs ->
  exists ls,
    foldM (fun answer_coordinates_batch example =>
             r ← decode_example example threshold;
             match r with
             | None => Ok answer_coordinates_batch
             | Some answer_coordinates =>
                 Ok (answer_coordinates_batch ++ [answer_coordinates])
             end)
      acc data = Ok (acc ++ ls)
    /\ Forall2 sorted_cells_of ls Xs.
Proof.
  intros Hall. revert acc.
  induction Hall as [|example X data Xs Hd _ IH]; intros acc; cbn [foldM].
  - exists []. by rewrite app_nil_r.
  - destruct (decode_example_spec example X threshold Hd) as (l & -> & Hl).
    cbn [mbind result_bind].
    destruct (IH (acc ++ [l])) as (ls & -> & Hls).
    exists (l :: ls). split; [by rewrite <-app_assoc|]. by constructor.
Qed.

(** C3 (amended). Round trip of the decoder. Take a batch in which every
    example has a table token and, for each example, a set [X] of cells each
    of which has at least one token of table content in the sequence; let
    the probability (under the attention mask) of a token of table content
    be above the threshold when its cell is in [X] and at most the
    threshold otherwise. Then decoding returns one answer per example, made
    of exactly the (row, column) coordinates of [X] in strictly ascending
    order. *)
Theorem decode_round_trip data Xs threshold :
  Forall2 (fun example X => decodable example X threshold) data Xs ->
  exists answers,
    convert_logits_to_predictions data threshold = Ok answers
    /\ Forall2 sorted_cells_of answers Xs.
Proof.
  intros Hall. unfold convert_logits_to_predictions.
  destruct (convert_logits_to_predictions_from [] data Xs threshold Hall)
    as (ls & -> & Hls).
  by exists ls.
Qed.

(** C3 as stated fails for a set [X] holding a cell without tokens: with
    one table token, of the cell (row 0, column 0) and of probability 1, and
    [X] made of that cell and of the cell (row 0, column 1), every token of
    [X] has probability 1 and every other token probability 0, yet the
    decoder answers the first cell only. *)
Lemma decode_misses_cell_without_tokens :
  ~ (forall (example : list TokenEntry) (X l : list (nat * nat)),
       (forall e r c,
          e ∈ example -> table_entry e ->
          entry_coords e = (Z.of_nat c, Z.of_nat r) ->
          if decide ((r, c) ∈ X)
          then (entry_probability e == 1)%Q
          else (entry_probability e == 0)%Q) ->
       decode_example example (1 # 2) = Ok (Some l) ->
       forall rc, rc ∈ l <-> rc ∈ X).
Proof.
  intros H.
  pose (example :=
          [mkTokenEntry 0 1 (mkTokenTypeIds 0 0 0 0 0 0 0);
           mkTokenEntry 1 1 (mkTokenTypeIds 1 1 1 0 0 0 0)]).
  specialize (H example [(0, 0); (0, 1)]%nat [(0, 0)%nat]).
  assert ((0, 1)%nat ∈ [(0, 0)%nat]) as Hin.
  { apply H; [|reflexivity|right; left].
    intros e r c [->|[->|[]%elem_of_nil]%elem_of_cons]%elem_of_cons Ht Hk.
    - destruct Ht as (Hc & _). cbn in Hc. lia.
    - injection Hk as Hc Hr.
      assert (c = 0%nat) as -> by lia. assert (r = 0%nat) as -> by lia.
      rewrite decide_True by left. reflexivity. }
  apply list_elem_of_singleton in Hin. discriminate.
Qed.

Lemma decode_round_trip_witness :
  let example :=
    [mkTokenEntry 0 1 (mkTokenTypeIds 0 0 0 0 0 0 0);
     mkTokenEntry (9 # 10) 1 (mkTokenTypeIds 1 2 1 0 0 0 0);
     mkTokenEntry (1 # 10) 1 (mkTokenTypeIds 1 1 1 0 0 0 0);
     mkTokenEntry 1 1 (mkTokenTypeIds 1 1 2 0 0 0 0)] in
  exists answers,
    convert_logits_to_predictions [example] (1 # 2) = Ok answers
    /\ Forall2 sorted_cells_of answers [[(0, 1); (1, 0)]%nat].
Proof.
  intros example.
  apply (decode_round_trip [example] [[(0, 1); (1, 0)]%nat] (1 # 2)).
  constructor; [|constructor]. split; [|split].
  - eexists. split; [right; left|]. cbn. lia.
  - intros rc [->|[->|[]%elem_of_nil]%elem_of_cons]%elem_of_cons.
    + eexists. split; [right; left|]. split; [|reflexivity].
      unfold table_entry. cbn. lia.
    + eexists. split; [do 3 right; left|]. split; [|reflexivity].
      unfold table_entry. cbn. lia.
  - intros e r c Hin Ht Hk.
    repeat (apply elem_of_cons in Hin as [->|Hin]);
      [| | | |by apply elem_of_nil in Hin].
    + destruct Ht as (Hc & _). cbn in Hc. lia.
    + injection Hk as Hc Hr.
      assert (c = 1%nat) as -> by lia. assert (r = 0%nat) as -> by lia.
      rewrite decide_True by left. reflexivity.
    + injection Hk as Hc Hr.
      assert (c = 0%nat) as -> by lia. assert (r = 0%nat) as -> by lia.
      rewrite decide_False.
      * unfold entry_probability; cbn. unfold Qle; cbn. lia.
      * intros [[=]|[[=]|[]%elem_of_nil]%elem_of_cons]%elem_of_cons.
    + injection Hk as Hc Hr.
      assert (c = 0%nat) as -> by lia. assert (r = 1%nat) as -> by lia.
      rewrite decide_True by (right; left). reflexivity.
Defined.

(** ** Numeric relations *)

Lemma foldM_inv_prefix_Ok {A S} (I : list A -> S -> Prop)
  (f : S -> A -> result S) l s s' :
  foldM f s l = Ok s' ->
  I [] s ->
  (forall done a s s',
     a ∈ l -> I done s -> f s a = Ok s' -> I (done ++ [a]) s') ->
  I l s'.
Proof.
  intros Hrun Hs Hf.
  cut (forall done s, I done s -> foldM f s l = Ok s' -> I (done ++ l) s').
  { intros H. by apply (H [] s). }
  clear s Hs Hrun. induction l as [|a l IH]; intros done s Hs Hrun;
    cbn in Hrun.
  - injection Hrun as <-. by rewrite app_nil_r.
  - apply bind_Ok in Hrun as (s1 & H1 & Hrun).
    rewrite (cons_middle a done l), app_assoc.
    apply (IH (fun d a0 s0 s0' Ha0 =>
                 Hf d a0 s0 s0' (list_elem_of_further _ _ _ Ha0))
              (done ++ [a]) s1); [|done].
    apply (Hf done a s s1); [left|done|done].
Qed.

Lemma _add_numeric_column_ranks_c2nv P column_ids row_ids table
  ranks inv_ranks c2nv :
  _add_numeric_column_ranks P column_ids row_ids table
  = Ok (ranks, inv_ranks, c2nv) ->
  c2nv = columns_to_numeric_values_of P table.
Proof.
  unfold _add_numeric_column_ranks, columns_to_numeric_values_of.
  intros Hrun.
  apply (foldM_inv_prefix_Ok
           (fun done (s : rank_state) =>
              s.2 = (fun c => (c, column_values P table c)) <$> done)
           _ _ _ _ Hrun); [done|].
  clear. intros done c [[r0 i0] c0] [[r1 i1] c1] _ Hc. cbn [snd] in *.
  rewrite fmap_app. cbn [fmap list_fmap]. fold (column_values P table c).
  subst c0.
  destruct (column_values P table c) as [|x tnv] eqn:Hcv;
    [by intros [= <- <- <-]|].
  destruct (get_numeric_sort_key_fn _) as [key_fn|[]];
    try done; try by intros [= <- <- <-].
  by intros (keys & _ & ([r2 i2] & _ & [= <- <- <-])%bind_Ok)%bind_Ok.
Qed.

Lemma coords_eqb_eq a b : coords_eqb a b = true <-> a = b.
Proof. unfold coords_eqb. apply bool_decide_eq_true. Qed.

Section dict_keys.
Context {K V : Type} (eqb : K -> K -> bool).
Hypothesis eqb_eq : forall a b, eqb a b = true <-> a = b.

Lemma elem_of_dict_update_keys (upd : list V -> list V) d k k' :
  k' ∈ (dict_update eqb upd d k).*1 <-> k' = k \/ k' ∈ d.*1.
Proof.
  induction d as [|[k0 vs] d IH]; cbn.
  - rewrite list_elem_of_singleton, elem_of_nil. tauto.
  - destruct (eqb k0 k) eqn:Hk; cbn.
    + apply eqb_eq in Hk as ->. rewrite elem_of_cons. tauto.
    + rewrite !elem_of_cons, IH. tauto.
Qed.

Lemma NoDup_dict_update_keys (upd : list V -> list V) d k :
  NoDup d.*1 -> NoDup (dict_update eqb upd d k).*1.
Proof.
  induction d as [|[k0 vs] d IH]; cbn; intros Hnd.
  - apply NoDup_singleton.
  - apply NoDup_cons in Hnd as [Hnin Hnd].
    destruct (eqb k0 k) eqn:Hk; cbn; apply NoDup_cons.
    + done.
    + split; [|by apply IH]. rewrite elem_of_dict_update_keys.
      intros [->|?]; [|done]. rewrite (proj2 (eqb_eq k k) eq_refl) in Hk.
      done.
Qed.

Lemma dict_get_opt_elem_of d k (v : V) :
  NoDup d.*1 -> (k, v) ∈ d -> dict_get_opt eqb d k = Some v.
Proof.
  unfold dict_get_opt. induction d as [|[k0 v0] d IH]; cbn; intros Hnd Hin.
  - by apply elem_of_nil in Hin.
  - apply NoDup_cons in Hnd as [Hnin Hnd].
    apply elem_of_cons in Hin as [[= <- <-]|Hin].
    + by rewrite (proj2 (eqb_eq k k) eq_refl).
    + destruct (eqb k0 k) eqn:Hk; [|by apply IH].
      apply eqb_eq in Hk as ->. destruct Hnin.
      apply list_elem_of_fmap. by exists (k, v).
Qed.

Lemma dict_get_opt_None d k :
  k ∉ d.*1 -> dict_get_opt eqb d k = @None V.
Proof.
  unfold dict_get_opt. induction d as [|[k0 v0] d IH]; cbn; intros Hnin;
    [done|].
  apply not_elem_of_cons in Hnin as [Hne Hnin].
  destruct (eqb k0 k) eqn:Hk; [|by apply IH].
  apply eqb_eq in Hk. congruence.
Qed.
End dict_keys.

Lemma rels_update rels k0 rel :
  rels_wf rels ->
  rels_wf (dict_update coords_eqb (set_add rel) rels k0)
  /\ forall k rel',
       rel' ∈ rels_lookup (dict_update coords_eqb (set_add rel) rels k0) k
       <-> rel' ∈ rels_lookup rels k \/ (k = k0 /\ rel' = rel).
Proof.
  intros [Hkeys Hsets].
  assert (forall k,
            rels_lookup (dict_update coords_eqb (set_add rel) rels k0) k
            = if decide (k = k0) then set_add rel (rels_lookup rels k0)
              else rels_lookup rels k) as Hlookup.
  { intros k. unfold rels_lookup. destruct (decide (k = k0)) as [->|Hne].
    - by rewrite (dict_get_opt_update_eq _ coords_eqb_eq).
    - by rewrite (dict_get_opt_update_ne _ coords_eqb_eq) by done. }
  split; [split|].
  - by apply (NoDup_dict_update_keys _ coords_eqb_eq).
  - intros k. rewrite Hlookup. case_decide; [|done].
    by apply NoDup_set_add.
  - intros k rel'. rewrite Hlookup.
    destruct (decide (k = k0)) as [->|Hne].
    + rewrite elem_of_set_add. tauto.
    + tauto.
Qed.

(** A loop that only adds relations: what the dictionary holds afterwards
    is what it held before plus what each iteration adds. *)
Lemma foldM_accumulate {A}
  (f : list (nat * nat * list Relation) -> A
       -> result (list (nat * nat * list Relation)))
  (added : A -> nat * nat -> Relation -> Prop) l s s' :
  foldM f s l = Ok s' ->
  rels_wf s ->
  (forall s a s', a ∈ l -> rels_wf s -> f s a = Ok s' ->
     rels_wf s'
     /\ forall k rel, rel ∈ rels_lookup s' k
                      <-> rel ∈ rels_lookup s k \/ added a k rel) ->
  rels_wf s'
  /\ forall k rel, rel ∈ rels_lookup s' k
                   <-> rel ∈ rels_lookup s k
                       \/ exists a, a ∈ l /\ added a k rel.
Proof.
  revert s. induction l as [|a l IH]; intros s Hrun Hwf Hf; cbn in Hrun.
  - injection Hrun as <-. split; [done|]. intros k rel. split; [by left|].
    intros [?|(a & Ha%elem_of_nil & _)]; done.
  - apply bind_Ok in Hrun as (s1 & H1 & Hrun).
    destruct (Hf s a s1) as [Hwf1 Hadd1]; [left|done|done|].
    destruct (IH s1 Hrun Hwf1) as [Hwf' Hadd'].
    { intros s0 a0 s0' Ha0. apply Hf. by right. }
    split; [done|]. intros k rel. rewrite Hadd', Hadd1. split.
    + intros [[?|?]|(a0 & Ha0 & ?)]; [by left|right..].
      * exists a. split; [left|done].
      * exists a0. split; [by right|done].
    + intros [?|(a0 & [->|Ha0]%elem_of_cons & ?)].
      * by left; left.
      * by left; right.
      * right. by exists a0.
Qed.

Lemma dict_get_tabulated {V} (g : nat -> V) l c :
  c ∈ l -> dict_get Nat.eqb ((fun c => (c, g c)) <$> l) c = Ok (g c).
Proof.
  induction l as [|c0 l IH]; cbn; [by intros ?%elem_of_nil|].
  destruct (Nat.eqb c0 c) eqn:Hc.
  - by apply Nat.eqb_eq in Hc as ->.
  - intros [->|?]%elem_of_cons; [|by apply IH].
    by rewrite Nat.eqb_refl in Hc.
Qed.

Lemma rels_wf_nil : rels_wf [].
Proof. split; [apply NoDup_nil_2|]. intros k. apply NoDup_nil_2. Qed.

(** The rows loop of [_add_numeric_relations], for one question value and
    one column. *)
Lemma collect_rows value sort_key_fn (c : nat) tnv rels rels' :
  foldM (fun rels '(row_index, cell_value) =>
           relation ← get_numeric_relation value cell_value sort_key_fn;
           match relation with
           | None => Ok rels
           | Some relation =>
               Ok (dict_update coords_eqb (set_add relation) rels
                     (c, row_index))
           end)
    rels tnv = Ok rels' ->
  rels_wf rels ->
  rels_wf rels'
  /\ forall k rel,
       rel ∈ rels_lookup rels' k
       <-> rel ∈ rels_lookup rels k
           \/ exists r cell_value,
                k = (c, r) /\ (r, cell_value) ∈ tnv
                /\ get_numeric_relation value cell_value sort_key_fn
                   = Ok (Some rel).
Proof.
  intros Hrun Hwf.
  destruct (foldM_accumulate _
              (fun (a : nat * NumericValue) k rel =>
                 k = (c, a.1)
                 /\ get_numeric_relation value a.2 sort_key_fn
                    = Ok (Some rel))
              _ _ _ Hrun Hwf) as [Hwf' Hadd].
  - clear. intros s [r cv] s' _ Hwf (relation & Hrel & Hs)%bind_Ok.
    destruct relation as [relation|].
    + injection Hs as <-. destruct (rels_update s (c, r) relation Hwf)
        as [Hwf' Hadd].
      split; [done|]. intros k rel. rewrite Hadd. cbn.
      split; (intros [?|[-> ?]]; [by left|right]); split; try done;
        congruence.
    + injection Hs as <-. split; [done|]. intros k rel. split; [by left|].
      intros [?|[_ ?]]; [done|]. cbn in *. congruence.
  - split; [done|]. intros k rel. rewrite Hadd. split.
    + intros [?|([r cv] & ? & -> & ?)]; [by left|right]. by exists r, cv.
    + intros [?|(r & cv & -> & ? & ?)]; [by left|right].
      by exists (r, cv).
Qed.

(** What [collect_relations] records: for every cell, the set of relations
    it has with the numeric values of the question. *)
Lemma collect_relations_spec P question table rels :
  collect_relations P question table (columns_to_numeric_values_of P table)
  = Ok rels ->
  rels_wf rels
  /\ forall c r rel,
       rel ∈ rels_lookup rels (c, r)
       <-> cell_relation P question table c r rel.
Proof.
  unfold collect_relations, cell_relation.
  destruct (add_numeric_values_to_question P question) as [q spans].
  cbn [snd]. intros Hrun.
  destruct (foldM_accumulate _
              (fun span k rel =>
                 (k.1 < length (columns table))%nat
                 /\ exists value,
                      value ∈ values span
                      /\ value_relation (column_values P table k.1) value
                           k.2 rel)
              _ _ _ Hrun rels_wf_nil) as [Hwf Hadd].
  - clear. intros s span s' _ Hwf Hspan.
    destruct (foldM_accumulate _
                (fun value k rel =>
                   (k.1 < length (columns table))%nat
                   /\ value_relation (column_values P table k.1) value
                        k.2 rel)
                _ _ _ Hspan Hwf) as [Hwf' Hadd].
    + clear. intros s value s' _ Hwf Hvalue.
      destruct (foldM_accumulate _
                  (fun c k rel =>
                     k.1 = c
                     /\ value_relation (column_values P table c) value
                          k.2 rel)
                  _ _ _ Hvalue Hwf) as [Hwf' Hadd].
      * clear. intros s c s' Hc Hwf (tnv & Htnv & Hcol)%bind_Ok.
        unfold columns_to_numeric_values_of in Htnv.
        rewrite dict_get_tabulated in Htnv by done. injection Htnv as <-.
        apply bind_Ok in Hcol as (fn & Hfn & Hrows). destruct fn as [fn|].
        -- destruct (collect_rows _ _ _ _ _ _ Hrows Hwf) as [Hwf' Hadd].
           split; [done|]. intros k rel. rewrite Hadd.
           unfold value_relation. split.
           ++ intros [?|(r & cv & -> & ? & ?)]; [by left|right].
              split; [done|]. by exists fn, cv.
           ++ intros [?|[<- (fn' & cv & Hfn' & ? & ?)]]; [by left|right].
              rewrite Hfn in Hfn'. injection Hfn' as <-.
              exists k.2, cv. by destruct k.
        -- injection Hrows as <-. split; [done|]. intros k rel.
           split; [by left|]. intros [?|[<- (fn' & cv & Hfn' & _)]]; [done|].
           rewrite Hfn in Hfn'. done.
      * split; [done|]. intros k rel. rewrite Hadd. split.
        -- intros [?|(c & Hc%elem_of_seq & <- & ?)]; [by left|right].
           split; [lia|done].
        -- intros [?|[? ?]]; [by left|right]. exists k.1.
           split; [apply elem_of_seq; lia|done].
    + split; [done|]. intros k rel. rewrite Hadd. split.
      * intros [?|(value & ? & ? & ?)]; [by left|right].
        split; [done|]. by exists value.
      * intros [?|[? (value & ? & ?)]]; [by left|right]. by exists value.
  - split; [done|]. intros c r rel. rewrite Hadd. cbn. split.
    + intros [[]%elem_of_nil|(span & ? & ? & value & ? & ?)].
      split; [done|]. by exists span, value.
    + intros [? (span & value & ? & ? & ?)]. right. exists span.
      split; [done|]. split; [done|]. by exists value.
Qed.

Lemma get_numeric_relation_cases value cell fn rel :
  get_numeric_relation value cell fn = Ok (Some rel) ->
  rel = EQ \/ rel = LT \/ rel = GT.
Proof.
  intros (kv & _ & (kc & _ & H)%bind_Ok)%bind_Ok.
  destruct (prim_eqb kv kc); [simplify_eq; auto|].
  apply bind_Ok in H as ([] & _ & H); [simplify_eq; auto|].
  apply bind_Ok in H as ([] & _ & H); simplify_eq; auto.
Qed.

Lemma tuple_lt_set a b :
  Forall is_Some a -> Forall is_Some b -> tuple_lt a b = Ok (tuple_ltb a b).
Proof.
  intros Ha. revert b. induction Ha as [|x a [f ->] Ha IH]; intros b Hb.
  - by destruct b.
  - destruct Hb as [|y b [g ->] Hb]; [done|]. cbn.
    destruct (float_eqb f g); [by apply IH|done].
Qed.

Lemma prim_lt_comparable a b :
  comparable a b -> prim_lt a b = Ok (prim_ltb a b).
Proof.
  destruct a as [f|x], b as [g|y]; try done.
  intros [Hx Hy]. by apply tuple_lt_set.
Qed.

Lemma comparable_sym a b : comparable a b -> comparable b a.
Proof. destruct a, b; try done. by intros [? ?]. Qed.

Lemma well_keyed_comparable sh a b :
  well_keyed sh a -> well_keyed sh b -> comparable a b.
Proof.
  destruct sh as [n|], a as [f|x], b as [g|y]; try done.
  intros [_ Hx] [_ Hy].
  split; (eapply Forall_impl; [eassumption|]); intros ? (? & -> & _);
    by eexists.
Qed.

Lemma get_numeric_relation_keys value cell fn kv kc :
  fn value = Ok kv -> fn cell = Ok kc -> comparable kv kc ->
  get_numeric_relation value cell fn
  = Ok (if prim_eqb kv kc then Some EQ
        else if prim_ltb kv kc then Some LT
        else if prim_ltb kc kv then Some GT else None).
Proof.
  intros Hv Hc Hcmp. unfold get_numeric_relation. rewrite Hv. cbn.
  rewrite Hc. cbn.
  rewrite (prim_lt_comparable _ _ Hcmp).
  rewrite (prim_lt_comparable _ _ (comparable_sym _ _ Hcmp)). cbn.
  by repeat case_match.
Qed.

Lemma relation_set_index_from relations acc :
  (forall rel, rel ∈ relations -> rel = EQ \/ rel = LT \/ rel = GT) ->
  foldM (fun acc relation =>
           if decide (Relation_value relation >= Relation_value EQ)
           then Ok (acc + 2 ^ (Relation_value relation - Relation_value EQ))
           else Raise AssertionError)
    acc relations
  = Ok (acc + relation_sum relations).
Proof.
  revert acc. induction relations as [|rel relations IH]; intros acc Hin.
  - cbn. f_equal. lia.
  - cbn [foldM]. rewrite decide_True.
    + cbn [mbind result_bind]. rewrite IH.
      * cbn [relation_sum foldr]. f_equal. fold (relation_sum relations).
        lia.
      * intros rel' ?. apply Hin. by right.
    + destruct (Hin rel) as [-> | [-> | ->]]; [left|done..].
Qed.

Lemma relation_set_index_sum relations :
  (forall rel, rel ∈ relations -> rel = EQ \/ rel = LT \/ rel = GT) ->
  relation_set_index relations = Ok (relation_sum relations).
Proof.
  intros Hin. unfold relation_set_index.
  by rewrite relation_set_index_from.
Qed.

Lemma is_cell_token_inj column_ids row_ids (c r c' r' : nat) j :
  is_cell_token column_ids row_ids (Z.of_nat c) (Z.of_nat r) j ->
  is_cell_token column_ids row_ids (Z.of_nat c') (Z.of_nat r') j ->
  (c, r) = (c', r').
Proof.
  intros [Hc Hr] [Hc' Hr']. rewrite Hc in Hc'. rewrite Hr in Hr'.
  f_equal; simplify_eq; lia.
Qed.

(** The second part of [_add_numeric_relations]: every token of a recorded
    cell receives the bitmask of the cell's relations, the other positions
    keep their value. *)
Lemma write_relations column_ids row_ids rels l numeric_relations :
  length row_ids = length column_ids ->
  length l = length column_ids ->
  NoDup rels.*1 ->
  foldM (fun numeric_relations '(column_index, row_index, relations) =>
           index ← relation_set_index relations;
           write_cell column_ids row_ids column_index row_index index
             numeric_relations)
    l rels = Ok numeric_relations ->
  forall j (c r : nat),
    is_cell_token column_ids row_ids (Z.of_nat c) (Z.of_nat r) j ->
    (forall relations, (c, r, relations) ∈ rels ->
       exists index, relation_set_index relations = Ok index
                     /\ numeric_relations !! j = Some index)
    /\ ((c, r) ∉ rels.*1 -> numeric_relations !! j = l !! j).
Proof.
  intros Hlen. revert l.
  induction rels as [|[[c0 r0] S0] rels IH]; intros l Hl Hnd Hrun j c r Hj.
  - cbn in Hrun. injection Hrun as <-. split; [|done].
    by intros ? ?%elem_of_nil.
  - cbn [foldM] in Hrun. apply bind_Ok in Hrun as (l1 & Hstep & Hrun).
    apply bind_Ok in Hstep as (idx0 & Hidx0 & Hwrite).
    destruct (write_cell_spec column_ids row_ids c0 r0 idx0 l Hlen Hl)
      as (l1' & Hwrite' & Hl1 & Hat).
    rewrite Hwrite in Hwrite'. injection Hwrite' as <-.
    cbn [fmap list_fmap fst] in Hnd. apply NoDup_cons in Hnd as [Hnin Hnd].
    destruct (IH l1 ltac:(congruence) Hnd Hrun j c r Hj) as [Hin Hout].
    split.
    + intros S [Heq|HS]%elem_of_cons; [|by apply Hin].
      injection Heq as -> -> ->. exists idx0. split; [done|]. rewrite Hout by done. rewrite Hat.
      by rewrite decide_True.
    + intros [Hne Hnin']%not_elem_of_cons. rewrite Hout by done.
      rewrite Hat. rewrite decide_False; [done|].
      intros Hj0. apply Hne. symmetry.
      by eapply is_cell_token_inj.
Qed.

(** ** Column ranks *)

(** [<] on floats is a strict order, total away from NaN; [==] is equality
    away from NaN. *)
Lemma float_ltb_irrefl a : float_ltb a a = false.
Proof.
  destruct a; cbn; try done. apply bool_decide_eq_false.
  intros H. by apply Qclt_not_eq in H.
Qed.

Lemma float_ltb_trans a b c :
  float_ltb a b = true -> float_ltb b c = true -> float_ltb a c = true.
Proof.
  destruct a, b, c; cbn; try done.
  rewrite !bool_decide_eq_true. apply Qclt_trans.
Qed.

Lemma float_ltb_total a b :
  a <> FNaN -> b <> FNaN -> a <> b ->
  float_ltb a b = true \/ float_ltb b a = true.
Proof.
  destruct a, b; cbn; try done; try (by left); try (by right).
  intros _ _ Hne. rewrite !bool_decide_eq_true.
  destruct (Qc_dec q q0) as [[?|?]|?]; [by left|by right|congruence].
Qed.

Lemma float_eqb_eq a b : a <> FNaN -> float_eqb a b = true <-> a = b.
Proof.
  destruct a, b; cbn; try done.
  intros _. rewrite bool_decide_eq_true. split; congruence.
Qed.

Lemma opt_float_eqb_eq x y :
  (exists f, x = Some f /\ f <> FNaN) ->
  opt_float_eqb x y = true <-> x = y.
Proof.
  intros (f & -> & Hf). destruct y as [g|]; cbn; [|done].
  rewrite float_eqb_eq by done. split; congruence.
Qed.

Lemma tuple_eqb_eq a b :
  Forall (fun x => exists f, x = Some f /\ f <> FNaN) a ->
  tuple_eqb a b = true <-> a = b.
Proof.
  intros Ha. revert b. induction Ha as [|x a Hx Ha IH]; intros [|y b]; cbn;
    try done.
  rewrite andb_true_iff, IH, opt_float_eqb_eq by done.
  split; [by intros [-> ->]|by intros [= -> ->]].
Qed.

Lemma tuple_ltb_irrefl a :
  Forall (fun x => exists f, x = Some f /\ f <> FNaN) a ->
  tuple_ltb a a = false.
Proof.
  induction 1 as [|x a Hx Ha IH]; cbn; [done|].
  by rewrite (proj2 (opt_float_eqb_eq x x Hx) eq_refl).
Qed.

Lemma tuple_ltb_trans a b c :
  Forall (fun x => exists f, x = Some f /\ f <> FNaN) a ->
  Forall (fun x => exists f, x = Some f /\ f <> FNaN) b ->
  tuple_ltb a b = true -> tuple_ltb b c = true -> tuple_ltb a c = true.
Proof.
  intros Ha. revert b c.
  induction Ha as [|x a Hx Ha IH]; intros [|y b] [|z c] Hb; cbn; try done.
  apply Forall_cons in Hb as [Hy Hb].
  destruct (opt_float_eqb x y) eqn:Hxy.
  - apply opt_float_eqb_eq in Hxy as <-; [|done].
    destruct (opt_float_eqb x z); [by apply IH|]. by intros _ ?.
  - destruct (opt_float_eqb y z) eqn:Hyz.
    + apply opt_float_eqb_eq in Hyz as <-; [|done]. rewrite Hxy.
      by intros ? _.
    + destruct Hx as (f & -> & Hf), Hy as (g & -> & Hg).
      destruct z as [h|]; cbn in *; [|done]. intros Hfg Hgh.
      pose proof (float_ltb_trans _ _ _ Hfg Hgh) as Hfh.
      destruct (float_eqb f h) eqn:Heq; [|done].
      apply float_eqb_eq in Heq as <-; [|done].
      by rewrite float_ltb_irrefl in Hfh.
Qed.

Lemma tuple_ltb_total a b :
  Forall (fun x => exists f, x = Some f /\ f <> FNaN) a ->
  Forall (fun x => exists f, x = Some f /\ f <> FNaN) b ->
  length a = length b -> a <> b ->
  tuple_ltb a b = true \/ tuple_ltb b a = true.
Proof.
  intros Ha. revert b.
  induction Ha as [|x a Hx Ha IH]; intros [|y b] Hb; cbn; try done.
  apply Forall_cons in Hb as [Hy Hb]. intros [= Hlen] Hne.
  destruct (opt_float_eqb x y) eqn:Hxy.
  - apply opt_float_eqb_eq in Hxy as <-; [|done].
    rewrite (proj2 (opt_float_eqb_eq x x Hx) eq_refl).
    apply IH; [done|done|congruence].
  - destruct (opt_float_eqb y x) eqn:Hyx.
    { apply opt_float_eqb_eq in Hyx as <-; [|done].
      by rewrite (proj2 (opt_float_eqb_eq y y Hy) eq_refl) in Hxy. }
    destruct Hx as (f & -> & Hf), Hy as (g & -> & Hg). cbn in *.
    apply float_ltb_total; try done. intros ->.
    by rewrite (proj2 (float_eqb_eq g g Hg) eq_refl) in Hxy.
Qed.

(** On the keys of one shape, [==] is equality and [<] a strict total
    order. *)
Section key_order.
Variable sh : option nat.

Lemma prim_eqb_eq a b :
  well_keyed sh a -> well_keyed sh b -> prim_eqb a b = true <-> a = b.
Proof.
  destruct sh, a, b; cbn; try done.
  - intros [_ Ha] _. rewrite tuple_eqb_eq by done. split; congruence.
  - intros Ha _. rewrite float_eqb_eq by done. split; congruence.
Qed.

Lemma prim_eqb_decide a b :
  well_keyed sh a -> well_keyed sh b -> prim_eqb a b = bool_decide (a = b).
Proof.
  intros Ha Hb. pose proof (prim_eqb_eq a b Ha Hb) as Heq.
  destruct (prim_eqb a b).
  - symmetry. apply bool_decide_eq_true. by apply Heq.
  - symmetry. apply bool_decide_eq_false. intros ?%Heq. done.
Qed.

Lemma prim_ltb_irrefl a : well_keyed sh a -> prim_ltb a a = false.
Proof.
  destruct sh, a; cbn; try done.
  - intros [_ Ha]. by apply tuple_ltb_irrefl.
  - intros _. apply float_ltb_irrefl.
Qed.

Lemma prim_ltb_trans a b c :
  well_keyed sh a -> well_keyed sh b -> well_keyed sh c ->
  prim_ltb a b = true -> prim_ltb b c = true -> prim_ltb a c = true.
Proof.
  destruct sh, a, b, c; cbn; try done.
  - intros [_ Ha] [_ Hb] _. by apply tuple_ltb_trans.
  - intros _ _ _. apply float_ltb_trans.
Qed.

Lemma prim_ltb_total a b :
  well_keyed sh a -> well_keyed sh b -> a <> b ->
  prim_ltb a b = true \/ prim_ltb b a = true.
Proof.
  destruct sh, a, b; cbn; try done.
  - intros [Hla Ha] [Hlb Hb] Hne. apply tuple_ltb_total; try done;
      congruence.
  - intros Ha Hb Hne. apply float_ltb_total; try done. congruence.
Qed.
End key_order.

Lemma dict_update_ext {K V} (eqb eqb' : K -> K -> bool)
  (upd : list V -> list V) d k :
  (forall k0, k0 ∈ d.*1 -> eqb k0 k = eqb' k0 k) ->
  dict_update eqb upd d k = dict_update eqb' upd d k.
Proof.
  induction d as [|[k0 vs] d IH]; cbn; intros Hext; [done|].
  rewrite <-(Hext k0) by left. destruct (eqb k0 k); [done|].
  f_equal. apply IH. intros k1 Hk1. apply Hext. by right.
Qed.

Lemma dict_get_ext {K V} (eqb eqb' : K -> K -> bool) (d : list (K * V)) k :
  (forall k0, k0 ∈ d.*1 -> eqb k0 k = eqb' k0 k) ->
  dict_get eqb d k = dict_get eqb' d k.
Proof.
  induction d as [|[k0 vs] d IH]; cbn; intros Hext; [done|].
  rewrite <-(Hext k0) by left. destruct (eqb k0 k); [done|].
  apply IH. intros k1 Hk1. apply Hext. by right.
Qed.

Lemma key_eqb_eq (a b : PrimitiveValue) : bool_decide (a = b) = true <-> a = b.
Proof. apply bool_decide_eq_true. Qed.

(** Grouping the rows by key with Leibniz equality on the keys. *)
Lemma group_rows_spec (keys : list (nat * PrimitiveValue)) :
  let inv :=
    foldl (fun inv '(row_index, value) =>
             dict_update (fun a b => bool_decide (a = b))
               (fun rows => rows ++ [row_index]) inv value)
      [] keys in
  NoDup inv.*1
  /\ (forall k, k ∈ inv.*1 <-> k ∈ keys.*2)
  /\ forall k r,
       r ∈ default [] (dict_get_opt (fun a b => bool_decide (a = b)) inv k)
       <-> (r, k) ∈ keys.
Proof.
  induction keys as [|[r0 k0] keys IH] using rev_ind; cbn zeta.
  - cbn. split; [apply NoDup_nil_2|]. split; intros; by rewrite !elem_of_nil.
  - rewrite foldl_app. cbn [foldl]. cbn zeta in IH.
    destruct IH as (Hnd & Hkeys & Hrows). split_and!.
    + by apply (NoDup_dict_update_keys _ key_eqb_eq).
    + intros k. rewrite (elem_of_dict_update_keys _ key_eqb_eq).
      rewrite fmap_app, elem_of_app, Hkeys. cbn.
      rewrite list_elem_of_singleton. tauto.
    + intros k r. rewrite elem_of_app, list_elem_of_singleton.
      destruct (decide (k = k0)) as [->|Hne].
      * rewrite (dict_get_opt_update_eq _ key_eqb_eq). cbn.
        rewrite elem_of_app, list_elem_of_singleton, Hrows.
        split; (intros [?|?]; [by left|right]); congruence.
      * rewrite (dict_get_opt_update_ne _ key_eqb_eq) by done.
        rewrite Hrows. split; [by left|]. intros [?|?]; [done|congruence].
Qed.

Lemma group_by_value_eq sh keys :
  Forall (well_keyed sh) keys.*2 ->
  group_by_value keys
  = foldl (fun inv '(row_index, value) =>
             dict_update (fun a b => bool_decide (a = b))
               (fun rows => rows ++ [row_index]) inv value)
      [] keys.
Proof.
  unfold group_by_value.
  induction keys as [|[r0 k0] keys IH] using rev_ind; [done|].
  rewrite fmap_app, Forall_app. cbn [fmap list_fmap snd].
  rewrite Forall_singleton. intros [HD Hk0].
  rewrite !foldl_app. cbn [foldl]. rewrite IH by done.
  apply dict_update_ext. intros k Hk.
  apply (prim_eqb_decide sh); [|done].
  destruct (group_rows_spec keys) as (_ & Hkeys & _). cbn zeta in Hkeys.
  apply Hkeys in Hk. by apply (proj1 (Forall_forall _ _) HD).
Qed.

(** [table_numeric_values_inv]: one entry per distinct key, holding the rows
    with that key. *)
Lemma group_by_value_spec sh keys :
  Forall (well_keyed sh) keys.*2 ->
  NoDup (group_by_value keys).*1
  /\ (forall k, k ∈ (group_by_value keys).*1 <-> k ∈ keys.*2)
  /\ forall k rows,
       well_keyed sh k ->
       dict_get prim_eqb (group_by_value keys) k = Ok rows ->
       forall r, r ∈ rows <-> (r, k) ∈ keys.
Proof.
  intros HD. pose proof (group_rows_spec keys) as H. cbn zeta in H.
  rewrite <-(group_by_value_eq sh) in H by done.
  destruct H as (Hnd & Hkeys & Hrows). split_and!; [done|done|].
  intros k rows Hk Hget r. rewrite <-Hrows. unfold dict_get_opt.
  rewrite <-(dict_get_ext prim_eqb).
  - by rewrite Hget.
  - intros k0 Hk0. apply (prim_eqb_decide sh); [|done].
    apply Hkeys in Hk0. by apply (proj1 (Forall_forall _ _) HD).
Qed.

Lemma foldM_inv_split {A S} (I : list A -> S -> Prop)
  (f : S -> A -> result S) l s s' :
  foldM f s l = Ok s' ->
  I [] s ->
  (forall done a rest s s',
     l = done ++ a :: rest -> I done s -> f s a = Ok s' ->
     I (done ++ [a]) s') ->
  I l s'.
Proof.
  intros Hrun Hs Hf.
  cut (forall done rest s,
         l = done ++ rest -> I done s -> foldM f s rest = Ok s' -> I l s').
  { intros H. by apply (H [] l s). }
  clear s Hs Hrun. intros done rest. revert done.
  induction rest as [|a rest IH]; intros done s Hl Hs Hrun; cbn in Hrun.
  - injection Hrun as <-. by rewrite Hl, app_nil_r.
  - apply bind_Ok in Hrun as (s1 & H1 & Hrun).
    apply (IH (done ++ [a]) s1); [by rewrite <-app_assoc| |done].
    by apply (Hf done a rest s s1).
Qed.

Lemma NoDup_fst_functional {A B} (l : list (A * B)) a b b' :
  NoDup l.*1 -> (a, b) ∈ l -> (a, b') ∈ l -> b = b'.
Proof.
  induction l as [|[a0 b0] l IH]; cbn; intros Hnd Hb Hb'.
  - by apply elem_of_nil in Hb.
  - apply NoDup_cons in Hnd as [Hnin Hnd].
    apply elem_of_cons in Hb as [Hb|Hb];
      apply elem_of_cons in Hb' as [Hb'|Hb']; simplify_eq; try done.
    + destruct Hnin. apply list_elem_of_fmap. by exists (a0, b').
    + destruct Hnin. apply list_elem_of_fmap. by exists (a0, b).
    + by apply IH.
Qed.

(** The loop over the rows of one key: the tokens of these rows' cells
    receive the rank pair, the other positions are left alone. *)
Lemma write_rank_rows column_ids row_ids (c : nat) rows (v1 v2 : Z)
  ranks inv_ranks ranks' inv_ranks' :
  length row_ids = length column_ids ->
  length ranks = length column_ids ->
  length inv_ranks = length column_ids ->
  foldM (fun '(ranks, inv_ranks) row_index =>
           ranks ← write_cell column_ids row_ids c row_index v1 ranks;
           inv_ranks ← write_cell column_ids row_ids c row_index v2
                         inv_ranks;
           Ok (ranks, inv_ranks))
    (ranks, inv_ranks) rows = Ok (ranks', inv_ranks') ->
  length ranks' = length column_ids
  /\ length inv_ranks' = length column_ids
  /\ forall j,
       ((exists r, r ∈ rows
                   /\ is_cell_token column_ids row_ids (Z.of_nat c)
                        (Z.of_nat r) j) ->
        ranks' !! j = Some v1 /\ inv_ranks' !! j = Some v2)
       /\ ((forall r, r ∈ rows ->
              ~ is_cell_token column_ids row_ids (Z.of_nat c)
                  (Z.of_nat r) j) ->
           ranks' !! j = ranks !! j /\ inv_ranks' !! j = inv_ranks !! j).
Proof.
  intros Hlen. revert ranks inv_ranks.
  induction rows as [|r0 rows IH]; intros ranks inv_ranks Hr Hi Hrun.
  - cbn in Hrun. injection Hrun as <- <-. split_and!; [done|done|].
    intros j. split; [|done]. by intros (r & ?%elem_of_nil & _).
  - cbn [foldM] in Hrun. apply bind_Ok in Hrun as ([ranks1 inv1] & Hstep & Hrun).
    apply bind_Ok in Hstep as (ranks1' & Hw1 & Hstep).
    apply bind_Ok in Hstep as (inv1' & Hw2 & Hstep).
    injection Hstep as -> ->.
    destruct (write_cell_spec column_ids row_ids c r0 v1 ranks Hlen Hr)
      as (x & Hx & Hlx & Hatx). rewrite Hw1 in Hx. injection Hx as <-.
    destruct (write_cell_spec column_ids row_ids c r0 v2 inv_ranks Hlen Hi)
      as (y & Hy & Hly & Haty). rewrite Hw2 in Hy. injection Hy as <-.
    destruct (IH ranks1 inv1 ltac:(congruence) ltac:(congruence) Hrun)
      as (Hl1 & Hl2 & Hat).
    split_and!; [done|done|]. intros j. destruct (Hat j) as [Hin Hout].
    split.
    + intros (r & [->|Hr']%elem_of_cons & Hj).
      * destruct (decide (r0 ∈ rows)) as [Hex|Hnex].
        -- apply Hin. by exists r0.
        -- destruct Hout as [-> ->].
           { intros r Hr' Hj'. apply Hnex.
             by injection (is_cell_token_inj _ _ _ _ _ _ _ Hj Hj') as ->. }
           rewrite Hatx, Haty. by rewrite !decide_True.
      * apply Hin. by exists r.
    + intros Hnot. destruct Hout as [-> ->].
      { intros r Hr'. apply Hnot. by right. }
      rewrite Hatx, Haty. rewrite !decide_False; [done|..];
        apply Hnot; left.
Qed.

(** The ranks written for one column: every token of a cell with a key
    receives the position of the key among the sorted distinct keys. *)
Lemma rank_column_spec sh column_ids row_ids (c : nat) keys
  ranks inv_ranks ranks' inv_ranks' :
  length row_ids = length column_ids ->
  length ranks = length column_ids ->
  length inv_ranks = length column_ids ->
  Forall (well_keyed sh) keys.*2 ->
  NoDup keys.*1 ->
  rank_column column_ids row_ids c keys ranks inv_ranks
  = Ok (ranks', inv_ranks') ->
  length ranks' = length column_ids
  /\ length inv_ranks' = length column_ids
  /\ forall j,
       (forall r k,
          (r, k) ∈ keys ->
          is_cell_token column_ids row_ids (Z.of_nat c) (Z.of_nat r) j ->
          ranks' !! j
          = Some (Z.of_nat (count_below (unique_values_of keys) k) + 1)
          /\ inv_ranks' !! j
             = Some (Z.of_nat (length (unique_values_of keys))
                     - Z.of_nat (count_below (unique_values_of keys) k)))
       /\ ((forall r, r ∈ keys.*1 ->
              ~ is_cell_token column_ids row_ids (Z.of_nat c)
                  (Z.of_nat r) j) ->
           ranks' !! j = ranks !! j /\ inv_ranks' !! j = inv_ranks !! j).
Proof.
  intros Hlen Hr Hi HD Hfun Hrun. unfold rank_column in Hrun.
  cbn zeta in Hrun. fold (unique_values_of keys) in Hrun.
  destruct (group_by_value_spec sh keys HD) as (Hnd & Hkeys & Hrows).
  assert (unique_values_of keys ≡ₚ (group_by_value keys).*1) as Hperm
    by apply sorted_perm.
  assert (Forall (well_keyed sh) (unique_values_of keys)) as HUD.
  { rewrite Hperm. apply Forall_forall. intros k Hk%Hkeys.
    by apply (proj1 (Forall_forall _ _) HD). }
  assert (NoDup (unique_values_of keys)) as HUnd by (by rewrite Hperm).
  assert (StronglySorted (fun a b => prim_ltb a b = true)
            (unique_values_of keys)) as Hsorted.
  { apply (sorted_sorted prim_ltb (well_keyed sh)).
    - apply prim_ltb_trans.
    - apply prim_ltb_total.
    - done.
    - rewrite <-Hperm. done. }
  set (U := unique_values_of keys) in *.
  pose proof (foldM_inv_split
    (fun done (st : list Z * list Z) =>
       length st.1 = length column_ids
       /\ length st.2 = length column_ids
       /\ forall j,
            (forall r k (rank : nat),
               (r, k) ∈ keys -> (rank, k) ∈ done ->
               is_cell_token column_ids row_ids (Z.of_nat c) (Z.of_nat r) j ->
               st.1 !! j = Some (Z.of_nat rank + 1)
               /\ st.2 !! j = Some (Z.of_nat (length U) - Z.of_nat rank))
            /\ ((forall r k,
                   (r, k) ∈ keys -> k ∈ done.*2 ->
                   ~ is_cell_token column_ids row_ids (Z.of_nat c)
                       (Z.of_nat r) j) ->
                st.1 !! j = ranks !! j /\ st.2 !! j = inv_ranks !! j))
    _ _ _ _ Hrun) as HI.
  cbn beta in HI. destruct HI as (Hl1 & Hl2 & Hat).
  - split_and!; [done|done|]. intros j. split; [|done].
    by intros r k rank _ ?%elem_of_nil.
  - clear Hrun ranks' inv_ranks'.
    intros done [rank' k'] rest [ranks1 inv1] [ranks2 inv2] Hsplit
      (Hl1 & Hl2 & Hat) Hstep. cbn [fst snd] in *.
    apply bind_Ok in Hstep as (rows & Hget & Hstep).
    assert (k' ∈ U) as Hk'U.
    { rewrite <-(enumerate_from_snd 0 U). fold (enumerate U).
      rewrite Hsplit, fmap_app, elem_of_app. right. left. }
    assert (well_keyed sh k') as Hk'D
      by (by apply (proj1 (Forall_forall _ _) HUD)).
    pose proof (Hrows k' rows Hk'D Hget) as Hrows'.
    assert (k' ∉ done.*2) as Hfresh.
    { pose proof HUnd as Hnd'.
      rewrite <-(enumerate_from_snd 0 U) in Hnd'. fold (enumerate U) in Hnd'.
      rewrite Hsplit, fmap_app in Hnd'.
      apply list.NoDup_app in Hnd' as (_ & Hdisj & _).
      intros Hin. apply (Hdisj k' Hin). left. }
    destruct (write_rank_rows _ _ _ _ _ _ _ _ _ _ Hlen Hl1 Hl2 Hstep)
      as (Hl1' & Hl2' & Hat').
    split_and!; [done|done|]. intros j.
    destruct (Hat j) as [Hdone Hother], (Hat' j) as [Hin Hout]. split.
    + intros r k rank Hrk [Hold|Hnew%list_elem_of_singleton]%elem_of_app Hj.
      * assert (k <> k') as Hne.
        { intros ->. apply Hfresh, list_elem_of_fmap. by exists (rank, k'). }
        destruct Hout as [-> ->]; [|by eapply Hdone].
        intros r' Hr'%Hrows' Hj'. apply Hne.
        injection (is_cell_token_inj _ _ _ _ _ _ _ Hj Hj') as ->.
        by eapply NoDup_fst_functional.
      * injection Hnew as -> ->. apply Hin. exists r. split; [|done].
        by apply Hrows'.
    + intros Hnot. destruct Hout as [-> ->].
      * intros r Hrk%Hrows'. apply (Hnot r k'); [done|].
        rewrite fmap_app, elem_of_app. right. left.
      * apply Hother. intros r k Hrk Hk. apply (Hnot r k); [done|].
        rewrite fmap_app, elem_of_app. by left.
  - split_and!; [done|done|]. intros j. destruct (Hat j) as [Hdone Hother].
    split.
    + intros r k Hrk Hj.
      assert (k ∈ U) as HkU.
      { rewrite Hperm. apply Hkeys, list_elem_of_fmap. by exists (r, k). }
      apply list_elem_of_lookup_1 in HkU as [i Hi'].
      assert (count_below U k = i) as ->.
      { by apply (sorted_index prim_ltb (well_keyed sh)
                    (prim_ltb_irrefl sh) (prim_ltb_trans sh)). }
      apply (Hdone r k i); [done| |done]. by apply elem_of_enumerate.
    + intros Hnot. apply Hother. intros r k Hrk _. apply Hnot.
      apply list_elem_of_fmap. by exists (r, k).
Qed.

Lemma foldM_Ok_each {A S} (f : S -> A -> result S) l s s' :
  foldM f s l = Ok s' -> forall a, a ∈ l -> exists s1 s2, f s1 a = Ok s2.
Proof.
  revert s. induction l as [|a0 l IH]; intros s Hrun a Ha.
  - by apply elem_of_nil in Ha.
  - cbn in Hrun. apply bind_Ok in Hrun as (s1 & H1 & Hrun).
    apply elem_of_cons in Ha as [->|Ha]; [by exists s, s1|].
    by apply (IH s1).
Qed.

Lemma all_dates (numeric_values : list NumericValue) :
  (forall v, v ∈ numeric_values -> _get_value_type v = Ok DATE_TYPE) ->
  exists dates, numeric_values = date_value <$> dates.
Proof.
  induction numeric_values as [|v vs IH]; intros Hall; [by exists []|].
  destruct IH as [dates ->]. { intros w Hw. apply Hall. by right. }
  pose proof (Hall v ltac:(left)) as Hv. unfold _get_value_type in Hv.
  destruct v as [[f|] [d|]]; cbn in Hv; try done.
  by exists (d :: dates).
Qed.

(** The keys a sort key function gives to the values it was built from all
    have one shape; they are free of NaN when the values are. *)
Lemma sort_key_fn_shape numeric_values key_fn :
  get_numeric_sort_key_fn numeric_values = Ok key_fn ->
  (forall v, v ∈ numeric_values -> float_value v <> Some FNaN) ->
  exists sh,
    forall v, v ∈ numeric_values ->
              exists k, key_fn v = Ok k /\ well_keyed sh k.
Proof.
  unfold get_numeric_sort_key_fn. intros (types & Htypes & Hfn)%bind_Ok Hnan.
  unfold _get_all_types in Htypes.
  pose proof (_get_all_types_from [] numeric_values (NoDup_nil_2)) as Hin.
  rewrite Htypes in Hin. destruct Hin as [_ Hin].
  pose proof (foldM_Ok_each _ _ _ _ Htypes) as Heach.
  destruct types as [|t [|? ?]]; [done| |done].
  assert (forall v, v ∈ numeric_values -> _get_value_type v = Ok t) as Hall.
  { intros v Hv. destruct (Heach v Hv) as (s1 & s2 & (t' & Ht' & _)%bind_Ok).
    rewrite Ht'. f_equal. apply list_elem_of_singleton, Hin. right.
    by exists v. }
  clear Hin Heach Htypes. case_decide as Ht.
  - subst t. injection Hfn as <-. exists None. intros v Hv.
    pose proof (Hall v Hv) as Htype. pose proof (Hnan v Hv) as Hf.
    unfold _get_value_type in Htype. unfold _get_value_as_primitive_value.
    destruct (float_value v) as [f|]; [|by destruct (date v)].
    exists (PFloat f). split; [done|]. cbn. congruence.
  - assert (t = DATE_TYPE) as -> by (by destruct t).
    destruct (all_dates _ Hall) as [dates ->].
    rewrite discard_unset_dates in Hfn. cbn [mbind result_bind] in Hfn.
    destruct (common_fields dates) as [|i0 valid] eqn:Hvalid; [done|].
    injection Hfn as <-. exists (Some (length (i0 :: valid))).
    intros v (d & -> & Hd)%list_elem_of_fmap.
    rewrite _sort_key_fn_date.
    + eexists. split; [done|]. cbn [well_keyed]. split.
      * by rewrite length_fmap.
      * apply Forall_fmap, Forall_forall. intros i Hi. cbn.
        rewrite <-Hvalid in Hi. unfold common_fields in Hi.
        apply list_elem_of_filter in Hi as [Hi _].
        destruct (proj1 (Forall_forall _ _) Hi d Hd) as [z ->].
        by exists (float_of_Z z).
    + intros i Hi. rewrite <-Hvalid in Hi. by eapply common_fields_lt.
Qed.

Lemma column_keys_spec (key_fn : NumericValue -> result PrimitiveValue)
  (tnv : list (nat * NumericValue)) keys :
  mapM (M := result)
    (fun '(row_index, value) => k ← key_fn value; Ok (row_index, k)) tnv
  = Ok keys ->
  keys.*1 = tnv.*1
  /\ omap (fun '(_, value) =>
             match key_fn value with
             | Ok k => Some k
             | Raise _ => None
             end) tnv = keys.*2
  /\ (forall r v k, (r, v) ∈ tnv -> key_fn v = Ok k -> (r, k) ∈ keys).
Proof.
  revert keys. induction tnv as [|[r0 v0] tnv IH]; intros keys Hrun.
  - cbn in Hrun. injection Hrun as <-. split_and!; [done|done|].
    by intros r v k ?%elem_of_nil.
  - cbn in Hrun. apply bind_Ok in Hrun as ([r1 k0] & Hk0 & Hrun).
    apply bind_Ok in Hk0 as (k0' & Hk0 & [= <- <-]).
    apply bind_Ok in Hrun as (keys' & Hkeys' & [= <-]).
    destruct (IH keys' Hkeys') as (H1 & H2 & H3). split_and!.
    + cbn. by f_equal.
    + cbn. rewrite Hk0. cbn. by f_equal.
    + intros r v k [[= -> ->]|Hin]%elem_of_cons Hk.
      * rewrite Hk0 in Hk. injection Hk as ->. left.
      * right. by eapply H3.
Qed.

Lemma column_values_rows P table c : NoDup (column_values P table c).*1.
Proof.
  unfold column_values, _get_column_values, _parse_column_values.
  generalize (seq 0 (num_data_rows table)) (NoDup_seq 0 (num_data_rows table)).
  intros rows. induction 1 as [|r rows Hnin Hnd IH]; cbn; [apply NoDup_nil_2|].
  assert (forall r',
            r' ∈ (omap (fun '(row_index, value) =>
                          match value : list NumericValue with
                          | [] => None
                          | v :: _ => Some (row_index, v)
                          end)
                    ((fun row_index : nat =>
                        (row_index,
                         _get_numeric_values P
                           (normalize_for_match P
                              (iloc table row_index c)))) <$> rows)).*1
            -> r' ∈ rows) as Hsub.
  { clear. intros r'. induction rows as [|r rows IH]; cbn; [done|].
    destruct (_get_numeric_values _ _); cbn.
    - intros ?%IH. by right.
    - intros [->|?%IH]%elem_of_cons; [left|by right]. }
  destruct (_get_numeric_values _ _); cbn; [done|].
  apply NoDup_cons. split; [|done]. by intros ?%Hsub.
Qed.

Lemma count_below_perm l l' k :
  l ≡ₚ l' -> count_below l k = count_below l' k.
Proof. intros Hperm. unfold count_below. by rewrite Hperm. Qed.

Lemma unique_values_distinct sh key_fn tnv keys :
  mapM (M := result)
    (fun '(row_index, value) => k ← key_fn value; Ok (row_index, k)) tnv
  = Ok keys ->
  Forall (well_keyed sh) keys.*2 ->
  unique_values_of keys ≡ₚ distinct_keys key_fn tnv.
Proof.
  intros (_ & Hkeys & _)%column_keys_spec HD.
  destruct (group_by_value_spec sh keys HD) as (Hnd & Hin & _).
  unfold unique_values_of, distinct_keys. rewrite sorted_perm, Hkeys.
  apply NoDup_Permutation; [done|apply NoDup_remove_dups|].
  intros k. by rewrite Hin, elem_of_remove_dups.
Qed.

(** Ranking a column changes no position of another column. *)
Lemma rank_column_other_columns column_ids row_ids (c : nat) keys
  ranks inv_ranks ranks' inv_ranks' :
  rank_column column_ids row_ids c keys ranks inv_ranks
  = Ok (ranks', inv_ranks') ->
  length ranks' = length ranks
  /\ length inv_ranks' = length inv_ranks
  /\ forall j, column_ids !! j <> Some (Z.of_nat c + 1) ->
               ranks' !! j = ranks !! j /\ inv_ranks' !! j = inv_ranks !! j.
Proof.
  unfold rank_column. intros Hrun.
  pose proof (foldM_inv_Ok
    (fun s : list Z * list Z =>
       length s.1 = length ranks
       /\ length s.2 = length inv_ranks
       /\ forall j, column_ids !! j <> Some (Z.of_nat c + 1) ->
                    s.1 !! j = ranks !! j /\ s.2 !! j = inv_ranks !! j)
    _ _ _ _ Hrun) as HI.
  apply HI; [done|]. clear.
  intros [r0 i0] [rank value] [r1 i1] _ Hinv.
  cbn [fst snd] in *. intros (rows_ & _ & Hrows)%bind_Ok.
  pose proof (foldM_inv_Ok
    (fun s : list Z * list Z =>
       length s.1 = length ranks
       /\ length s.2 = length inv_ranks
       /\ forall j, column_ids !! j <> Some (Z.of_nat c + 1) ->
                    s.1 !! j = ranks !! j /\ s.2 !! j = inv_ranks !! j)
    _ _ _ _ Hrows) as HI.
  apply HI; [done|]. clear.
  intros [r0 i0] row [r1 i1] _ (Hl1 & Hl2 & Hsame). cbn [fst snd] in *.
  intros (r2 & Hw1 & (i2 & Hw2 & [= <- <-])%bind_Ok)%bind_Ok.
  apply write_cell_Ok in Hw1 as [Hl1' Hsame1].
  apply write_cell_Ok in Hw2 as [Hl2' Hsame2].
  split_and!; [congruence|congruence|]. intros j Hj.
  rewrite Hsame1, Hsame2 by (by intros [? _]). by apply Hsame.
Qed.

Lemma column_ranked_local P column_ids row_ids table c
  ranks inv_ranks ranks' inv_ranks' :
  (forall j, column_ids !! j = Some (Z.of_nat c + 1) ->
             ranks' !! j = ranks !! j /\ inv_ranks' !! j = inv_ranks !! j) ->
  column_ranked P column_ids row_ids table c ranks inv_ranks ->
  column_ranked P column_ids row_ids table c ranks' inv_ranks'.
Proof.
  intros Hsame [HA HB]. split.
  - intros key_fn Hfn Hnan r v k j Hrv Hk Hj.
    destruct (Hsame j (proj1 Hj)) as [-> ->]. by eapply HA.
  - intros msg Hfn j Hj. destruct (Hsame j Hj) as [-> ->]. by eapply HB.
Qed.

(** Every column of the table ends up ranked. *)
Lemma _add_numeric_column_ranks_columns P column_ids row_ids table
  ranks inv_ranks c2nv :
  length row_ids = length column_ids ->
  _add_numeric_column_ranks P column_ids row_ids table
  = Ok (ranks, inv_ranks, c2nv) ->
  forall c, (c < length (columns table))%nat ->
            column_ranked P column_ids row_ids table c ranks inv_ranks.
Proof.
  intros Hlen Hrun. unfold _add_numeric_column_ranks in Hrun.
  pose proof (foldM_inv_split
    (fun done (st : rank_state) =>
       length st.1.1 = length column_ids
       /\ length st.1.2 = length column_ids
       /\ (forall c, c ∈ done ->
             column_ranked P column_ids row_ids table c st.1.1 st.1.2)
       /\ forall j,
            (forall c : nat, c ∈ done ->
                             column_ids !! j <> Some (Z.of_nat c + 1)) ->
            st.1.1 !! j = replicate (length column_ids) 0 !! j
            /\ st.1.2 !! j = replicate (length column_ids) 0 !! j)
    _ _ _ _ Hrun) as HI.
  cbn beta in HI. destruct HI as (_ & _ & Hcols & _).
  - cbn. rewrite length_replicate. split_and!; [done|done| |done].
    by intros c ?%elem_of_nil.
  - clear Hrun ranks inv_ranks c2nv.
    intros done c rest [[ranks1 inv1] c2nv1] [[ranks2 inv2] c2nv2] Hsplit
      (Hl1 & Hl2 & Hcols & Hzero) Hstep. cbn [fst snd] in *.
    cbn zeta in Hstep. fold (column_values P table c) in Hstep.
    assert (c ∉ done) as Hfresh.
    { pose proof (NoDup_seq 0 (length (columns table))) as Hnd.
      rewrite Hsplit in Hnd. apply list.NoDup_app in Hnd as (_ & Hdisj & _).
      intros Hin. apply (Hdisj c Hin). left. }
    assert (forall j, column_ids !! j = Some (Z.of_nat c + 1) ->
              ranks1 !! j = Some 0 /\ inv1 !! j = Some 0) as Hzero_c.
    { intros j Hj. destruct (Hzero j) as [-> ->].
      - intros c' Hc'. rewrite Hj. intros [= Heq].
        apply Hfresh. by replace c with c' by lia.
      - apply lookup_lt_Some in Hj. by rewrite lookup_replicate_2. }
    assert ((exists msg,
               get_numeric_sort_key_fn (column_values P table c).*2
               = Raise (ValueError msg))
            /\ ranks2 = ranks1 /\ inv2 = inv1
            \/ exists key_fn keys,
                 get_numeric_sort_key_fn (column_values P table c).*2
                 = Ok key_fn
                 /\ mapM (M := result)
                      (fun '(row_index, value) =>
                         k ← key_fn value; Ok (row_index, k))
                      (column_values P table c) = Ok keys
                 /\ rank_column column_ids row_ids c keys ranks1 inv1
                    = Ok (ranks2, inv2)) as [[[msg Hfn] [-> ->]]|Hranked].
    { destruct (column_values P table c) as [|x tnv] eqn:Htnv.
      - injection Hstep as <- <- _. left. split; [by eexists|done].
      - destruct (get_numeric_sort_key_fn _) as [key_fn|[]] eqn:Hfn;
          try done.
        + right. exists key_fn.
          apply bind_Ok in Hstep as (keys & Hkeys & Hstep).
          apply bind_Ok in Hstep as ([r i] & Hrank & [= <- <- _]).
          by exists keys.
        + injection Hstep as <- <- _. left. split; [by eexists|done]. }
    + split_and!; [done|done| |].
      * intros c' [Hc' | ->%list_elem_of_singleton]%elem_of_app;
          [by apply Hcols|].
        split; [by intros key_fn Hfn'; rewrite Hfn in Hfn'|].
        intros _ _. apply Hzero_c.
      * intros j Hj. apply Hzero. intros c' Hc'. apply Hj.
        apply elem_of_app. by left.
    + destruct Hranked as (key_fn & keys & Hfn & Hkeys & Hrank).
      destruct (rank_column_other_columns _ _ _ _ _ _ _ _ Hrank)
        as (Hl1' & Hl2' & Hother).
      split_and!; [congruence|congruence| |].
      * intros c' [Hc' | ->%list_elem_of_singleton]%elem_of_app.
        -- apply (column_ranked_local _ _ _ _ _ ranks1 inv1);
             [|by apply Hcols].
           intros j Hj. apply Hother. rewrite Hj. intros [= Heq].
           apply Hfresh. by replace c with c' by lia.
        -- split; [|by intros msg Hfn'; rewrite Hfn in Hfn'].
           intros key_fn' Hfn' Hnan r v k j Hrv Hk Hj.
           rewrite Hfn in Hfn'. injection Hfn' as <-.
           destruct (sort_key_fn_shape _ _ Hfn) as [sh Hshape].
           { intros w ([r' w'] & -> & Hw)%list_elem_of_fmap.
             by eapply Hnan. }
           destruct (column_keys_spec _ _ _ Hkeys) as (Hrows & Hks & Hin).
           assert (Forall (well_keyed sh) keys.*2) as HD.
           { rewrite <-Hks. apply Forall_forall.
             intros k' ([r' v'] & Hv' & Hk')%list_elem_of_omap.
             destruct (Hshape v') as (k'' & Hk'' & HD).
             { apply list_elem_of_fmap. by exists (r', v'). }
             rewrite Hk'' in Hk'. by injection Hk' as <-. }
           destruct (rank_column_spec sh _ _ _ _ _ _ _ _ Hlen Hl1 Hl2 HD
                       ltac:(rewrite Hrows; apply column_values_rows) Hrank)
             as (_ & _ & Hat).
           destruct (Hat j) as [Hcell _].
           destruct (Hcell r k (Hin r v k Hrv Hk) Hj) as [-> ->].
           unfold smaller_keys.
           rewrite (count_below_perm _ _ k
                      (unique_values_distinct sh _ _ _ Hkeys HD)).
           by rewrite (Permutation_length
                         (unique_values_distinct sh _ _ _ Hkeys HD)).
      * intros j Hj. destruct (Hother j) as [-> ->].
        -- apply Hj. apply elem_of_app. right. left.
        -- apply Hzero. intros c' Hc'. apply Hj. apply elem_of_app.
           by left.
  - intros c Hc. apply Hcols. apply elem_of_seq. lia.
Qed.

(** C4. When [_add_numeric_column_ranks] returns, take a column whose
    numeric values have a common sort key (none of them NaN): every token of
    a numeric cell whose key has [n] strictly smaller distinct keys in the
    column holds the rank [n + 1] and the inverse rank (number of distinct
    keys) - [n], so that cells with equal keys share a rank.  On a column
    whose values have no common sort key, every token keeps the rank 0 and
    the inverse rank 0. *)
Theorem column_ranks_by_sort_key P column_ids row_ids table
  ranks inv_ranks c2nv c :
  length row_ids = length column_ids ->
  _add_numeric_column_ranks P column_ids row_ids table
  = Ok (ranks, inv_ranks, c2nv) ->
  (c < length (columns table))%nat ->
  (forall key_fn,
     get_numeric_sort_key_fn (column_values P table c).*2 = Ok key_fn ->
     (forall r v, (r, v) ∈ column_values P table c ->
                  float_value v <> Some FNaN) ->
     forall r v k j,
       (r, v) ∈ column_values P table c -> key_fn v = Ok k ->
       is_cell_token column_ids row_ids (Z.of_nat c) (Z.of_nat r) j ->
       ranks !! j
       = Some (Z.of_nat (smaller_keys key_fn (column_values P table c) k)
               + 1)
       /\ inv_ranks !! j
          = Some (Z.of_nat (length (distinct_keys key_fn
                                      (column_values P table c)))
                  - Z.of_nat (smaller_keys key_fn
                                (column_values P table c) k)))
  /\ (forall msg,
        get_numeric_sort_key_fn (column_values P table c).*2
        = Raise (ValueError msg) ->
        forall j, column_ids !! j = Some (Z.of_nat c + 1) ->
                  ranks !! j = Some 0 /\ inv_ranks !! j = Some 0).
Proof.
  intros Hlen Hrun Hc.
  by apply (_add_numeric_column_ranks_columns _ _ _ _ _ _ _ Hlen Hrun c Hc).
Qed.

Lemma column_ranks_by_sort_key_witness :
  let table := data_frame ["Age"] [["20"]; ["10"]; ["30"]] in
  let column_ids := [0; 0; 0; 1; 1; 1; 1] in
  let row_ids := [0; 0; 0; 0; 1; 2; 3] in
  let tnv := column_values digits_parser table 0 in
  exists ranks inv_ranks c2nv,
    _add_numeric_column_ranks digits_parser column_ids row_ids table
    = Ok (ranks, inv_ranks, c2nv)
    /\ ranks = [0; 0; 0; 0; 2; 1; 3]
    /\ inv_ranks = [0; 0; 0; 0; 2; 3; 1]
    /\ ranks !! 4%nat
       = Some (Z.of_nat (smaller_keys _get_value_as_primitive_value tnv
                           (PFloat (float_of_Z 20))) + 1).
Proof.
  intros table column_ids row_ids tnv.
  destruct (_add_numeric_column_ranks digits_parser column_ids row_ids table)
    as [[[ranks inv_ranks] c2nv]|e] eqn:Hrun; [|by vm_compute in Hrun].
  exists ranks, inv_ranks, c2nv. split; [done|].
  assert (ranks = [0; 0; 0; 0; 2; 1; 3]
          /\ inv_ranks = [0; 0; 0; 0; 2; 3; 1]) as [Hranks Hinv].
  { vm_compute in Hrun. by injection Hrun as <- <- _. }
  split; [done|]. split; [done|].
  assert (tnv = [(0%nat, _get_numeric_value_from_float (float_of_Z 20));
                 (1%nat, _get_numeric_value_from_float (float_of_Z 10));
                 (2%nat, _get_numeric_value_from_float (float_of_Z 30))])
    as Htnv by reflexivity.
  destruct (column_ranks_by_sort_key digits_parser column_ids row_ids table
              ranks inv_ranks c2nv 0 eq_refl Hrun) as [Hcells _].
  { cbn. lia. }
  fold tnv in Hcells.
  apply (Hcells _get_value_as_primitive_value) with
    (r := 0%nat) (v := _get_numeric_value_from_float (float_of_Z 20)).
  - by rewrite Htnv.
  - intros r v Hrv. rewrite Htnv in Hrv.
    repeat (apply elem_of_cons in Hrv as [[= -> ->]|Hrv]; [done|]).
    by apply elem_of_nil in Hrv.
  - rewrite Htnv. left.
  - done.
  - by split.
Defined.

(** * Further properties of the code *)

(** ** Table tokenizer *)

Lemma elem_of_token_coordinates tokenized_rows c r t :
  mkTokenCoordinates c r t ∈ token_coordinates tokenized_rows
  <-> exists row cell tok,
        tokenized_rows !! r = Some row /\ row !! c = Some cell
        /\ cell !! t = Some tok.
Proof.
  unfold token_coordinates. rewrite list_elem_of_bind. split.
  - intros ([r' row] & Hin & Hrow%elem_of_enumerate).
    apply list_elem_of_bind in Hin as ([c' cell] & Hin & Hcell%elem_of_enumerate).
    apply list_elem_of_bind in Hin as ([t' tok] & Hin & Htok%elem_of_enumerate).
    apply list_elem_of_singleton in Hin as [= -> -> ->].
    by exists row, cell, tok.
  - intros (row & cell & tok & Hrow & Hcell & Htok).
    exists (r, row). split; [|by apply elem_of_enumerate].
    apply list_elem_of_bind. exists (c, cell).
    split; [|by apply elem_of_enumerate].
    apply list_elem_of_bind. exists (t, tok).
    split; [|by apply elem_of_enumerate]. by apply list_elem_of_singleton.
Qed.

(** X1. The tokenized table has the header row followed by one row per data
    row, each with one cell per column, and the coordinates it selects are
    exactly the positions of its tokens. *)
Theorem selected_tokens_are_token_positions self table :
  let tt := _tokenize_table self table in
  length (rows tt) = S (num_data_rows table)
  /\ Forall (fun row => length row = length (columns table)) (rows tt)
  /\ forall c r t,
       mkTokenCoordinates c r t ∈ selected_tokens tt
       <-> exists row cell tok,
             rows tt !! r = Some row /\ row !! c = Some cell
             /\ cell !! t = Some tok.
Proof.
  unfold _tokenize_table. cbn zeta. cbn [rows selected_tokens]. split_and!.
  - cbn [length]. by rewrite length_fmap, length_seq.
  - apply Forall_cons. split; [by rewrite length_fmap|].
    apply Forall_fmap, Forall_forall. intros r _. cbn.
    unfold row_cells. by rewrite !length_fmap, length_seq.
  - intros c r t. apply elem_of_token_coordinates.
Qed.

(** ** Table boundaries *)

Lemma _get_table_boundaries_from self tcs a b t :
  foldl
    (fun '(max_num_rows, max_num_columns, max_num_tokens) tc =>
       let max_num_columns := Nat.max max_num_columns (column_index tc + 1) in
       let max_num_rows := Nat.max max_num_rows (row_index tc + 1) in
       let max_num_tokens := Nat.max max_num_tokens (token_index tc + 1) in
       let max_num_columns := Nat.min (max_column_id self) max_num_columns in
       let max_num_rows := Nat.min (max_row_id self) max_num_rows in
       (max_num_rows, max_num_columns, max_num_tokens))
    (Nat.min (max_row_id self) a, Nat.min (max_column_id self) b, t) tcs
  = (Nat.min (max_row_id self)
       (Nat.max a (max_list ((fun tc => row_index tc + 1)%nat <$> tcs))),
     Nat.min (max_column_id self)
       (Nat.max b (max_list ((fun tc => column_index tc + 1)%nat <$> tcs))),
     Nat.max t (max_list ((fun tc => token_index tc + 1)%nat <$> tcs))).
Proof.
  revert a b t. induction tcs as [|tc tcs IH]; intros a b t; cbn [foldl].
  - cbn. by rewrite !Nat.max_0_r.
  - cbn zeta.
    replace (Nat.min (max_row_id self)
               (Nat.max (Nat.min (max_row_id self) a) (row_index tc + 1)))
      with (Nat.min (max_row_id self) (Nat.max a (row_index tc + 1)))
      by lia.
    replace (Nat.min (max_column_id self)
               (Nat.max (Nat.min (max_column_id self) b)
                  (column_index tc + 1)))
      with (Nat.min (max_column_id self) (Nat.max b (column_index tc + 1)))
      by lia.
    rewrite IH. cbn [fmap list_fmap max_list]. unfold id.
    f_equal; [f_equal|]; lia.
Qed.

(** X2. The table boundaries are one more than the largest row, column and
    token index among the selected tokens, the first two capped by
    [max_row_id] and [max_column_id]: capping inside the loop is capping at
    the end.  In particular every selected token lies below the token
    boundary. *)
Theorem table_boundaries_are_capped_maxima self table :
  _get_table_boundaries self table
  = (Nat.min (max_row_id self)
       (max_list ((fun tc => row_index tc + 1)%nat
                    <$> selected_tokens table)),
     Nat.min (max_column_id self)
       (max_list ((fun tc => column_index tc + 1)%nat
                    <$> selected_tokens table)),
     max_list ((fun tc => token_index tc + 1)%nat <$> selected_tokens table))
  /\ forall tc, tc ∈ selected_tokens table ->
                (token_index tc < (_get_table_boundaries self table).2)%nat.
Proof.
  assert (_get_table_boundaries self table
          = (Nat.min (max_row_id self)
               (max_list ((fun tc => row_index tc + 1)%nat
                            <$> selected_tokens table)),
             Nat.min (max_column_id self)
               (max_list ((fun tc => column_index tc + 1)%nat
                            <$> selected_tokens table)),
             max_list ((fun tc => token_index tc + 1)%nat
                         <$> selected_tokens table))) as Heq.
  { unfold _get_table_boundaries.
    pose proof (_get_table_boundaries_from self (selected_tokens table)
                  0 0 0)%nat as H.
    by rewrite !Nat.min_0_r, !Nat.max_0_l in H. }
  split; [done|]. intros tc Htc. rewrite Heq. cbn [snd].
  assert ((token_index tc + 1)%nat
          ∈ (fun tc => token_index tc + 1)%nat <$> selected_tokens table)
    as Hin by (apply list_elem_of_fmap; by exists tc).
  apply max_list_elem_of_le in Hin. lia.
Qed.

(** ** Serialized examples stay within the limits of the model *)

(** X3. With the row and column counts [_get_num_rows] and
    [_get_num_columns] accept, the example [_to_trimmed_features] serializes
    has four sequences of one length, at most [model_max_length], every
    column id below [max_column_id] and every row id below [max_row_id]. *)
Theorem serialized_example_within_limits self table question_tokens
  drop nr nc ex :
  (0 < max_row_id self)%nat ->
  _get_num_rows self table drop = Ok nr ->
  _get_num_columns self table = Ok nc ->
  fit_and_serialize self question_tokens (_tokenize_table self table)
    nc nr drop = Ok ex ->
  length (column_ids ex) = length (tokens ex)
  /\ length (row_ids ex) = length (tokens ex)
  /\ length (segment_ids ex) = length (tokens ex)
  /\ (length (tokens ex) <= model_max_length self)%nat
  /\ Forall (fun x => 0 <= x < Z.of_nat (max_column_id self)) (column_ids ex)
  /\ Forall (fun x => 0 <= x < Z.of_nat (max_row_id self)) (row_ids ex).
Proof.
  intros Hpos Hnr Hnc Hfit.
  assert (nr < max_row_id self)%nat as Hrows.
  { unfold _get_num_rows in Hnr. cbn in Hnr.
    case_decide; [destruct drop|]; simplify_eq; lia. }
  assert (nc < max_column_id self)%nat as Hcols.
  { unfold _get_num_columns in Hnc. cbn in Hnc.
    case_decide; simplify_eq; lia. }
  unfold fit_and_serialize in Hfit.
  apply bind_Ok in Hfit as ([r k] & Hsearch & Hfit).
  apply bind_Ok in Hfit as (ex' & Hser & Hfit).
  case_decide as Hle; [|done]. injection Hfit as ->.
  pose proof (trim_search_spec self question_tokens table nc drop nr) as Hr.
  cbn zeta in Hr. rewrite Hsearch in Hr. destruct Hr as (Hr & _).
  destruct (_serialize_values self question_tokens table nc r k)
    as (vs & Hser' & Hvs).
  rewrite Hser in Hser'. injection Hser' as ->. clear Hser Hsearch.
  cbn [tokens column_ids row_ids segment_ids] in *.
  cbn [length] in *.
  rewrite !length_app, ?length_replicate, ?length_fmap in *.
  cbn [length] in *. rewrite ?length_fmap in *.
  split_and!; try lia.
  - apply Forall_app. split.
    + apply Forall_forall. intros x [-> _]%elem_of_replicate. lia.
    + apply Forall_fmap, Forall_forall. intros v Hv. cbn.
      apply Hvs in Hv as (r' & c & _ & _ & _ & _ & _ & _ & _ & Hc & _ & -> & _).
      lia.
  - apply Forall_app. split.
    + apply Forall_forall. intros x [-> _]%elem_of_replicate. lia.
    + apply Forall_fmap, Forall_forall. intros v Hv. cbn.
      apply Hvs in Hv as (r' & c & _ & _ & _ & _ & _ & _ & Hr' & _ & _ & _ & ->).
      lia.
Qed.

Lemma serialized_example_within_limits_witness :
  let self := toy_tokenizer 8 (-1) false false in
  let table := data_frame ["Age"] [["30"]; ["25"]] in
  exists ex,
    fit_and_serialize self ["30"] (_tokenize_table self table) 1 2 false
    = Ok ex
    /\ length (row_ids ex) = length (tokens ex)
    /\ Forall (fun x => 0 <= x < 8) (row_ids ex).
Proof.
  intros self table.
  destruct (fit_and_serialize self ["30"] (_tokenize_table self table)
              1 2 false) as [ex|e] eqn:Hfit; [|by vm_compute in Hfit].
  exists ex. split; [done|].
  destruct (serialized_example_within_limits self table ["30"] false 2 1 ex)
    as (_ & Hlen & _ & _ & _ & Hrows); try done.
  cbn. lia.
Defined.

(** ** Sort keys *)

Lemma _get_all_types_single numeric_values t :
  _get_all_types numeric_values = Ok [t] ->
  forall v, v ∈ numeric_values -> _get_value_type v = Ok t.
Proof.
  unfold _get_all_types. intros Htypes.
  pose proof (_get_all_types_from [] numeric_values (NoDup_nil_2)) as Hin.
  rewrite Htypes in Hin. destruct Hin as [_ Hin].
  pose proof (foldM_Ok_each _ _ _ _ Htypes) as Heach.
  intros v Hv. destruct (Heach v Hv) as (s1 & s2 & (t' & Ht' & _)%bind_Ok).
  rewrite Ht'. f_equal. apply list_elem_of_singleton, Hin. right.
  by exists v.
Qed.

(** The two ways [get_numeric_sort_key_fn] returns a key function. *)
Lemma sort_key_fn_cases numeric_values key_fn :
  get_numeric_sort_key_fn numeric_values = Ok key_fn ->
  (key_fn = _get_value_as_primitive_value
   /\ forall v, v ∈ numeric_values -> is_Some (float_value v))
  \/ exists dates,
       numeric_values = date_value <$> dates
       /\ common_fields dates <> []
       /\ key_fn = _sort_key_fn (common_fields dates).
Proof.
  unfold get_numeric_sort_key_fn. intros (types & Htypes & Hfn)%bind_Ok.
  destruct types as [|t [|? ?]]; [done| |done].
  pose proof (_get_all_types_single _ _ Htypes) as Hall.
  case_decide as Ht.
  - subst t. injection Hfn as <-. left. split; [done|]. intros v Hv.
    specialize (Hall v Hv). unfold _get_value_type in Hall.
    destruct (float_value v); [by eexists|by destruct (date v)].
  - assert (t = DATE_TYPE) as -> by (by destruct t).
    destruct (all_dates _ Hall) as [dates ->]. right. exists dates.
    rewrite discard_unset_dates in Hfn. cbn [mbind result_bind] in Hfn.
    destruct (common_fields dates) as [|i0 valid] eqn:Hvalid; [done|].
    by injection Hfn as <-.
Qed.

(** Building a sort key fails with [ValueError] only, the exception the
    callers catch. *)
Lemma get_numeric_sort_key_fn_raises numeric_values e :
  get_numeric_sort_key_fn numeric_values = Raise e ->
  exists msg, e = ValueError msg.
Proof.
  unfold get_numeric_sort_key_fn.
  destruct (_get_all_types numeric_values) as [types|e'] eqn:Htypes;
    cbn [mbind result_bind].
  - destruct types as [|t [|? ?]]; [intros [= <-]; by eexists| |
                                    intros [= <-]; by eexists].
    case_decide as Ht; [done|].
    assert (t = DATE_TYPE) as -> by (by destruct t).
    destruct (all_dates _ (_get_all_types_single _ _ Htypes)) as [dates ->].
    rewrite discard_unset_dates. cbn [mbind result_bind].
    destruct (common_fields dates); [|done]. intros [= <-]. by eexists.
  - intros [= <-]. unfold _get_all_types in Htypes.
    pose proof (_get_all_types_from [] numeric_values (NoDup_nil_2)) as H.
    rewrite Htypes in H. by eexists.
Qed.

Lemma sort_key_fn_defined numeric_values key_fn :
  get_numeric_sort_key_fn numeric_values = Ok key_fn ->
  forall v, v ∈ numeric_values -> exists k, key_fn v = Ok k.
Proof.
  intros [[-> Hnum]|(dates & -> & Hvalid & ->)]%sort_key_fn_cases.
  - intros v [f Hf]%Hnum. exists (PFloat f).
    unfold _get_value_as_primitive_value. by rewrite Hf.
  - intros v (d & -> & Hd)%list_elem_of_fmap. rewrite _sort_key_fn_date.
    + by eexists.
    + intros i. apply common_fields_lt.
Qed.

(** A key function that [_get_numeric_sort_key_fn] returns is the one
    [get_numeric_sort_key_fn] builds from the column and the value. *)
Lemma _get_numeric_sort_key_fn_Some table_numeric_values value fn :
  _get_numeric_sort_key_fn table_numeric_values value = Ok (Some fn) ->
  get_numeric_sort_key_fn (table_numeric_values.*2 ++ [value]) = Ok fn.
Proof.
  unfold _get_numeric_sort_key_fn.
  destruct table_numeric_values as [|x l]; [done|].
  destruct (get_numeric_sort_key_fn _) as [fn'|[]]; congruence.
Qed.

(** Two of the values a key function was built from have keys that Python
    can order, and on which [==] is equality, NaN apart. *)
Lemma sort_key_fn_pair numeric_values key_fn v w :
  get_numeric_sort_key_fn numeric_values = Ok key_fn ->
  v ∈ numeric_values -> w ∈ numeric_values ->
  exists kv kw,
    key_fn v = Ok kv /\ key_fn w = Ok kw /\ comparable kv kw
    /\ (prim_eqb kv kw = true -> kv = kw)
    /\ (float_value v <> Some FNaN -> kv = kw -> prim_eqb kv kw = true)
    /\ prim_ltb kv kv = false.
Proof.
  intros Hfn Hv Hw.
  destruct (sort_key_fn_cases _ _ Hfn)
    as [[-> Hnum]|(dates & Hnv & Hvalid & Hkey)].
  - destruct (Hnum v Hv) as [f Hf], (Hnum w Hw) as [g Hg].
    exists (PFloat f), (PFloat g). unfold _get_value_as_primitive_value.
    rewrite Hf, Hg. split_and!; try done.
    + cbn. destruct f, g; cbn; try done.
      intros ?%bool_decide_eq_true. congruence.
    + intros Hnan [= <-]. cbn. apply float_eqb_eq; [congruence|done].
    + apply float_ltb_irrefl.
  - destruct (sort_key_fn_shape _ _ Hfn) as [sh Hshape].
    { intros x Hx. rewrite Hnv in Hx.
      by apply list_elem_of_fmap in Hx as (d & -> & _). }
    destruct (Hshape v Hv) as (kv & Hkv & Dv).
    destruct (Hshape w Hw) as (kw & Hkw & Dw).
    exists kv, kw. split_and!; try done.
    + by eapply well_keyed_comparable.
    + intros H. by apply (prim_eqb_eq sh).
    + intros _ H. by apply (prim_eqb_eq sh).
    + by apply (prim_ltb_irrefl sh).
Qed.

(** C5. Under the sort key [_get_numeric_sort_key_fn] builds for a question
    value and a column, the question value and every cell value of the column
    have keys [kv] and [kc], and [get_numeric_relation] returns (it does not
    raise): EQ only when the keys are equal, and whenever they are equal
    unless the question value is NaN; with equal keys it reports neither LT
    nor GT.  When [_add_numeric_relations] returns, every token of a data cell
    holds the sum of [2 ^ (ordinal - EQ ordinal)] over the duplicate-free set
    of the relations the cell has with the numeric values of the question;
    this is 0 for a cell with no relation. *)
Theorem numeric_relations_encoding P question column_ids row_ids table
  numeric_relations :
  length row_ids = length column_ids ->
  _add_numeric_relations P question column_ids row_ids table
    (columns_to_numeric_values_of P table) = Ok numeric_relations ->
  (forall table_numeric_values value sort_key_fn r cell,
     _get_numeric_sort_key_fn table_numeric_values value
     = Ok (Some sort_key_fn) ->
     (r, cell) ∈ table_numeric_values ->
     exists kv kc rel,
       sort_key_fn value = Ok kv /\ sort_key_fn cell = Ok kc
       /\ get_numeric_relation value cell sort_key_fn = Ok rel
       /\ (rel = Some EQ -> kv = kc)
       /\ (float_value value <> Some FNaN -> (rel = Some EQ <-> kv = kc))
       /\ (kv = kc -> rel <> Some LT /\ rel <> Some GT))
  /\ forall (c r : nat) j,
       is_cell_token column_ids row_ids (Z.of_nat c) (Z.of_nat r) j ->
       exists relations,
         NoDup relations
         /\ (forall rel,
               rel ∈ relations <-> cell_relation P question table c r rel)
         /\ numeric_relations !! j = Some (relation_sum relations)
         /\ ((forall rel, ~ cell_relation P question table c r rel) ->
             numeric_relations !! j = Some 0).
Proof.
  intros Hlen Hrun. split.
  - intros tnv value fn r cell Hfn Hcell.
    apply _get_numeric_sort_key_fn_Some in Hfn.
    destruct (sort_key_fn_pair _ _ value cell Hfn)
      as (kv & kc & Hkv & Hkc & Hcmp & Heq & Hrefl & Hirr).
    { apply elem_of_app. right. by left. }
    { apply elem_of_app. left. apply list_elem_of_fmap. by exists (r, cell). }
    exists kv, kc. eexists. split; [done|]. split; [done|].
    split; [by apply get_numeric_relation_keys|].
    destruct (prim_eqb kv kc) eqn:E.
    + specialize (Heq eq_refl). by split_and!.
    + split_and!.
      * by repeat case_match.
      * intros Hnan. split; [by repeat case_match|].
        intros Hk. specialize (Hrefl Hnan Hk). congruence.
      * intros <-. rewrite Hirr. by split.
  - intros c r j Hj. unfold _add_numeric_relations in Hrun.
    apply bind_Ok in Hrun as (rels & Hrels & Hwrite).
    destruct (collect_relations_spec _ _ _ _ Hrels) as [[Hkeys Hsets] Hin].
    assert (forall rel, rel ∈ rels_lookup rels (c, r) ->
              rel = EQ \/ rel = LT \/ rel = GT) as Hcases.
    { intros rel (_ & span & value & _ & _ & fn & cv & _ & _ & Hrel)%Hin.
      by eapply get_numeric_relation_cases. }
    assert (numeric_relations !! j
            = Some (relation_sum (rels_lookup rels (c, r)))) as Hat.
    { destruct (write_relations _ _ _ _ _ Hlen
                  (length_replicate _ _) Hkeys Hwrite j c r Hj)
        as [Hrec Hnot].
      destruct (decide ((c, r) ∈ rels.*1)) as [Hkey|Hkey].
      - apply list_elem_of_fmap in Hkey as ([k S] & Hk & HS).
        cbn in Hk. subst k. destruct (Hrec S HS) as (idx & Hidx & ->).
        assert (rels_lookup rels (c, r) = S) as Hlookup.
        { unfold rels_lookup.
          by rewrite (dict_get_opt_elem_of _ coords_eqb_eq _ _ S). }
        rewrite Hlookup in *.
        rewrite relation_set_index_sum in Hidx by done. congruence.
      - rewrite Hnot by done. unfold rels_lookup.
        rewrite (dict_get_opt_None _ coords_eqb_eq) by done. cbn.
        destruct Hj as [Hc _]. apply lookup_lt_Some in Hc.
        by apply lookup_replicate_2. }
    exists (rels_lookup rels (c, r)). split_and!; [done|done|done|].
    intros Hnone. rewrite Hat.
    destruct (rels_lookup rels (c, r)) as [|rel S] eqn:HS; [done|].
    destruct (Hnone rel). apply Hin. rewrite HS. left.
Qed.

Lemma numeric_relations_encoding_witness :
  let table := data_frame ["Age"] [["30"]; ["25"]] in
  let v30 := _get_numeric_value_from_float (float_of_Z 30) in
  let v25 := _get_numeric_value_from_float (float_of_Z 25) in
  exists numeric_relations,
    _add_numeric_relations digits_parser "30"
      [0; 0; 0; 1; 1; 1] [0; 0; 0; 0; 1; 2] table
      (columns_to_numeric_values_of digits_parser table)
    = Ok numeric_relations
    /\ numeric_relations !! 4%nat = Some 1
    /\ (exists relations,
          (forall rel,
             rel ∈ relations
             <-> cell_relation digits_parser "30" table 0 1 rel)
          /\ numeric_relations !! 5%nat = Some (relation_sum relations))
    /\ get_numeric_relation v30 v30 _get_value_as_primitive_value
       = Ok (Some EQ).
Proof.
  intros table v30 v25.
  destruct (_add_numeric_relations digits_parser "30"
              [0; 0; 0; 1; 1; 1] [0; 0; 0; 0; 1; 2] table
              (columns_to_numeric_values_of digits_parser table))
    as [numeric_relations|e] eqn:Hrun; [|by vm_compute in Hrun].
  exists numeric_relations. split; [done|]. split.
  { vm_compute in Hrun. by injection Hrun as <-. }
  destruct (numeric_relations_encoding digits_parser "30"
              [0; 0; 0; 1; 1; 1] [0; 0; 0; 0; 1; 2] table numeric_relations
              eq_refl Hrun) as [Hpair Hcells].
  split.
  - destruct (Hcells 0%nat 1%nat 5%nat) as (relations & _ & Hin & Hat & _).
    + by split.
    + by exists relations.
  - destruct (Hpair [(0%nat, v30); (1%nat, v25)] v30
                _get_value_as_primitive_value 0%nat v30 eq_refl
                ltac:(left))
      as (kv & kc & rel & Hkv & Hkc & -> & _ & Hiff & _).
    f_equal. apply Hiff; [done|]. congruence.
Defined.

(** X4. Choosing the sort key for a question value against a column never
    raises: there is no key for an empty column, and a key function that is
    returned is defined on the question value and on every value of the
    column. *)
Theorem question_sort_key_never_raises table_numeric_values value :
  (exists r, _get_numeric_sort_key_fn table_numeric_values value = Ok r)
  /\ (table_numeric_values = [] ->
      _get_numeric_sort_key_fn table_numeric_values value = Ok None)
  /\ forall sort_key_fn,
       _get_numeric_sort_key_fn table_numeric_values value
       = Ok (Some sort_key_fn) ->
       (exists k, sort_key_fn value = Ok k)
       /\ forall r v, (r, v) ∈ table_numeric_values ->
                      exists k, sort_key_fn v = Ok k.
Proof.
  unfold _get_numeric_sort_key_fn.
  destruct table_numeric_values as [|x tnv]; [by split_and!; [eexists| |]|].
  destruct (get_numeric_sort_key_fn _) as [fn|e] eqn:Hfn.
  - split_and!; [by eexists|done|]. intros fn' [= <-].
    pose proof (sort_key_fn_defined _ _ Hfn) as Hdef. split.
    + apply Hdef. apply elem_of_app. right. left.
    + intros r v Hrv. apply Hdef. apply elem_of_app. left.
      apply list_elem_of_fmap. by exists (r, v).
  - destruct (get_numeric_sort_key_fn_raises _ _ Hfn) as [msg ->].
    split_and!; [by eexists|done|done].
Qed.

(** X5. A sort key function is defined on every value it was built from;
    when these values are numbers, the key of a number is its float. *)
Theorem sort_key_defined_on_its_values numeric_values key_fn :
  get_numeric_sort_key_fn numeric_values = Ok key_fn ->
  (forall v, v ∈ numeric_values -> exists k, key_fn v = Ok k)
  /\ ((exists v, v ∈ numeric_values /\ is_Some (float_value v)) ->
      forall v f, float_value v = Some f -> key_fn v = Ok (PFloat f)).
Proof.
  intros Hfn. split; [by apply sort_key_fn_defined|].
  apply sort_key_fn_cases in Hfn
    as [[-> Hnum]|(dates & -> & Hvalid & ->)].
  - intros _ v f Hf. unfold _get_value_as_primitive_value. by rewrite Hf.
  - intros (v & (d & -> & _)%list_elem_of_fmap & [f Hf]). done.
Qed.

Lemma sort_key_defined_on_its_values_witness :
  let v := _get_numeric_value_from_float (float_of_Z 3) in
  exists key_fn,
    get_numeric_sort_key_fn [v] = Ok key_fn
    /\ key_fn v = Ok (PFloat (float_of_Z 3)).
Proof.
  intros v. exists _get_value_as_primitive_value. split; [done|].
  destruct (sort_key_defined_on_its_values [v] _get_value_as_primitive_value
              eq_refl) as [_ Hnum].
  apply Hnum; [|done]. exists v. split; [left|by eexists].
Defined.

(** ** Relations between a question value and a cell value *)

(** X6. Under one sort key with keys free of NaN, two values always stand
    in a relation: EQ exactly when their keys are equal, and LT one way
    exactly when GT the other way.  A NaN key stands in no relation with a
    float key. *)
Theorem numeric_relation_is_an_order sh value other sort_key_fn kv ko :
  sort_key_fn value = Ok kv -> sort_key_fn other = Ok ko ->
  well_keyed sh kv -> well_keyed sh ko ->
  (exists rel, get_numeric_relation value other sort_key_fn = Ok (Some rel))
  /\ (get_numeric_relation value other sort_key_fn = Ok (Some EQ)
      <-> kv = ko)
  /\ (get_numeric_relation value other sort_key_fn = Ok (Some LT)
      <-> get_numeric_relation other value sort_key_fn = Ok (Some GT))
  /\ (get_numeric_relation value other sort_key_fn = Ok (Some GT)
      <-> get_numeric_relation other value sort_key_fn = Ok (Some LT)).
Proof.
  intros Hv Ho Dv Do.
  rewrite (get_numeric_relation_keys _ _ _ _ _ Hv Ho)
    by by eapply well_keyed_comparable.
  rewrite (get_numeric_relation_keys _ _ _ _ _ Ho Hv)
    by by eapply well_keyed_comparable.
  pose proof (prim_eqb_eq sh kv ko Dv Do) as Heq.
  pose proof (prim_eqb_eq sh ko kv Do Dv) as Heq'.
  pose proof (prim_ltb_irrefl sh kv Dv) as Hirr.
  pose proof (prim_ltb_trans sh kv ko kv Dv Do Dv) as Htrans.
  pose proof (prim_ltb_total sh kv ko Dv Do) as Htotal.
  destruct (prim_eqb kv ko) eqn:E1; destruct (prim_eqb ko kv) eqn:E2.
  - split_and!; [by eexists|split; [intros _; by apply Heq|done]|done|done].
  - destruct Heq as [Heq _]. specialize (Heq eq_refl). subst ko.
    destruct Heq' as [_ Heq']. by specialize (Heq' eq_refl).
  - destruct Heq' as [Heq' _]. specialize (Heq' eq_refl). subst ko.
    destruct Heq as [_ Heq]. by specialize (Heq eq_refl).
  - assert (kv <> ko) as Hne.
    { intros Hk. apply Heq in Hk. done. }
    destruct (prim_ltb kv ko) eqn:L1; destruct (prim_ltb ko kv) eqn:L2.
    + rewrite Hirr in Htrans. by specialize (Htrans eq_refl eq_refl).
    + split_and!; [by eexists|split; [done|by intros ?]|done|done].
    + split_and!; [by eexists|split; [done|by intros ?]|done|done].
    + by destruct (Htotal Hne).
Qed.

Lemma numeric_relation_is_an_order_witness :
  let v3 := _get_numeric_value_from_float (float_of_Z 3) in
  let v5 := _get_numeric_value_from_float (float_of_Z 5) in
  get_numeric_relation v3 v5 _get_value_as_primitive_value = Ok (Some LT)
  <-> get_numeric_relation v5 v3 _get_value_as_primitive_value
      = Ok (Some GT).
Proof.
  intros v3 v5.
  apply (numeric_relation_is_an_order None v3 v5
           _get_value_as_primitive_value (PFloat (float_of_Z 3))
           (PFloat (float_of_Z 5))); done.
Defined.

(** X7. A value whose key is NaN stands in no relation with any float
    key, in either direction: it contributes nothing to the numeric
    relations. *)
Theorem nan_has_no_numeric_relation value other sort_key_fn f :
  sort_key_fn value = Ok (PFloat FNaN) ->
  sort_key_fn other = Ok (PFloat f) ->
  get_numeric_relation value other sort_key_fn = Ok None
  /\ get_numeric_relation other value sort_key_fn = Ok None.
Proof.
  intros Hv Ho.
  rewrite (get_numeric_relation_keys _ _ _ _ _ Hv Ho) by done.
  rewrite (get_numeric_relation_keys _ _ _ _ _ Ho Hv) by done.
  by destruct f.
Qed.

Lemma nan_has_no_numeric_relation_witness :
  get_numeric_relation (_get_numeric_value_from_float FNaN)
    (_get_numeric_value_from_float (float_of_Z 1))
    _get_value_as_primitive_value = Ok None.
Proof.
  by apply (nan_has_no_numeric_relation
              (_get_numeric_value_from_float FNaN)
              (_get_numeric_value_from_float (float_of_Z 1))
              _get_value_as_primitive_value (float_of_Z 1)).
Defined.

(** ** The numeric values of a column *)

(** X8. The numeric values of a column hold, for every data row whose cell
    parses to at least one numeric value, the first of these values, in row
    order and once per row; the rows of the other cells are absent. *)
Theorem column_values_are_first_parsed_values P table c :
  (forall r v,
     (r, v) ∈ column_values P table c
     <-> (r < num_data_rows table)%nat
         /\ head (_get_numeric_values P
                    (normalize_for_match P (iloc table r c))) = Some v)
  /\ StronglySorted lt (column_values P table c).*1.
Proof.
  unfold column_values, _get_column_values, _parse_column_values.
  split.
  - intros r v. rewrite list_elem_of_omap. split.
    + intros ([r' vs] & (r0 & Heq & Hr%elem_of_seq)%list_elem_of_fmap & Hv).
      destruct vs as [|v0 vs]; [done|]. injection Hv as -> ->.
      injection Heq as -> Hvs. split; [lia|]. by rewrite <-Hvs.
    + intros [Hr Hhead].
      exists (r, _get_numeric_values P
                   (normalize_for_match P (iloc table r c))).
      split.
      * apply list_elem_of_fmap. exists r. split; [done|].
        apply elem_of_seq. lia.
      * destruct (_get_numeric_values _ _); [done|]. cbn in Hhead.
        by injection Hhead as ->.
  - generalize 0%nat at 1. generalize (num_data_rows table).
    intros n. induction n as [|n IH]; intros s; cbn; [constructor|].
    assert (Forall (lt s)
              (omap (fun '(row_index, value) =>
                       match value : list NumericValue with
                       | [] => None
                       | v :: _ => Some (row_index, v)
                       end)
                 ((fun row_index : nat =>
                     (row_index,
                      _get_numeric_values P
                        (normalize_for_match P (iloc table row_index c))))
                    <$> seq (S s) n)).*1) as Hall.
    { apply Forall_forall. intros r ([r' v] & -> & Hin)%list_elem_of_fmap.
      apply list_elem_of_omap in Hin as ([r0 vs] & Hin & Hv).
      apply list_elem_of_fmap in Hin as (r1 & [= -> ->] & Hr%elem_of_seq).
      destruct (_get_numeric_values _ _); [done|]. injection Hv as -> _.
      cbn. lia. }
    destruct (_get_numeric_values _ _); cbn; [apply IH|].
    apply SSorted_cons; [apply IH|done].
Qed.

(** ** The decoder skips examples without table tokens *)

Lemma decode_example_skips example threshold r :
  decode_example example threshold = Ok r ->
  r = None <-> without_table_tokens example = true.
Proof.
  unfold decode_example, without_table_tokens. cbn zeta.
  fold (example_column_ids example). fold (example_row_ids example).
  destruct (tensor_max (example_column_ids example)) as [w|]; [|done].
  destruct (tensor_max (example_row_ids example)) as [h|]; [|done].
  cbn [mbind result_bind]. case_decide as Hzero.
  - intros [= <-]. by rewrite bool_decide_eq_true.
  - intros (d & _ & [= <-])%bind_Ok. split; [done|].
    by intros ?%bool_decide_eq_true.
Qed.

Lemma convert_logits_to_predictions_length acc data threshold answers :
  foldM (fun answer_coordinates_batch example =>
           r ← decode_example example threshold;
           match r with
           | None => Ok answer_coordinates_batch
           | Some answer_coordinates =>
               Ok (answer_coordinates_batch ++ [answer_coordinates])
           end)
    acc data = Ok answers ->
  length answers
  = (length acc
     + length (filter (fun example => without_table_tokens example = false)
                 data))%nat.
Proof.
  revert acc. induction data as [|example data IH]; intros acc Hrun.
  - cbn in Hrun. injection Hrun as <-. cbn. lia.
  - cbn [foldM] in Hrun. apply bind_Ok in Hrun as (acc' & Hstep & Hrun).
    apply bind_Ok in Hstep as (r & Hr & Hstep).
    apply IH in Hrun. rewrite Hrun, filter_cons.
    pose proof (decode_example_skips _ _ _ Hr) as Hskip.
    destruct r as [l|]; injection Hstep as <-.
    + rewrite decide_True.
      * rewrite length_app. cbn. lia.
      * destruct (without_table_tokens example); [|done].
        destruct Hskip as [_ Hskip]. by specialize (Hskip eq_refl).
    + rewrite decide_False; [done|].
      destruct Hskip as [Hskip _]. by rewrite Hskip.
Qed.

(** X9. The decoder returns one coordinate list per example that carries a
    table token and none for the others: a batch with an example made of
    question and padding tokens only yields fewer lists than it has
    examples. *)
Theorem decoder_drops_examples_without_table_tokens data threshold answers :
  convert_logits_to_predictions data threshold = Ok answers ->
  length answers
  = length (filter (fun example => without_table_tokens example = false)
              data)
  /\ ((exists example,
         example ∈ data /\ example <> []
         /\ Forall (fun e => tt_column_ids (te_token_type_ids e) = 0
                             /\ tt_row_ids (te_token_type_ids e) = 0)
              example) ->
      (length answers < length data)%nat).
Proof.
  intros Hrun. apply convert_logits_to_predictions_length in Hrun.
  cbn in Hrun. split; [done|].
  intros (example & Hin & Hne & Hzero). rewrite Hrun.
  apply (length_filter_lt _ _ example); [done|].
  assert (without_table_tokens example = true) as ->; [|done].
  unfold without_table_tokens.
  destruct (tensor_max_spec (example_column_ids example))
    as (w & -> & Hw & _).
  { unfold example_column_ids. by destruct example. }
  destruct (tensor_max_spec (example_row_ids example)) as (h & -> & Hh & _).
  { unfold example_row_ids. by destruct example. }
  apply bool_decide_eq_true.
  apply list_elem_of_fmap in Hw as (e & -> & He).
  apply list_elem_of_fmap in Hh as (e' & -> & He').
  split.
  - by apply (proj1 (Forall_forall _ _) Hzero e).
  - by apply (proj1 (Forall_forall _ _) Hzero e').
Qed.

Lemma decoder_drops_examples_without_table_tokens_witness :
  let question_token :=
    mkTokenEntry 0 1 (mkTokenTypeIds 0 0 0 0 0 0 0) in
  exists answers,
    convert_logits_to_predictions [[question_token]] (1 # 2) = Ok answers
    /\ (length answers < 1)%nat.
Proof.
  intros question_token. exists []. split; [reflexivity|].
  apply (decoder_drops_examples_without_table_tokens
           [[question_token]] (1 # 2) []); [reflexivity|].
  exists [question_token]. split; [left|]. split; [done|].
  by apply Forall_singleton.
Defined.

(** ** The numeric relations are always computed *)

Lemma foldM_total {A S} (I : S -> Prop) (f : S -> A -> result S) l s :
  I s ->
  (forall s a, a ∈ l -> I s -> exists s', f s a = Ok s' /\ I s') ->
  exists s', foldM f s l = Ok s' /\ I s'.
Proof.
  revert s. induction l as [|a l IH]; intros s Hs Hf; cbn [foldM].
  - by exists s.
  - destruct (Hf s a ltac:(left) Hs) as (s1 & -> & Hs1).
    cbn [mbind result_bind]. apply IH; [done|].
    intros s' a' Ha'. apply Hf. by right.
Qed.

Lemma foldM_always {A S} (f : S -> A -> result S) l s :
  (forall s a, a ∈ l -> exists s', f s a = Ok s') ->
  exists s', foldM f s l = Ok s'.
Proof.
  intros Hf.
  destruct (foldM_total (fun _ => True) f l s I) as (s' & Hs' & _).
  - intros s0 a Ha _. destruct (Hf s0 a Ha) as [s1 Hs1]. by exists s1.
  - by exists s'.
Qed.

Lemma collect_relations_total P question table :
  exists rels,
    collect_relations P question table (columns_to_numeric_values_of P table)
    = Ok rels.
Proof.
  unfold collect_relations.
  destruct (add_numeric_values_to_question P question) as [q spans].
  apply foldM_always. intros rels span _.
  apply foldM_always. intros rels1 value _.
  apply foldM_always. intros rels2 c Hc.
  unfold columns_to_numeric_values_of.
  rewrite dict_get_tabulated by done. cbn [mbind result_bind].
  unfold _get_numeric_sort_key_fn.
  destruct (column_values P table c) as [|x tnv] eqn:Htnv; [by eexists|].
  destruct (get_numeric_sort_key_fn _) as [fn|e] eqn:Hfn.
  - cbn [mbind result_bind].
    pose proof (sort_key_fn_defined _ _ Hfn) as Hdef.
    apply foldM_always. intros rels3 [r cell] Hcell.
    destruct (Hdef value) as [kv Hkv]; [apply elem_of_app; right; left|].
    destruct (Hdef cell) as [kc Hkc].
    { apply elem_of_app. left. apply list_elem_of_fmap. by exists (r, cell). }
    rewrite (get_numeric_relation_keys _ _ _ _ _ Hkv Hkc).
    + cbn [mbind result_bind]. by repeat case_match; eexists.
    + destruct (sort_key_fn_pair _ _ value cell Hfn)
        as (kv' & kc' & Hkv' & Hkc' & Hcmp & _).
      { apply elem_of_app; right; left. }
      { apply elem_of_app. left. apply list_elem_of_fmap.
        by exists (r, cell). }
      congruence.
  - destruct (get_numeric_sort_key_fn_raises _ _ Hfn) as [msg ->].
    by eexists.
Qed.

(** X10. On sequences of column and row ids of one length,
    [_add_numeric_relations] never raises: it returns one relation code per
    position. *)
Theorem numeric_relations_never_raise P question column_ids row_ids table :
  length row_ids = length column_ids ->
  exists numeric_relations,
    _add_numeric_relations P question column_ids row_ids table
      (columns_to_numeric_values_of P table) = Ok numeric_relations
    /\ length numeric_relations = length column_ids.
Proof.
  intros Hlen. unfold _add_numeric_relations.
  destruct (collect_relations_total P question table) as [rels Hrels].
  rewrite Hrels. cbn [mbind result_bind].
  destruct (collect_relations_spec _ _ _ _ Hrels) as [[Hkeys Hsets] Hin].
  apply (foldM_total (fun l : list Z => length l = length column_ids)).
  - apply length_replicate.
  - intros l [[c r] relations] Hcell Hl.
    assert (rels_lookup rels (c, r) = relations) as Hlookup.
    { unfold rels_lookup.
      by rewrite (dict_get_opt_elem_of _ coords_eqb_eq _ _ relations). }
    rewrite relation_set_index_sum.
    + cbn [mbind result_bind].
      destruct (write_cell_spec column_ids row_ids c r
                  (relation_sum relations) l Hlen Hl) as (l' & -> & Hl' & _).
      exists l'. split; [done|congruence].
    + intros rel Hrel. rewrite <-Hlookup in Hrel.
      apply Hin in Hrel
        as (_ & span & value & _ & _ & fn & cv & _ & _ & Hrel).
      by eapply get_numeric_relation_cases.
Qed.

Lemma numeric_relations_never_raise_witness :
  let table := data_frame ["Age"] [["30"]; ["25"]] in
  exists numeric_relations,
    _add_numeric_relations digits_parser "30"
      [0; 0; 0; 1; 1; 1] [0; 0; 0; 0; 1; 2] table
      (columns_to_numeric_values_of digits_parser table)
    = Ok numeric_relations
    /\ length numeric_relations = 6%nat.
Proof.
  intros table.
  apply (numeric_relations_never_raise digits_parser "30"
           [0; 0; 0; 1; 1; 1] [0; 0; 0; 0; 1; 2] table).
  reflexivity.
Defined.

(** ** The column ranks are always computed *)

Lemma mapM_total {A B} (f : A -> result B) l :
  (forall x, x ∈ l -> exists y, f x = Ok y) ->
  exists ys, mapM (M := result) f l = Ok ys.
Proof.
  induction l as [|x l IH]; intros Hf; cbn; [by eexists|].
  destruct (Hf x ltac:(left)) as [y ->]. cbn.
  destruct IH as [ys ->]; [intros x' Hx'; apply Hf; by right|].
  cbn. by eexists.
Qed.

Lemma dict_get_elem_of {K V} (eqb : K -> K -> bool) (d : list (K * V)) k :
  k ∈ d.*1 -> eqb k k = true -> exists v, dict_get eqb d k = Ok v.
Proof.
  intros Hin Hrefl. induction d as [|[k0 v0] d IH]; cbn in *.
  - by apply elem_of_nil in Hin.
  - destruct (eqb k0 k) eqn:Hk; [by eexists|].
    apply elem_of_cons in Hin as [->|Hin]; [congruence|by apply IH].
Qed.

Lemma rank_column_total sh column_ids row_ids (c : nat) keys
  ranks inv_ranks :
  length row_ids = length column_ids ->
  length ranks = length column_ids ->
  length inv_ranks = length column_ids ->
  Forall (well_keyed sh) keys.*2 ->
  exists ranks' inv_ranks',
    rank_column column_ids row_ids c keys ranks inv_ranks
    = Ok (ranks', inv_ranks')
    /\ length ranks' = length column_ids
    /\ length inv_ranks' = length column_ids.
Proof.
  intros Hlen Hr Hi HD. unfold rank_column. cbn zeta.
  destruct (group_by_value_spec sh keys HD) as (Hnd & Hkeys & _).
  cut (exists st,
         foldM (fun '(ranks, inv_ranks) '(rank, value) =>
                  row_indexes ← dict_get prim_eqb (group_by_value keys) value;
                  foldM (fun '(ranks, inv_ranks) row_index =>
                           ranks ← write_cell column_ids row_ids c row_index
                                     (Z.of_nat rank + 1) ranks;
                           inv_ranks ← write_cell column_ids row_ids c
                                         row_index
                                         (Z.of_nat
                                            (length
                                               (sorted prim_ltb
                                                  (group_by_value keys).*1))
                                          - Z.of_nat rank) inv_ranks;
                           Ok (ranks, inv_ranks))
                    (ranks, inv_ranks) row_indexes)
           (ranks, inv_ranks)
           (enumerate (sorted prim_ltb (group_by_value keys).*1)) = Ok st
         /\ length st.1 = length column_ids
         /\ length st.2 = length column_ids).
  { intros ([ranks' inv_ranks'] & Hrun & Hl1 & Hl2). by eexists _, _. }
  apply (foldM_total
           (fun st : list Z * list Z =>
              length st.1 = length column_ids
              /\ length st.2 = length column_ids)).
  - by split.
  - intros [ranks1 inv1] [rank k] Hk%elem_of_enumerate [Hl1 Hl2].
    cbn [fst snd] in *. apply list_elem_of_lookup_2 in Hk.
    rewrite sorted_perm in Hk.
    destruct (dict_get_elem_of prim_eqb (group_by_value keys) k Hk)
      as [rows ->].
    { apply Hkeys in Hk.
      pose proof (proj1 (Forall_forall _ _) HD k Hk) as Hwk.
      by apply (prim_eqb_eq sh). }
    cbn [mbind result_bind].
    apply (foldM_total
             (fun st : list Z * list Z =>
                length st.1 = length column_ids
                /\ length st.2 = length column_ids)); [by split|].
    intros [ranks2 inv2] r _ [Hl1' Hl2']. cbn [fst snd] in *.
    destruct (write_cell_spec column_ids row_ids c r (Z.of_nat rank + 1)
                ranks2 Hlen Hl1') as (x & -> & Hx & _).
    cbn [mbind result_bind].
    destruct (write_cell_spec column_ids row_ids c r
                (Z.of_nat (length (sorted prim_ltb (group_by_value keys).*1))
                 - Z.of_nat rank) inv2 Hlen Hl2') as (y & -> & Hy & _).
    cbn [mbind result_bind]. exists (x, y). split; [done|].
    cbn. split; congruence.
Qed.

(** X11. On sequences of column and row ids of one length and a table whose
    parsed values are free of NaN, [_add_numeric_column_ranks] never
    raises: it returns one rank and one inverse rank per position, and the
    numeric values of every column for [_add_numeric_relations]. *)
Theorem column_ranks_never_raise P column_ids row_ids table :
  length row_ids = length column_ids ->
  (forall c r v, (r, v) ∈ column_values P table c ->
                 float_value v <> Some FNaN) ->
  exists ranks inv_ranks,
    _add_numeric_column_ranks P column_ids row_ids table
    = Ok (ranks, inv_ranks, columns_to_numeric_values_of P table)
    /\ length ranks = length column_ids
    /\ length inv_ranks = length column_ids.
Proof.
  intros Hlen Hnan.
  assert (exists st,
            _add_numeric_column_ranks P column_ids row_ids table = Ok st
            /\ length st.1.1 = length column_ids
            /\ length st.1.2 = length column_ids)
    as ([[ranks inv_ranks] c2nv] & Hrun & Hl1 & Hl2).
  { unfold _add_numeric_column_ranks. apply foldM_total.
    { cbn. by rewrite length_replicate. }
    intros [[ranks inv_ranks] c2nv] c _ [Hl1 Hl2]. cbn [fst snd] in *.
    cbn zeta. fold (column_values P table c).
    destruct (column_values P table c) as [|x tnv] eqn:Htnv;
      [by eexists|].
    destruct (get_numeric_sort_key_fn _) as [key_fn|e] eqn:Hfn.
    - destruct (sort_key_fn_shape _ _ Hfn) as [sh Hshape].
      { intros w ([r' w'] & -> & Hw)%list_elem_of_fmap.
        apply (Hnan c r'). by rewrite Htnv. }
      destruct (mapM_total
                  (fun '(row_index, value) =>
                     k ← key_fn value; Ok (row_index, k)) (x :: tnv))
        as [keys Hkeys].
      { intros [r v] Hrv. destruct (Hshape v) as (k & -> & _).
        - apply list_elem_of_fmap. by exists (r, v).
        - by eexists. }
      rewrite Hkeys. cbn [mbind result_bind].
      destruct (column_keys_spec _ _ _ Hkeys) as (_ & Hks & _).
      assert (Forall (well_keyed sh) keys.*2) as HD.
      { rewrite <-Hks. apply Forall_forall.
        intros k' ([r' v'] & Hv' & Hk')%list_elem_of_omap.
        destruct (Hshape v') as (k'' & Hk'' & HD).
        { apply list_elem_of_fmap. by exists (r', v'). }
        rewrite Hk'' in Hk'. by injection Hk' as <-. }
      destruct (rank_column_total sh column_ids row_ids c keys ranks
                  inv_ranks Hlen Hl1 Hl2 HD) as (r1 & i1 & -> & ? & ?).
      cbn [mbind result_bind]. by eexists.
    - destruct (get_numeric_sort_key_fn_raises _ _ Hfn) as [msg ->].
      by eexists. }
  cbn [fst snd] in *. exists ranks, inv_ranks.
  by rewrite <-(_add_numeric_column_ranks_c2nv _ _ _ _ _ _ _ Hrun).
Qed.

Lemma column_ranks_never_raise_witness :
  let table := data_frame ["Age"] [["30"]; ["25"]] in
  exists ranks inv_ranks,
    _add_numeric_column_ranks digits_parser
      [0; 0; 0; 1; 1; 1] [0; 0; 0; 0; 1; 2] table
    = Ok (ranks, inv_ranks,
          columns_to_numeric_values_of digits_parser table)
    /\ length ranks = 6%nat /\ length inv_ranks = 6%nat.
Proof.
  intros table.
  apply (column_ranks_never_raise digits_parser
           [0; 0; 0; 1; 1; 1] [0; 0; 0; 0; 1; 2] table); [reflexivity|].
  intros c r v Hrv.
  destruct c as [|c].
  - assert (column_values digits_parser table 0
            = [(0%nat, _get_numeric_value_from_float (float_of_Z 30));
               (1%nat, _get_numeric_value_from_float (float_of_Z 25))])
      as Htnv by reflexivity.
    rewrite Htnv in Hrv.
    repeat (apply elem_of_cons in Hrv as [[= -> ->]|Hrv]; [done|]).
    by apply elem_of_nil in Hrv.
  - assert (column_values digits_parser table (S c) = []) as Htnv.
    { unfold column_values, _parse_column_values, table. cbn.
      by destruct c. }
    rewrite Htnv in Hrv. by apply elem_of_nil in Hrv.
Defined.

(** ** Numeric values of a partly numeric column *)

Lemma foldM_ok_or_raise {A S} (I : S -> Prop) e (f : S -> A -> result S)
  l s :
  I s ->
  (forall s a, a ∈ l -> I s ->
     (exists s', f s a = Ok s' /\ I s') \/ f s a = Raise e) ->
  (exists s', foldM f s l = Ok s' /\ I s') \/ foldM f s l = Raise e.
Proof.
  revert s. induction l as [|a l IH]; intros s Hs Hf; cbn [foldM].
  - left. by exists s.
  - destruct (Hf s a ltac:(left) Hs) as [(s1 & -> & Hs1)| ->]; [|by right].
    cbn [mbind result_bind]. apply IH; [done|].
    intros s' a' Ha'. apply Hf. by right.
Qed.

Lemma foldM_raises {A S} (I : S -> Prop) e (f : S -> A -> result S) l s :
  I s ->
  (forall s a, a ∈ l -> I s ->
     (exists s', f s a = Ok s' /\ I s') \/ f s a = Raise e) ->
  (exists a, a ∈ l /\ forall s, I s -> f s a = Raise e) ->
  foldM f s l = Raise e.
Proof.
  revert s. induction l as [|a l IH]; intros s Hs Hf (b & Hb & Hraise).
  - by apply elem_of_nil in Hb.
  - cbn [foldM].
    destruct (Hf s a ltac:(left) Hs) as [(s1 & Hs1 & HI)|Hr];
      [|by rewrite Hr].
    apply elem_of_cons in Hb as [->|Hb].
    + rewrite Hraise in Hs1; done.
    + rewrite Hs1. cbn [mbind result_bind]. apply IH; [done| |].
      * intros s' a' Ha'. apply Hf. by right.
      * by exists b.
Qed.

Lemma dict_get_cases {K V} (eqb : K -> K -> bool) (d : list (K * V)) k :
  (exists v, dict_get eqb d k = Ok v) \/ dict_get eqb d k = Raise KeyError.
Proof.
  induction d as [|[k0 v0] d IH]; cbn; [by right|].
  destruct (eqb k0 k); [left; by eexists|done].
Qed.

Lemma dict_get_missing {V} (d : list (nat * V)) k :
  k ∉ d.*1 -> dict_get Nat.eqb d k = Raise KeyError.
Proof.
  induction d as [|[k0 v0] d IH]; cbn; [done|].
  intros [Hne Hnin]%not_elem_of_cons.
  destruct (Nat.eqb k0 k) eqn:Hk; [|by apply IH].
  apply Nat.eqb_eq in Hk. congruence.
Qed.

(** The loop of [_add_numeric_values] over the rows of one column either
    completes or stops on a missing row. *)
Lemma numeric_values_rows column_ids row_ids (c : nat)
  (tnv : list (nat * NumericValue)) rows numeric_values :
  length row_ids = length column_ids ->
  length numeric_values = length column_ids ->
  (exists numeric_values',
     foldM (fun numeric_values row_index =>
              numeric_value ← dict_get Nat.eqb tnv row_index;
              match float_value numeric_value with
              | None => Ok numeric_values
              | Some float_value =>
                  if float_eqb float_value FPosInf then Ok numeric_values
                  else write_cell column_ids row_ids c row_index
                         float_value numeric_values
              end)
       numeric_values rows = Ok numeric_values'
     /\ length numeric_values' = length column_ids)
  \/ foldM (fun numeric_values row_index =>
              numeric_value ← dict_get Nat.eqb tnv row_index;
              match float_value numeric_value with
              | None => Ok numeric_values
              | Some float_value =>
                  if float_eqb float_value FPosInf then Ok numeric_values
                  else write_cell column_ids row_ids c row_index
                         float_value numeric_values
              end)
       numeric_values rows = Raise KeyError.
Proof.
  intros Hlen Hl.
  apply (foldM_ok_or_raise
           (fun l : list pyfloat => length l = length column_ids));
    [done|].
  intros l r _ Hl'.
  destruct (dict_get_cases Nat.eqb tnv r) as [[v ->]| ->]; [|by right].
  cbn [mbind result_bind]. left.
  destruct (float_value v) as [f|]; [|by exists l].
  destruct (float_eqb f FPosInf); [by exists l|].
  destruct (write_cell_spec column_ids row_ids c r f l Hlen Hl')
    as (l' & -> & Hl'' & _).
  exists l'. split; [done|congruence].
Qed.

(** X12. A column with a numeric cell and a cell without numeric value
    makes [_add_numeric_values] raise [KeyError]: the values of the column
    are looked up by row, and the rows without value are not among them. *)
Theorem numeric_values_raise_on_partly_numeric_column self P table
  column_ids row_ids c r :
  length row_ids = length column_ids ->
  length column_ids = model_max_length self ->
  (c < length (columns table))%nat ->
  (r < num_data_rows table)%nat ->
  column_values P table c <> [] ->
  r ∉ (column_values P table c).*1 ->
  _add_numeric_values self table column_ids row_ids
    (columns_to_numeric_values_of P table) = Raise KeyError.
Proof.
  intros Hlen Hmax Hc Hr Hne Hmissing. unfold _add_numeric_values.
  cbn [shape].
  apply (foldM_raises
           (fun l : list pyfloat => length l = length column_ids)).
  - by rewrite length_replicate.
  - intros l c' Hc' Hl. unfold columns_to_numeric_values_of.
    rewrite dict_get_tabulated by done. cbn [mbind result_bind].
    destruct (column_values P table c') as [|x tnv]; [left; by exists l|].
    by apply numeric_values_rows.
  - exists c. split; [apply elem_of_seq; lia|]. intros l Hl.
    unfold columns_to_numeric_values_of.
    rewrite dict_get_tabulated by (apply elem_of_seq; lia).
    cbn [mbind result_bind].
    destruct (column_values P table c) as [|x tnv] eqn:Htnv; [done|].
    apply (foldM_raises
             (fun l : list pyfloat => length l = length column_ids));
      [done| |].
    + intros l' r' _ Hl'.
      destruct (dict_get_cases Nat.eqb (x :: tnv) r') as [[v Hv]|Hv];
        rewrite Hv; [|by right].
      cbn [mbind result_bind]. left.
      destruct (float_value v) as [f|]; [|by exists l'].
      destruct (float_eqb f FPosInf); [by exists l'|].
      destruct (write_cell_spec column_ids row_ids c r' f l' Hlen Hl')
        as (l'' & -> & Hl'' & _).
      exists l''. split; [done|congruence].
    + exists r. split; [apply elem_of_seq; lia|]. intros l' _.
      by rewrite dict_get_missing.
Qed.

Lemma numeric_values_raise_on_partly_numeric_column_witness :
  let self := toy_tokenizer 6 (-1) false false in
  let table := data_frame ["Age"] [["30"]; ["x"]] in
  _add_numeric_values self table [0; 0; 0; 1; 1; 1] [0; 0; 0; 0; 1; 2]
    (columns_to_numeric_values_of digits_parser table) = Raise KeyError.
Proof.
  intros self table.
  apply (numeric_values_raise_on_partly_numeric_column self digits_parser
           table [0; 0; 0; 1; 1; 1] [0; 0; 0; 0; 1; 2] 0 1);
    try reflexivity; try (cbn; lia).
  - done.
  - assert (column_values digits_parser table 0
            = [(0%nat, _get_numeric_value_from_float (float_of_Z 30))])
      as -> by reflexivity.
    cbn. intros [?|[]%elem_of_nil]%elem_of_cons. done.
Defined.

(** ** Loops writing one value per cell *)

Section cell_writes.
Context {A : Type} (column_ids row_ids : list Z).
Context (w : nat -> nat -> option A) (l0 : list A).
Hypothesis Hlen : length row_ids = length column_ids.

Lemma cells_written_init :
  length l0 = length column_ids ->
  cells_written column_ids row_ids w l0 (fun _ _ => False) l0.
Proof. intros Hl0. split; [done|]. intros j. split; [by intros|done]. Qed.

Lemma cells_written_weaken (S S' : nat -> nat -> Prop) l :
  (forall c r x, w c r = Some x -> S c r <-> S' c r) ->
  cells_written column_ids row_ids w l0 S l ->
  cells_written column_ids row_ids w l0 S' l.
Proof.
  intros Hiff [Hl Hat]. split; [done|]. intros j.
  destruct (Hat j) as [Hin Hout]. split.
  - intros c r x HS Hw. apply Hin; [|done]. by apply (Hiff c r x).
  - intros Hno. apply Hout. intros c r x HS Hw. apply (Hno c r x); [|done].
    by apply (Hiff c r x).
Qed.

Lemma cells_written_write (S : nat -> nat -> Prop) c r x l l' :
  w c r = Some x ->
  write_cell column_ids row_ids c r x l = Ok l' ->
  cells_written column_ids row_ids w l0 S l ->
  cells_written column_ids row_ids w l0
    (fun c' r' => S c' r' \/ (c' = c /\ r' = r)) l'.
Proof.
  intros Hw Hwrite [Hl Hat].
  destruct (write_cell_spec column_ids row_ids c r x l Hlen Hl)
    as (l1 & Hl1 & Hlen1 & Hat1).
  rewrite Hwrite in Hl1. injection Hl1 as <-.
  split; [congruence|]. intros j. destruct (Hat j) as [Hin Hout].
  rewrite Hat1. split.
  - intros c1 r1 x1 HS Hw1 Hj. case_decide as Hcr.
    + injection (is_cell_token_inj _ _ _ _ _ _ _ Hj Hcr) as -> ->.
      congruence.
    + destruct HS as [HS|[-> ->]]; [by eapply Hin|done].
  - intros Hno. rewrite decide_False.
    + apply Hout. intros c1 r1 x1 HS. apply Hno. by left.
    + apply (Hno c r x); [by right|done].
Qed.
End cell_writes.

(** ** Numeric values of the cells *)

Lemma dict_get_opt_nat {V} (d : list (nat * V)) k v :
  NoDup d.*1 -> dict_get_opt Nat.eqb d k = Some v <-> (k, v) ∈ d.
Proof.
  intros Hnd. split; [|by apply (dict_get_opt_elem_of _ Nat.eqb_eq)].
  unfold dict_get_opt. clear Hnd.
  induction d as [|[k0 v0] d IH]; cbn; [done|].
  destruct (Nat.eqb k0 k) eqn:Hk.
  - apply Nat.eqb_eq in Hk as ->. intros [= ->]. left.
  - intros ?%IH. by right.
Qed.

Lemma _add_numeric_values_written self P table column_ids row_ids
  numeric_values :
  length row_ids = length column_ids ->
  length column_ids = model_max_length self ->
  _add_numeric_values self table column_ids row_ids
    (columns_to_numeric_values_of P table) = Ok numeric_values ->
  cells_written column_ids row_ids (numeric_cell_value P table)
    (replicate (model_max_length self) FNaN)
    (fun c r => (c < length (columns table))%nat
                /\ (r < num_data_rows table)%nat)
    numeric_values.
Proof.
  intros Hlen Hmax Hrun. unfold _add_numeric_values in Hrun.
  cbn [shape] in Hrun.
  pose proof (foldM_inv_prefix_Ok
    (fun done l =>
       cells_written column_ids row_ids (numeric_cell_value P table)
         (replicate (model_max_length self) FNaN)
         (fun c r => c ∈ done /\ (r < num_data_rows table)%nat) l)
    _ _ _ _ Hrun) as HI.
  cbn beta in HI.
  eapply cells_written_weaken; [|apply HI].
  - intros c r x _. cbn beta. rewrite elem_of_seq.
    split; intros [? ?]; split; lia.
  - eapply cells_written_weaken; [|apply cells_written_init].
    + intros c r x _. cbn beta. split; [done|]. by intros [?%elem_of_nil _].
    + by rewrite length_replicate.
  - clear Hrun HI numeric_values.
    intros done c l l' Hc HIl Hstep. unfold columns_to_numeric_values_of in Hstep.
    rewrite dict_get_tabulated in Hstep by done.
    cbn [mbind result_bind] in Hstep.
    destruct (column_values P table c) as [|x tnv] eqn:Htnv.
    { injection Hstep as <-. eapply cells_written_weaken; [|done].
      intros c' r x Hw. cbn beta.
      rewrite elem_of_app, list_elem_of_singleton.
      split; [intros [? ?]; split; [by left|done]|].
      intros [[?| ->] ?]; [done|].
      unfold numeric_cell_value in Hw. by rewrite Htnv in Hw. }
    pose proof (foldM_inv_prefix_Ok
      (fun done_rows l =>
         cells_written column_ids row_ids (numeric_cell_value P table)
           (replicate (model_max_length self) FNaN)
           (fun c' r' => (c' ∈ done /\ (r' < num_data_rows table)%nat)
                         \/ (c' = c /\ r' ∈ done_rows)) l)
      _ _ _ _ Hstep) as HI.
    cbn beta in HI.
    eapply cells_written_weaken; [|apply HI].
    + intros c' r' x' _. cbn beta.
      rewrite elem_of_app, list_elem_of_singleton, elem_of_seq.
      split; [intros [[? ?]|[-> ?]]; split; auto; lia|].
      intros [[?| ->] ?]; [by left|right]. split; [done|lia].
    + eapply cells_written_weaken; [|done].
      intros c' r' x' _. cbn beta. split; [by left|].
      by intros [?|[_ ?%elem_of_nil]].
    + clear Hstep HI HIl l l'.
      intros done_rows r l l' Hr HIl (v & Hv & Hstep)%bind_Ok.
      assert (numeric_cell_value P table c r
              = match float_value v with
                | Some f => if float_eqb f FPosInf then None else Some f
                | None => None
                end) as Hw.
      { unfold numeric_cell_value, dict_get_opt. by rewrite Htnv, Hv. }
      assert (forall l,
                numeric_cell_value P table c r = None ->
                cells_written column_ids row_ids (numeric_cell_value P table)
                  (replicate (model_max_length self) FNaN)
                  (fun c' r' => (c' ∈ done /\ (r' < num_data_rows table)%nat)
                                \/ (c' = c /\ r' ∈ done_rows)) l ->
                cells_written column_ids row_ids (numeric_cell_value P table)
                  (replicate (model_max_length self) FNaN)
                  (fun c' r' => (c' ∈ done /\ (r' < num_data_rows table)%nat)
                                \/ (c' = c /\ r' ∈ done_rows ++ [r])) l)
        as Hskip.
      { intros l1 Hnone. apply cells_written_weaken.
        intros c' r' x' Hx'. cbn beta.
        rewrite elem_of_app, list_elem_of_singleton.
        split; [intros [?|[? ?]]; [by left|right; by split; [|left]]|].
        intros [?|[-> [?| ->]]]; [by left|by right|congruence]. }
      destruct (float_value v) as [f|]; [|injection Hstep as <-; by apply Hskip].
      destruct (float_eqb f FPosInf);
        [injection Hstep as <-; by apply Hskip|].
      eapply cells_written_weaken;
        [|by eapply (cells_written_write _ _ _ _ Hlen _ c r f)].
      intros c' r' x' _. cbn beta.
      rewrite elem_of_app, list_elem_of_singleton. split.
      * intros [[?|[-> ?]]|[-> ->]]; [by left|right; by split; [|left]|].
        right. split; [done|by right].
      * intros [?|[-> [?| ->]]]; [by left; left|left; by right|by right].
Qed.

(** X13. When [_add_numeric_values] returns (on padded id sequences), every
    token of a cell whose numeric value is a float other than infinity
    holds that float, and every token of a cell whose numeric value is a
    date or infinity holds NaN. *)
Theorem numeric_values_of_cells self P table column_ids row_ids
  numeric_values :
  length row_ids = length column_ids ->
  length column_ids = model_max_length self ->
  _add_numeric_values self table column_ids row_ids
    (columns_to_numeric_values_of P table) = Ok numeric_values ->
  forall c r v j,
    (c < length (columns table))%nat ->
    (r, v) ∈ column_values P table c ->
    is_cell_token column_ids row_ids (Z.of_nat c) (Z.of_nat r) j ->
    numeric_values !! j
    = Some (match float_value v with
            | Some f => if float_eqb f FPosInf then FNaN else f
            | None => FNaN
            end).
Proof.
  intros Hlen Hmax Hrun c r v j Hc Hrv Hj.
  destruct (_add_numeric_values_written _ _ _ _ _ _ Hlen Hmax Hrun)
    as [Hl Hat].
  destruct (Hat j) as [Hin Hout].
  assert (r < num_data_rows table)%nat as Hr.
  { unfold column_values, _get_column_values, _parse_column_values in Hrv.
    apply list_elem_of_omap in Hrv as ([r' vs] & Hin' & Hv).
    apply list_elem_of_fmap in Hin' as (r0 & [= -> ->] & Hr0%elem_of_seq).
    destruct (_get_numeric_values _ _); [done|]. injection Hv as -> _.
    lia. }
  assert (numeric_cell_value P table c r
          = match float_value v with
            | Some f => if float_eqb f FPosInf then None else Some f
            | None => None
            end) as Hw.
  { unfold numeric_cell_value.
    by rewrite (proj2 (dict_get_opt_nat _ r v (column_values_rows P table c))
                  Hrv). }
  assert (numeric_cell_value P table c r = None ->
          numeric_values !! j = Some FNaN) as Hnan.
  { intros Hnone. rewrite Hout.
    - apply lookup_replicate_2. rewrite <-Hmax.
      destruct Hj as [Hj _]. by apply lookup_lt_Some in Hj.
    - intros c' r' x' _ Hx' Hj'.
      injection (is_cell_token_inj _ _ _ _ _ _ _ Hj Hj') as -> ->.
      congruence. }
  destruct (float_value v) as [f|]; [|by apply Hnan].
  destruct (float_eqb f FPosInf); [by apply Hnan|].
  by apply (Hin c r f).
Qed.

Lemma numeric_values_of_cells_witness :
  let self := toy_tokenizer 6 (-1) false false in
  let table := data_frame ["Age"] [["30"]; ["25"]] in
  exists numeric_values,
    _add_numeric_values self table [0; 0; 0; 1; 1; 1] [0; 0; 0; 0; 1; 2]
      (columns_to_numeric_values_of digits_parser table) = Ok numeric_values
    /\ numeric_values !! 5%nat = Some (float_of_Z 25).
Proof.
  intros self table.
  destruct (_add_numeric_values self table [0; 0; 0; 1; 1; 1]
              [0; 0; 0; 0; 1; 2]
              (columns_to_numeric_values_of digits_parser table))
    as [numeric_values|e] eqn:Hrun; [|by vm_compute in Hrun].
  exists numeric_values. split; [done|].
  apply (numeric_values_of_cells self digits_parser table
           [0; 0; 0; 1; 1; 1] [0; 0; 0; 0; 1; 2] numeric_values
           eq_refl eq_refl Hrun 0 1
           (_get_numeric_value_from_float (float_of_Z 25)) 5).
  - cbn. lia.
  - assert (column_values digits_parser table 0
            = [(0%nat, _get_numeric_value_from_float (float_of_Z 30));
               (1%nat, _get_numeric_value_from_float (float_of_Z 25))])
      as -> by reflexivity.
    right. left.
  - by split.
Defined.

(** ** Scale of the numeric values *)

Lemma _add_numeric_values_scale_written self table column_ids row_ids :
  length row_ids = length column_ids ->
  length column_ids = model_max_length self ->
  exists scale,
    _add_numeric_values_scale self table column_ids row_ids = Ok scale
    /\ cells_written column_ids row_ids
         (scale_cell_value column_ids row_ids)
         (replicate (model_max_length self) (float_of_Z 1))
         (fun c r => (c < length (columns table))%nat
                     /\ (r < num_data_rows table)%nat)
         scale.
Proof.
  intros Hlen Hmax. unfold _add_numeric_values_scale. cbn [shape].
  edestruct (foldM_inv_prefix
    (fun done l =>
       cells_written column_ids row_ids
         (scale_cell_value column_ids row_ids)
         (replicate (model_max_length self) (float_of_Z 1))
         (fun c r => c ∈ done /\ (r < num_data_rows table)%nat) l))
    as (scale & Hrun & HI); [| |exists scale; split; [exact Hrun|]].
  - eapply cells_written_weaken; [|apply cells_written_init].
    + intros c r x _. cbn beta. split; [done|]. by intros [?%elem_of_nil _].
    + by rewrite length_replicate.
  - intros done c l _ HIl.
    edestruct (foldM_inv_prefix
      (fun done_rows l =>
         cells_written column_ids row_ids
           (scale_cell_value column_ids row_ids)
           (replicate (model_max_length self) (float_of_Z 1))
           (fun c' r' => (c' ∈ done /\ (r' < num_data_rows table)%nat)
                         \/ (c' = c /\ r' ∈ done_rows)) l))
      as (l' & Hrun & HI); [| |exists l'; split; [exact Hrun|]].
    + eapply cells_written_weaken; [|exact HIl].
      intros c' r' x' _. cbn beta. split; [by left|].
      by intros [?|[_ ?%elem_of_nil]].
    + clear HIl l. intros done_rows r l _ HIl. cbn beta.
      rewrite _get_cell_token_indexes_Ok by done.
      cbn [mbind result_bind]. cbn zeta.
      pose proof (eq_refl (scale_cell_value column_ids row_ids c r)) as Hw.
      unfold scale_cell_value at 2 in Hw. cbn zeta in Hw.
      case_decide as Hn.
      * pose proof HIl as [Hl _].
        destruct (write_cell_spec column_ids row_ids c r
                    (float_of_Z
                       (Z.of_nat
                          (length (cell_token_indexes column_ids row_ids
                                     (Z.of_nat c) (Z.of_nat r)))))
                    l Hlen Hl) as (l' & Hwrite & _).
        exists l'. split.
        { unfold write_cell in Hwrite.
          by rewrite _get_cell_token_indexes_Ok in Hwrite. }
        eapply cells_written_weaken;
          [|by eapply (cells_written_write _ _ _ _ Hlen _ c r)].
        intros c' r' x' _. cbn beta.
        rewrite elem_of_app, list_elem_of_singleton. split.
        -- intros [[?|[-> ?]]|[-> ->]]; [by left|right; by split; [|left]|].
           right. split; [done|by right].
        -- intros [?|[-> [?| ->]]]; [by left; left|left; by right|by right].
      * exists l. split; [done|].
        eapply cells_written_weaken; [|exact HIl].
        intros c' r' x' Hx'. cbn beta.
        rewrite elem_of_app, list_elem_of_singleton.
        split; [intros [?|[? ?]]; [by left|right; by split; [|left]]|].
        intros [?|[-> [?| ->]]]; [by left|by right|congruence].
    + eapply cells_written_weaken; [|exact HI].
      intros c' r' x' _. cbn beta.
      rewrite elem_of_app, list_elem_of_singleton, elem_of_seq.
      split; [intros [[? ?]|[-> ?]]; split; auto; lia|].
      intros [[?| ->] ?]; [by left|right]. split; [done|lia].
  - eapply cells_written_weaken; [|exact HI].
    intros c r x _. cbn beta. rewrite elem_of_seq.
    split; intros [? ?]; split; lia.
Qed.

(** X14. On padded id sequences [_add_numeric_values_scale] never raises,
    and every token of a data cell holds the number of tokens of its cell as
    a float (1.0 for a cell with a single token). *)
Theorem numeric_values_scale_counts_cell_tokens self table
  column_ids row_ids :
  length row_ids = length column_ids ->
  length column_ids = model_max_length self ->
  exists scale,
    _add_numeric_values_scale self table column_ids row_ids = Ok scale
    /\ length scale = model_max_length self
    /\ forall c r j,
         (c < length (columns table))%nat ->
         (r < num_data_rows table)%nat ->
         is_cell_token column_ids row_ids (Z.of_nat c) (Z.of_nat r) j ->
         scale !! j
         = Some (float_of_Z
                   (Z.of_nat
                      (length (cell_token_indexes column_ids row_ids
                                 (Z.of_nat c) (Z.of_nat r))))).
Proof.
  intros Hlen Hmax.
  destruct (_add_numeric_values_scale_written self table _ _ Hlen Hmax)
    as (scale & Hrun & Hl & Hat).
  exists scale. split; [done|]. split; [congruence|].
  intros c r j Hc Hr Hj. destruct (Hat j) as [Hin Hout].
  pose proof (eq_refl (scale_cell_value column_ids row_ids c r)) as Hw.
  unfold scale_cell_value at 2 in Hw. cbn zeta in Hw.
  case_decide as Hn; [by apply (Hin c r)|].
  assert (length (cell_token_indexes column_ids row_ids (Z.of_nat c)
                    (Z.of_nat r)) = 1%nat) as ->.
  { apply elem_of_cell_token_indexes in Hj.
    destruct (cell_token_indexes _ _ _ _); [by apply elem_of_nil in Hj|].
    cbn in *. lia. }
  rewrite Hout.
  - apply lookup_replicate_2. rewrite <-Hmax.
    destruct Hj as [Hj _]. by apply lookup_lt_Some in Hj.
  - intros c' r' x' _ Hx' Hj'.
    injection (is_cell_token_inj _ _ _ _ _ _ _ Hj Hj') as -> ->.
    congruence.
Qed.

Lemma numeric_values_scale_counts_cell_tokens_witness :
  let self := toy_tokenizer 6 (-1) false false in
  let table := data_frame ["Name"] [["al ##ice"]] in
  exists scale,
    _add_numeric_values_scale self table
      [0; 0; 0; 1; 1; 1] [0; 0; 0; 0; 1; 1] = Ok scale
    /\ scale !! 4%nat = Some (float_of_Z 2).
Proof.
  intros self table.
  destruct (numeric_values_scale_counts_cell_tokens self table
              [0; 0; 0; 1; 1; 1] [0; 0; 0; 0; 1; 1] eq_refl eq_refl)
    as (scale & Hrun & _ & Hat).
  exists scale. split; [done|].
  apply (Hat 0%nat 0%nat 4%nat); [cbn; lia|cbn; lia|by split].
Defined.

(** ** The examples of a batch are chained by their labels *)

Lemma _pad_to_seq_length_zeros self k :
  _pad_to_seq_length self (replicate k 0)
  = replicate (model_max_length self) 0.
Proof.
  unfold _pad_to_seq_length. rewrite take_replicate, length_replicate.
  rewrite <-replicate_add. f_equal. lia.
Qed.

Lemma _pad_to_seq_length_id self inputs :
  length inputs = model_max_length self ->
  _pad_to_seq_length self inputs = inputs.
Proof.
  intros Hl. unfold _pad_to_seq_length.
  rewrite take_ge by lia. rewrite Hl, Nat.sub_diag. apply app_nil_r.
Qed.

Lemma enumerate_split_index {A} (l : list A) done i x rest :
  enumerate l = done ++ (i, x) :: rest -> i = length done.
Proof.
  intros Hsplit.
  pose proof (enumerate_from_fst 0 l) as Hfst. fold (enumerate l) in Hfst.
  rewrite Hsplit, fmap_app in Hfst. cbn in Hfst.
  assert (((done.*1 ++ i :: rest.*1) !! length done.*1) = Some i) as Hi.
  { by rewrite list_lookup_middle. }
  rewrite Hfst in Hi. apply lookup_seq in Hi as [-> _].
  by rewrite length_fmap.
Qed.

(** The chain of previous label ids built by the query loop. *)
Lemma features_examples_chain self P find_answer_ids_from_answer_texts
  table queries answer_coordinates answer_texts examples :
  features_examples self P find_answer_ids_from_answer_texts table queries
    answer_coordinates answer_texts = Ok examples ->
  length examples = length queries
  /\ forall p f,
       examples !! p = Some f ->
       f_prev_label_ids f
       = Some (match p with
               | O => replicate (model_max_length self) 0
               | S p' =>
                   match examples !! p' ≫= f_label_ids with
                   | Some label_ids => label_ids
                   | None => replicate (model_max_length self) 0
                   end
               end).
Proof.
  unfold features_examples. case_match; [done|].
  intros (add_loss_variables & Hloss & Hrun)%bind_Ok.
  cbn zeta in Hrun.
  apply bind_Ok in Hrun as (num_rows & _ & Hrun).
  apply bind_Ok in Hrun as (num_columns & _ & Hrun).
  apply bind_Ok in Hrun as ([examples' labels] & Hrun & [= ->]).
  pose proof (foldM_inv_split
    (fun (done : list (nat * string))
         (st : list Features * list (list Z)) =>
       length st.1 = length done
       /\ match add_loss_variables with
          | Some _ =>
              Forall2 (fun f l => f_label_ids f = Some l
                                  /\ length l = model_max_length self)
                st.1 st.2
          | None => Forall (fun f => f_label_ids f = None) st.1
          end
       /\ forall p f,
            st.1 !! p = Some f ->
            f_prev_label_ids f
            = Some (match p with
                    | O => replicate (model_max_length self) 0
                    | S p' =>
                        match st.1 !! p' ≫= f_label_ids with
                        | Some label_ids => label_ids
                        | None => replicate (model_max_length self) 0
                        end
                    end))
    _ _ _ _ Hrun) as HI.
  cbn beta in HI. destruct HI as (Hlen & _ & Hchain).
  - cbn. split_and!; [done|by destruct add_loss_variables|done].
  - clear Hrun examples labels.
    intros done [position query] rest [examples pos2label] [examples' labels']
      Hsplit (Hlen & Hlabels & Hchain) Hstep. cbn [fst snd] in *.
    apply enumerate_split_index in Hsplit. subst position.
    apply bind_Ok in Hstep as ([ex features] & _ & Hstep).
    assert (forall new,
              f_prev_label_ids new
              = Some (match length done with
                      | O => replicate (model_max_length self) 0
                      | S p' =>
                          match examples !! p' ≫= f_label_ids with
                          | Some label_ids => label_ids
                          | None => replicate (model_max_length self) 0
                          end
                      end) ->
              forall p f,
                (examples ++ [new]) !! p = Some f ->
                f_prev_label_ids f
                = Some (match p with
                        | O => replicate (model_max_length self) 0
                        | S p' =>
                            match (examples ++ [new]) !! p' ≫= f_label_ids
                            with
                            | Some label_ids => label_ids
                            | None => replicate (model_max_length self) 0
                            end
                        end)) as Hnew.
    { intros new Hprev p f Hp.
      destruct (decide (p < length examples)%nat) as [Hlt|Hge].
      - rewrite lookup_app_l in Hp by done. rewrite (Hchain p f Hp).
        destruct p as [|p']; [done|]. by rewrite lookup_app_l by lia.
      - assert (p = length examples) as ->.
        { apply lookup_lt_Some in Hp. rewrite length_app in Hp. cbn in Hp.
          lia. }
        rewrite list_lookup_middle in Hp by done. injection Hp as <-.
        rewrite Hprev, Hlen. destruct (length done) as [|p'] eqn:Hd; [done|].
        by rewrite lookup_app_l by lia. }
    destruct add_loss_variables as [[acs ats]|].
    + apply bind_Ok in Hstep as (texts & _ & Hstep).
      apply bind_Ok in Hstep as (coordinates & _ & Hstep).
      apply bind_Ok in Hstep as (label_ids & _ & Hstep).
      apply bind_Ok in Hstep as (prev_label_ids & Hprev & [= <- <-]).
      cbn [fst snd]. split_and!.
      * rewrite !length_app. cbn. lia.
      * apply Forall2_app; [done|]. apply Forall2_cons. split; [|done].
        split; [done|]. apply _pad_to_seq_length_length.
      * apply Hnew. cbn. f_equal.
        destruct (length done) as [|p'] eqn:Hd.
        -- injection Hprev as <-. apply _pad_to_seq_length_zeros.
        -- unfold getitem in Hprev.
           destruct (pos2label !! p') as [l|] eqn:Hl; [|done].
           injection Hprev as <-.
           destruct (Forall2_lookup_r _ _ _ _ _ Hlabels Hl)
             as (f & Hf & Hfl & Hll).
           rewrite Hf. cbn. rewrite Hfl. by apply _pad_to_seq_length_id.
    + injection Hstep as <- <-. cbn [fst snd]. split_and!.
      * rewrite !length_app. cbn. lia.
      * apply Forall_app. split; [done|]. by apply Forall_singleton.
      * apply Hnew. cbn. f_equal. rewrite _pad_to_seq_length_zeros.
        destruct (length done) as [|p'] eqn:Hd; [done|].
        destruct (examples !! p') as [f|] eqn:Hf; [|done]. cbn.
        by rewrite (proj1 (Forall_forall _ _) Hlabels f
                      (list_elem_of_lookup_2 _ _ _ Hf)).
  - cbn [fst snd] in *. split; [|done].
    rewrite Hlen. unfold enumerate.
    rewrite <-(length_fmap fst), enumerate_from_fst. apply length_seq.
Qed.

(** X15. When the query loop of [_batch_prepare_for_model] returns, there
    is one feature bundle per query, and the previous label ids of a query
    are the label ids of the query before it; they are all 0 for the first
    query and when no answers are given. *)
Theorem batch_examples_are_chained self P find_answer_ids_from_answer_texts
  table queries answer_coordinates answer_texts examples :
  features_examples self P find_answer_ids_from_answer_texts table queries
    answer_coordinates answer_texts = Ok examples ->
  length examples = length queries
  /\ forall p f,
       examples !! p = Some f ->
       f_prev_label_ids f
       = Some (match p with
               | O => replicate (model_max_length self) 0
               | S p' =>
                   match examples !! p' ≫= f_label_ids with
                   | Some label_ids => label_ids
                   | None => replicate (model_max_length self) 0
                   end
               end).
Proof. apply features_examples_chain. Qed.

Lemma batch_examples_are_chained_witness :
  let self := toy_tokenizer 8 (-1) false false in
  let table := data_frame ["Age"] [["30"]; ["25"]] in
  exists examples f0 f1,
    features_examples self digits_parser
      (fun _ _ _ _ => Raise AttributeError) table ["30"; "25"]
      (Some [[(0, 0)]; [(1, 0)]]) (Some [["30"]; ["25"]]) = Ok examples
    /\ examples = [f0; f1]
    /\ f_label_ids f0 = Some [0; 0; 0; 0; 1; 0; 0; 0]
    /\ f_prev_label_ids f1 = Some [0; 0; 0; 0; 1; 0; 0; 0].
Proof.
  intros self table.
  destruct (features_examples self digits_parser
              (fun _ _ _ _ => Raise AttributeError) table ["30"; "25"]
              (Some [[(0, 0)]; [(1, 0)]]) (Some [["30"]; ["25"]]))
    as [examples|e] eqn:Hrun; [|by vm_compute in Hrun].
  destruct (batch_examples_are_chained _ _ _ _ _ _ _ _ Hrun)
    as [Hlen Hchain].
  destruct examples as [|f0 [|f1 [|? ?]]]; try done.
  exists [f0; f1], f0, f1. split; [done|]. split; [done|].
  assert (f_label_ids f0 = Some [0; 0; 0; 0; 1; 0; 0; 0]) as Hlabel.
  { vm_compute in Hrun. by injection Hrun as <- _. }
  split; [done|].
  rewrite (Hchain 1%nat f1 eq_refl). cbn. by rewrite Hlabel.
Defined.

(** ** The single-example path builds the ids of the serializer *)

(** X16. For the table values the serializer emits and a query of the same
    length, the segment, column and row ids built by the [create_..._from_
    sequences] functions are those of the serialized example, the label ids
    built there are its row ids, and the attention mask is 1 on the question
    part and 0 on every table token.  Without table values all five
    functions raise [IndexError]. *)
Theorem single_path_ids_agree_with_serializer self question_tokens table
  nc nr nt vs ex query_ids :
  _get_table_values table nc nr nt = Ok vs ->
  _serialize self question_tokens table nc nr nt = Ok ex ->
  length query_ids = length question_tokens ->
  match vs with
  | [] =>
      create_segment_token_type_ids_from_sequences query_ids vs
      = Raise IndexError
      /\ create_column_token_type_ids_from_sequences query_ids vs
         = Raise IndexError
      /\ create_row_token_type_ids_from_sequences query_ids vs
         = Raise IndexError
      /\ create_label_ids_from_sequences_and_answers query_ids vs
         = Raise IndexError
      /\ create_attention_mask_from_sequences query_ids vs
         = Raise IndexError
  | _ =>
      create_segment_token_type_ids_from_sequences query_ids vs
      = Ok (segment_ids ex)
      /\ create_column_token_type_ids_from_sequences query_ids vs
         = Ok (column_ids ex)
      /\ create_row_token_type_ids_from_sequences query_ids vs
         = Ok (row_ids ex)
      /\ create_label_ids_from_sequences_and_answers query_ids vs
         = Ok (row_ids ex)
      /\ create_attention_mask_from_sequences query_ids vs
         = Ok ((fun s => 1 - s) <$> segment_ids ex)
  end.
Proof.
  intros Hvs Hser Hq. unfold _serialize, _serialize_text in Hser.
  rewrite Hvs in Hser. cbn [mbind result_bind] in Hser.
  injection Hser as <-. destruct vs as [|v vs]; [by split_and!|].
  unfold create_segment_token_type_ids_from_sequences,
    create_column_token_type_ids_from_sequences,
    create_row_token_type_ids_from_sequences,
    create_label_ids_from_sequences_and_answers,
    create_attention_mask_from_sequences.
  cbn [zip_field mbind result_bind segment_ids column_ids row_ids].
  rewrite !length_fmap, Hq.
  assert (forall (x : Z) (tail : list Z),
            replicate (1 + length question_tokens + 1) x ++ tail
            = (x :: ((fun _ => x) <$> question_tokens)) ++ [x] ++ tail)
    as Hrep.
  { intros x tail. rewrite const_fmap_replicate.
    replace (1 + length question_tokens + 1)%nat
      with (S (length question_tokens) + 1)%nat by lia.
    rewrite replicate_add. cbn [replicate]. by rewrite <-app_assoc. }
  split_and!.
  - rewrite Hrep. cbn [app]. by rewrite (const_fmap_replicate 1 (v :: vs)).
  - by rewrite Hrep.
  - by rewrite Hrep.
  - by rewrite Hrep.
  - rewrite Hrep. cbn [app].
    rewrite (const_fmap_replicate 1 (v :: vs)).
    rewrite (const_fmap_replicate 1 question_tokens).
    rewrite (const_fmap_replicate 0 question_tokens).
    rewrite fmap_cons, fmap_app, fmap_cons, !fmap_replicate. done.
Qed.

Lemma single_path_ids_agree_with_serializer_witness :
  let self := toy_tokenizer 8 (-1) false false in
  let tt := _tokenize_table self (data_frame ["Age"] [["30"]; ["25"]]) in
  exists ex,
    _serialize self ["30"] tt 1 2 1 = Ok ex
    /\ create_attention_mask_from_sequences [2]
         [mkTableValue "Age" 1 0; mkTableValue "30" 1 1;
          mkTableValue "25" 1 2]
       = Ok ((fun s => 1 - s) <$> segment_ids ex).
Proof.
  intros self tt.
  destruct (_serialize self ["30"] tt 1 2 1) as [ex|e] eqn:Hser;
    [|by vm_compute in Hser].
  exists ex. split; [done|].
  apply (single_path_ids_agree_with_serializer self ["30"] tt 1 2 1
           [mkTableValue "Age" 1 0; mkTableValue "30" 1 1;
            mkTableValue "25" 1 2] ex [2]); [reflexivity|done|reflexivity].
Defined.

(** ** Answer alignment in text mode *)

(** Once past its logging call, [_find_tokens] would find the empty segment
    at index 0 and fail on the attribute [piece] for any other segment no
    longer than the text. *)
Lemma find_tokens_from_cases text segment :
  find_tokens_from text segment (seq 0 (1 + length text - length segment))
  = if decide (length segment <= length text)%nat then
      match segment with
      | [] => Ok (Some 0%nat)
      | _ => Raise AttributeError
      end
    else Ok None.
Proof.
  case_decide as Hle.
  - replace (1 + length text - length segment)%nat
      with (S (length text - length segment)) by lia.
    cbn [seq find_tokens_from]. destruct segment as [|seg_token segment].
    + done.
    + destruct text as [|tok text]; [cbn in Hle; lia|]. done.
  - by replace (1 + length text - length segment)%nat with 0%nat by lia.
Qed.

Lemma _find_tokens_raises text segment :
  _find_tokens text segment = Raise AttributeError.
Proof. done. Qed.

Lemma _find_answer_ids_from_answer_texts_cases column_ids row_ids
  tokenized_table answer_texts :
  _find_answer_ids_from_answer_texts column_ids row_ids tokenized_table
    answer_texts
  = match answer_texts with
    | [] => Ok (replicate (length column_ids) 0)
    | _ => Raise AttributeError
    end.
Proof. by destruct answer_texts. Qed.

(** X17. With [update_answer_coordinates] set, [get_answer_ids] never
    labels a token: it raises [AttributeError] as soon as there is an
    answer text, at the logging call that opens the search of the text in
    the table, and it returns label ids that are all 0 when there is no
    answer text. *)
Theorem text_mode_never_labels self column_ids row_ids tokenized_table
  answer_texts answer_coordinates :
  update_answer_coordinates self = true ->
  (forall answer_ids,
     get_answer_ids self _find_answer_ids_from_answer_texts column_ids
       row_ids tokenized_table answer_texts answer_coordinates
     = Ok answer_ids ->
     answer_texts = [] /\ answer_ids = replicate (length column_ids) 0)
  /\ (forall e,
        get_answer_ids self _find_answer_ids_from_answer_texts column_ids
          row_ids tokenized_table answer_texts answer_coordinates
        = Raise e ->
        e = AttributeError)
  /\ (answer_texts <> [] ->
      get_answer_ids self _find_answer_ids_from_answer_texts column_ids
        row_ids tokenized_table answer_texts answer_coordinates
      = Raise AttributeError)
  /\ (forall text segment, _find_tokens text segment = Raise AttributeError).
Proof.
  intros Hmode. unfold get_answer_ids. rewrite Hmode.
  rewrite _find_answer_ids_from_answer_texts_cases.
  destruct answer_texts as [|answer_text answer_texts]; cbn [fmap list_fmap].
  - split_and!; [by intros ? [= <-]|done|done|].
    apply _find_tokens_raises.
  - split_and!; [done|by intros ? [= <-]|done|].
    apply _find_tokens_raises.
Qed.

Lemma text_mode_never_labels_witness :
  let self :=
    mkTapasTokenizer 8 (-1) 8 8 false true false "[CLS]" "[SEP]"
      whitespace_tokenize
      (fun toks => (fun t => Z.of_nat (String.length t)) <$> toks) in
  let tt := _tokenize_table self (data_frame ["Age"] [["30"]; ["25"]]) in
  get_answer_ids self _find_answer_ids_from_answer_texts
    [0; 0; 0; 1; 1; 1] [0; 0; 0; 0; 1; 2] tt ["25"] [(1, 0)]
  = Raise AttributeError.
Proof.
  intros self tt.
  destruct (text_mode_never_labels self [0; 0; 0; 1; 1; 1]
              [0; 0; 0; 0; 1; 2] tt ["25"] [(1, 0)] eq_refl)
    as (_ & _ & Hraise & _).
  by apply Hraise.
Defined.

(** ** Splitting on punctuation *)

Lemma append_to_last_snoc {C} (init : list (list C)) p c :
  append_to_last (init ++ [p]) c = Ok (init ++ [p ++ [c]]).
Proof.
  induction init as [|x init IH]; [done|].
  cbn [app append_to_last]. rewrite IH.
  destruct init; done.
Qed.

Lemma lookup_snoc_cases {A} (l : list A) x i y :
  (l ++ [x]) !! i = Some y ->
  ((i < length l)%nat /\ l !! i = Some y) \/ (i = length l /\ y = x).
Proof.
  intros Hi. destruct (decide (i < length l)%nat) as [Hlt|Hge].
  - left. by rewrite lookup_app_l in Hi.
  - right. rewrite lookup_app_r in Hi by lia.
    destruct (i - length l)%nat as [|k] eqn:Hk; [|done].
    injection Hi as <-. split; [lia|done].
Qed.

Section split_on_punc.
Context {C : Type} (_is_punctuation : C -> bool).

Lemma punct_not_word p :
  punct_piece _is_punctuation p -> ~ word_piece _is_punctuation p.
Proof.
  intros (c & -> & Hc) [_ Hall]. rewrite Forall_singleton in Hall.
  congruence.
Qed.

Lemma split_on_punc_nil : split_on_punc _is_punctuation [].
Proof. split; [constructor|]. by intros i p q ?. Qed.

Lemma split_on_punc_snoc pieces x :
  split_on_punc _is_punctuation pieces ->
  punct_piece _is_punctuation x \/ word_piece _is_punctuation x ->
  (forall init p,
     pieces = init ++ [p] ->
     ~ (word_piece _is_punctuation p /\ word_piece _is_punctuation x)) ->
  split_on_punc _is_punctuation (pieces ++ [x]).
Proof.
  intros [Hall Hadj] Hx Hlast. split.
  - apply Forall_app. split; [done|by apply Forall_singleton].
  - intros i p q Hp Hq.
    apply lookup_snoc_cases in Hq as [[Hlt Hq]|[Hi ->]].
    + rewrite lookup_app_l in Hp by lia. by eapply Hadj.
    + rewrite lookup_app_l in Hp by lia.
      apply (Hlast (take i pieces) p).
      rewrite <-(take_drop i pieces) at 1. f_equal.
      rewrite (drop_S _ _ _ Hp). by rewrite drop_ge by lia.
Qed.

Lemma split_on_punc_extend init p c :
  split_on_punc _is_punctuation (init ++ [p]) ->
  word_piece _is_punctuation p -> _is_punctuation c = false ->
  split_on_punc _is_punctuation (init ++ [p ++ [c]]).
Proof.
  intros [Hall Hadj] [Hne Hp] Hc.
  assert (word_piece _is_punctuation (p ++ [c])) as Hword.
  { split; [by destruct p|]. apply Forall_app. split; [done|].
    by apply Forall_singleton. }
  split.
  - apply Forall_app in Hall as [Hall _]. apply Forall_app.
    split; [done|]. apply Forall_singleton. by right.
  - intros i x y Hx Hy.
    apply lookup_snoc_cases in Hy as [[Hlt Hy]|[Hi ->]].
    + rewrite lookup_app_l in Hx by lia.
      apply (Hadj i x y); by rewrite lookup_app_l by lia.
    + rewrite lookup_app_l in Hx by lia. intros [Hwx _].
      apply (Hadj i x p).
      * by rewrite lookup_app_l by lia.
      * rewrite Hi. by rewrite list_lookup_middle.
      * by split.
Qed.

Lemma _run_split_on_punc_loop (text : list C) :
  exists output start_new_word,
    foldM (fun '(output, start_new_word) char =>
             if _is_punctuation char : bool
             then Ok (output ++ [[char]], true)
             else
               let output :=
                 if start_new_word : bool then output ++ [[]] else output
               in
               output ← append_to_last output char;
               Ok (output, false))
      ([], true) text = Ok (output, start_new_word)
    /\ concat output = text
    /\ split_on_punc _is_punctuation output.
Proof.
  destruct (foldM_inv_prefix
    (fun done (st : list (list C) * bool) =>
       concat st.1 = done
       /\ split_on_punc _is_punctuation st.1
       /\ (st.2 = false ->
           exists init p, st.1 = init ++ [p]
                          /\ word_piece _is_punctuation p)
       /\ (st.2 = true ->
           forall init p, st.1 = init ++ [p] ->
                          ~ word_piece _is_punctuation p))
    (fun '(output, start_new_word) char =>
       if _is_punctuation char : bool
       then Ok (output ++ [[char]], true)
       else
         let output :=
           if start_new_word : bool then output ++ [[]] else output
         in
         output ← append_to_last output char;
         Ok (output, false))
    text ([], true)) as ([output snw] & Hrun & Hcat & Hsplit & _).
  - cbn. split_and!; [done|apply split_on_punc_nil|done|].
    intros _ init p Heq. by destruct init.
  - intros done c [output snw] _ (Hcat & Hsplit & Hword & Hpunct).
    cbn [fst snd] in *. destruct (_is_punctuation c) eqn:Hc.
    + eexists. split; [done|]. cbn [fst snd]. split_and!.
      * by rewrite concat_app, Hcat.
      * apply split_on_punc_snoc; [done|left; by exists c|].
        intros init p _ [_ Hx]. apply (punct_not_word [c]); [|done].
        by exists c.
      * done.
      * intros _ init p [_ <-]%app_inj_tail.
        apply punct_not_word. by exists c.
    + assert (word_piece _is_punctuation [c]) as Hwc.
      { split; [done|]. by apply Forall_singleton. }
      destruct snw.
      * rewrite (append_to_last_snoc output [] c). cbn [mbind result_bind].
        eexists. split; [done|]. cbn [fst snd app]. split_and!.
        -- by rewrite concat_app, Hcat.
        -- apply split_on_punc_snoc; [done|by right|].
           intros init p Heq [Hp _]. by apply (Hpunct eq_refl init p).
        -- intros _. by exists output, [c].
        -- done.
      * destruct (Hword eq_refl) as (init & p & -> & Hp).
        rewrite append_to_last_snoc. cbn [mbind result_bind].
        eexists. split; [done|]. cbn [fst snd]. split_and!.
        -- rewrite concat_app in *. cbn in *. rewrite app_nil_r in *.
           by rewrite app_assoc, Hcat.
        -- by apply split_on_punc_extend.
        -- intros _. exists init, (p ++ [c]). split; [done|].
           destruct Hp as [Hne Hp]. split; [by destruct p|].
           apply Forall_app. split; [done|by apply Forall_singleton].
        -- done.
  - by exists output, snw.
Qed.
End split_on_punc.

(** X18. Splitting on punctuation never fails, and the pieces spell the
    text: their concatenation is the text.  A text listed in [never_split]
    is returned whole; otherwise every punctuation character is a piece of
    its own and the other pieces are the maximal runs of characters between
    them. *)
Theorem split_on_punctuation_spells_the_text {C} `{EqDecision C}
  (_is_punctuation : C -> bool) (text : list C) never_split :
  exists pieces,
    _run_split_on_punc _is_punctuation text never_split = Ok pieces
    /\ concat pieces = text
    /\ match never_split with
       | Some never_split =>
           if decide (text ∈ never_split) then pieces = [text]
           else split_on_punc _is_punctuation pieces
       | None => split_on_punc _is_punctuation pieces
       end.
Proof.
  unfold _run_split_on_punc.
  destruct (_run_split_on_punc_loop _is_punctuation text)
    as (output & snw & Hrun & Hcat & Hsplit).
  cbn zeta in Hrun. cbn zeta.
  destruct never_split as [never_split|].
  - case_bool_decide as Hin.
    + exists [text]. rewrite decide_True by done.
      split_and!; [done|cbn; by rewrite app_nil_r|done].
    + rewrite Hrun. exists output. by rewrite decide_False.
  - rewrite Hrun. by exists output.
Qed.

(** * The feature sequences of a batch *)

Lemma _get_answer_ids_length column_ids row_ids answer_coordinates
  answer_ids :
  _get_answer_ids column_ids row_ids answer_coordinates = Ok answer_ids ->
  length answer_ids = length column_ids.
Proof.
  unfold _get_answer_ids, _get_all_answer_ids,
    _get_all_answer_ids_from_coordinates.
  intros ([ids missing] & Hrun & Hret)%bind_Ok.
  case_decide; [done|]. injection Hret as ->.
  apply bind_Ok in Hrun as ([[a f] al] & Hfold & [= <- _]).
  apply (foldM_inv_Ok
           (fun st : list Z * list (Z * Z) * list (Z * Z) =>
              length st.1.1 = length column_ids)
           _ _ _ _ Hfold); [apply length_replicate|].
  intros [[a0 f0] al0] [c r] [[a1 f1] al1] _ Hl Hstep. cbn [fst] in *.
  apply bind_Ok in Hstep as (idxs & _ & Hinner).
  apply (foldM_inv_Ok
           (fun st : list Z * list (Z * Z) * list (Z * Z) =>
              length st.1.1 = length column_ids)
           _ _ _ _ Hinner); [done|].
  intros [[a2 f2] al2] i [[a3 f3] al3] _ Hl2 Hs. cbn [fst] in *.
  apply bind_Ok in Hs as (a' & Hset & [= <- _ _]).
  unfold setitem in Hset. case_decide; [|done]. injection Hset as <-.
  by rewrite length_insert.
Qed.

Lemma get_answer_ids_length self column_ids row_ids tokenized_table texts
  coordinates answer_ids :
  get_answer_ids self _find_answer_ids_from_answer_texts column_ids row_ids
    tokenized_table texts coordinates = Ok answer_ids ->
  length answer_ids = length column_ids.
Proof.
  unfold get_answer_ids. destruct (update_answer_coordinates self).
  - rewrite _find_answer_ids_from_answer_texts_cases.
    destruct (tokenize self <$> texts); [|done].
    intros [= <-]. apply length_replicate.
  - apply _get_answer_ids_length.
Qed.

Lemma fit_and_serialize_length self question_tokens tokenized_table nc nr
  drop ex :
  fit_and_serialize self question_tokens tokenized_table nc nr drop = Ok ex ->
  (length (tokens ex) <= model_max_length self)%nat.
Proof.
  unfold fit_and_serialize.
  intros ([r k] & _ & (ex' & _ & Hret)%bind_Ok)%bind_Ok.
  case_decide; [|done]. by injection Hret as <-.
Qed.

Lemma features_examples_padded self P table queries answer_coordinates
  answer_texts fs :
  (forall toks, length (convert_tokens_to_ids self toks) = length toks) ->
  features_examples self P _find_answer_ids_from_answer_texts table queries
    answer_coordinates answer_texts = Ok fs ->
  Forall (fun f => exists n, padded_from self n f) fs.
Proof.
  intros Hconv. unfold features_examples. case_match; [done|].
  intros (loss & Hloss & (num_rows & _ & (num_columns & _
            & ([fs' labels] & Hrun & [= <-])%bind_Ok)%bind_Ok)%bind_Ok)
            %bind_Ok.
  apply (foldM_inv_Ok
           (fun s : list Features * list (list Z) =>
              Forall (fun f => exists n, padded_from self n f) s.1)
           _ _ _ _ Hrun); [done|].
  clear Hrun fs' labels.
  intros [fs0 labels0] [position query] [fs1 labels1] _ Hfs.
  cbn [fst snd] in *.
  intros ([ex f] & Htrim & Hstep)%bind_Ok.
  unfold _to_trimmed_features in Htrim.
  apply bind_Ok in Htrim as (ex' & Hfit & (f' & Hf & [= <- <-])%bind_Ok).
  apply fit_and_serialize_length in Hfit.
  destruct (_to_features_spec _ _ _ _ _ _ _ _ _ Hf)
    as (Hc & _ & _ & _ & Hmask & _ & _ & _ & _ & _ & _ & _ & _ & Hnone & _).
  assert (forall label_ids prev,
            (forall l, label_ids = Some l ->
                       exists ids, l = _pad_to_seq_length self ids
                                   /\ length ids = length (tokens ex')) ->
            padded_from self (length (tokens ex'))
              (with_labels f' label_ids prev)) as Hnew.
  { intros label_ids prev Hl. split; [done|]. split.
    - cbn. rewrite Hmask, Hconv. unfold _pad_to_seq_length.
      rewrite length_replicate. by rewrite take_ge
        by (rewrite length_replicate; lia).
    - intros j Hj. split.
      + pose proof (_to_features_padded _ _ _ _ _ _ _ _ _ j Hf
                      (Hconv _) Hj) as Hpad.
        exact Hpad.
      + cbn. intros l (ids & -> & Hids)%Hl.
        apply _pad_to_seq_length_pad; lia. }
  destruct loss as [[acs' ats']|].
  - apply bind_Ok in Hstep as (texts & _ & Hstep).
    apply bind_Ok in Hstep as (coords & _ & Hstep).
    apply bind_Ok in Hstep as (label_ids & Hids & Hstep).
    apply bind_Ok in Hstep as (prev & _ & [= <- <-]).
    apply get_answer_ids_length in Hids.
    apply Forall_app. split; [done|]. apply Forall_singleton.
    exists (length (tokens ex')). apply Hnew.
    intros l [= <-]. exists label_ids. split; [done|]. congruence.
  - injection Hstep as <- <-.
    apply Forall_app. split; [done|]. apply Forall_singleton.
    exists (length (tokens ex')). by apply Hnew.
Qed.

(** C2 (amended). Every sequence of an emitted feature bundle -- input ids,
    attention mask, segment, column and row ids, column ranks and inverse
    ranks, numeric relations, numeric values and their scale, the previous
    label ids and, for supervised examples, the label ids -- has length
    [model_max_length]. Past the serialized tokens (the vocabulary lookup
    mapping tokens to ids one for one) the bundle holds the pad values: 0
    for the input ids, the attention mask, the segment, column and row ids,
    the ranks, the relations and the label ids, NaN for the numeric values
    and 1.0 for their scale. The previous label ids are not padded on their
    own: they are all 0 for the first query and when no answers are given,
    and otherwise they are the padded label ids of the query before, which
    may hold a 1 past the tokens of the query they are attached to. *)
Theorem feature_sequences_have_max_length self P :
  (forall question table question_tokens tokenized_table nc nr drop ex f,
     _to_trimmed_features self P question table question_tokens
       tokenized_table nc nr drop = Ok (ex, f) ->
     features_have_length (model_max_length self) f
     /\ ((forall toks, length (convert_tokens_to_ids self toks) = length toks)
         -> forall j,
              (length (tokens ex) <= j < model_max_length self)%nat ->
              padded_at j f))
  /\ (forall text_mode table queries answer_coordinates answer_texts fs f,
        features_examples self P text_mode table queries answer_coordinates
          answer_texts = Ok fs ->
        f ∈ fs ->
        features_have_length (model_max_length self) f
        /\ is_Some (f_prev_label_ids f)
        /\ (is_Some answer_coordinates -> is_Some answer_texts ->
            is_Some (f_label_ids f)))
  /\ (forall table queries answer_coordinates answer_texts fs,
        (forall toks, length (convert_tokens_to_ids self toks) = length toks)
        ->
        features_examples self P _find_answer_ids_from_answer_texts table
          queries answer_coordinates answer_texts = Ok fs ->
        forall p f,
          fs !! p = Some f ->
          (exists n,
             (n <= model_max_length self)%nat
             /\ f_attention_mask f
                = replicate n 1 ++ replicate (model_max_length self - n) 0
             /\ forall j,
                  (n <= j < model_max_length self)%nat ->
                  padded_at j f
                  /\ forall l, f_label_ids f = Some l -> l !! j = Some 0)
          /\ f_prev_label_ids f
             = Some (match p with
                     | O => replicate (model_max_length self) 0
                     | S p' =>
                         match fs !! p' ≫= f_label_ids with
                         | Some label_ids => label_ids
                         | None => replicate (model_max_length self) 0
                         end
                     end)).
Proof.
  split; [|split].
  - intros question table question_tokens tt nc nr drop ex f.
    unfold _to_trimmed_features.
    intros (ex' & _ & (f' & Hf & [= <- <-])%bind_Ok)%bind_Ok. split.
    + by eapply _to_features_length.
    + intros Hconv j Hj. by eapply _to_features_padded.
  - intros text_mode table queries acs ats fs f. unfold features_examples.
    case_match; [done|].
    intros (loss & Hloss & (num_rows & _ & (num_columns & _
              & ([fs' labels] & Hrun & [= <-])%bind_Ok)%bind_Ok)%bind_Ok)
              %bind_Ok.
    pose (good := fun f : Features =>
            features_have_length (model_max_length self) f
            /\ is_Some (f_prev_label_ids f)
            /\ (is_Some acs -> is_Some ats -> is_Some (f_label_ids f))).
    intros Hin.
    cut (Forall good fs'
         /\ Forall (fun l => length l = model_max_length self) labels).
    { intros [Hgood _]. by apply (proj1 (Forall_forall _ _) Hgood). }
    apply (foldM_inv_Ok
             (fun s : list Features * list (list Z) =>
                Forall good s.1
                /\ Forall (fun l => length l = model_max_length self) s.2)
             _ _ _ _ Hrun); [by split|].
    clear Hrun Hin fs' labels f.
    intros [fs0 labels0] [position query] [fs1 labels1] _ [Hfs Hlabels].
    cbn [fst snd] in *.
    intros ([ex f] & Htrim & Hstep)%bind_Ok.
    unfold _to_trimmed_features in Htrim.
    apply bind_Ok in Htrim as (ex' & _ & (f' & Hf & [= <- <-])%bind_Ok).
    apply _to_features_length in Hf.
    destruct loss as [[acs' ats']|].
    + apply bind_Ok in Hstep as (texts & _ & Hstep).
      apply bind_Ok in Hstep as (coords & _ & Hstep).
      apply bind_Ok in Hstep as (label_ids & _ & Hstep).
      apply bind_Ok in Hstep as (prev & _ & [= <- <-]).
      split; apply Forall_app; (split; [done|]); apply Forall_singleton.
      * split; [|split; [by eexists|by eexists]].
        apply with_labels_length; [done| |];
          intros l [= <-]; apply _pad_to_seq_length_length.
      * apply _pad_to_seq_length_length.
    + injection Hstep as <- <-. split; [|done].
      apply Forall_app. split; [done|]. apply Forall_singleton.
      split; [|split; [by eexists|]].
      * apply with_labels_length; [done|done|].
        intros l [= <-]. apply _pad_to_seq_length_length.
      * intros [a ->] [b ->]. cbn in Hloss. by case_decide.
  - intros table queries acs ats fs Hconv Hrun p f Hp. split.
    + pose proof (features_examples_padded _ _ _ _ _ _ _ Hconv Hrun) as Hall.
      apply (proj1 (Forall_forall _ _) Hall f).
      by eapply list_elem_of_lookup_2.
    + by apply (features_examples_chain _ _ _ _ _ _ _ _ Hrun).
Qed.

(** C2 as stated fails for the previous label ids. With the table Age / 30 /
    25 at length 10, the first query has nine tokens and its answer cell is
    the token at position 8; the second query has six tokens, so position 8
    is padding there (attention mask 0), and its previous label ids hold the
    1 of the first query at that position. *)
Lemma prev_label_ids_hold_previous_labels :
  ~ (forall self P text_mode table queries answer_coordinates answer_texts
            fs p f l j,
       (forall toks, length (convert_tokens_to_ids self toks) = length toks)
       ->
       features_examples self P text_mode table queries answer_coordinates
         answer_texts = Ok fs ->
       fs !! p = Some f ->
       f_attention_mask f !! j = Some 0 ->
       f_prev_label_ids f = Some l ->
       l !! j = Some 0).
Proof.
  intros H.
  pose (self := toy_tokenizer 10 (-1) false false).
  pose (table := data_frame ["Age"] [["30"]; ["25"]]).
  destruct (features_examples self digits_parser
              _find_answer_ids_from_answer_texts table ["w x y z"; "w"]
              (Some [[(1, 0)]; [(1, 0)]]) (Some [["25"]; ["25"]]))
    as [fs|e] eqn:Hrun; [|by vm_compute in Hrun].
  assert (exists f l,
            fs !! 1%nat = Some f
            /\ f_attention_mask f !! 8%nat = Some 0
            /\ f_prev_label_ids f = Some l
            /\ l !! 8%nat = Some 1) as (f & l & Hf & Hmask & Hprev & Hone).
  { vm_compute in Hrun. injection Hrun as <-.
    eexists _, _. split_and!; reflexivity. }
  assert (forall toks, length (convert_tokens_to_ids self toks) = length toks)
    as Hconv by (intros toks; apply length_fmap).
  specialize (H self digits_parser _ table _ _ _ fs 1%nat f l 8%nat
                Hconv Hrun Hf Hmask Hprev).
  congruence.
Qed.

Lemma feature_sequences_have_max_length_witness :
  let self := toy_tokenizer 10 (-1) false false in
  let table := data_frame ["Age"] [["30"]; ["25"]] in
  exists f0 f1 labels,
    features_examples self digits_parser _find_answer_ids_from_answer_texts
      table ["w x y z"; "w"] (Some [[(1, 0)]; [(1, 0)]])
      (Some [["25"]; ["25"]]) = Ok [f0; f1]
    /\ features_have_length 10 f1
    /\ f_attention_mask f1 = [1; 1; 1; 1; 1; 1; 0; 0; 0; 0]
    /\ padded_at 8 f1
    /\ f_label_ids f0 = Some labels
    /\ labels !! 8%nat = Some 1
    /\ f_prev_label_ids f1 = Some labels.
Proof.
  intros self table.
  destruct (features_examples self digits_parser
              _find_answer_ids_from_answer_texts table ["w x y z"; "w"]
              (Some [[(1, 0)]; [(1, 0)]]) (Some [["25"]; ["25"]]))
    as [fs|e] eqn:Hrun; [|by vm_compute in Hrun].
  assert (forall toks, length (convert_tokens_to_ids self toks) = length toks)
    as Hconv by (intros toks; apply length_fmap).
  destruct (feature_sequences_have_max_length self digits_parser)
    as (_ & Hbatch & Hpad).
  assert (exists f0 f1 labels,
            fs = [f0; f1] /\ f_label_ids f0 = Some labels
            /\ labels !! 8%nat = Some 1
            /\ f_attention_mask f1 = [1; 1; 1; 1; 1; 1; 0; 0; 0; 0])
    as (f0 & f1 & labels & -> & Hlabels & Hone & Hsix).
  { vm_compute in Hrun. injection Hrun as <-.
    eexists _, _, _. split_and!; reflexivity. }
  exists f0, f1, labels. split; [done|].
  destruct (Hbatch _ _ _ _ _ _ f1 Hrun ltac:(right; left)) as (Hlen & _).
  destruct (Hpad _ _ _ _ _ Hconv Hrun 1%nat f1 eq_refl)
    as [(n & Hn & Hmask & Hfrom) Hprev].
  cbn in Hprev. rewrite Hlabels in Hprev.
  assert (n = 6)%nat as ->.
  { rewrite Hsix in Hmask.
    do 6 (destruct n as [|n]; [cbn in Hmask; congruence|]).
    destruct n as [|n]; [done|]. cbn in Hmask. congruence. }
  split; [exact Hlen|]. split; [exact Hsix|].
  split; [|done]. apply Hfrom. cbn. lia.
Defined.
